(** * waifu2x: the frame batch pipeline of [src/waifu2x.ts]

    A shallow embedding of the class [Waifu2x]: the bounded batch
    scheduler of [upscaleImages], [upscaleGIF] and [upscaleVideo], the
    frame selection and timing of [upscaleGIF], the options record the
    functions write to, and the workspace life cycle around
    [removeDirectory].

    Conventions.
    - A JavaScript [number] that counts things ([limit], [parallelFrames],
      [noise], ...) is a [Z].  [scale], [speed], [framerate], the frame
      delays and the durations are IEEE 754 doubles, [Num.t], with the
      rounding of every operation.
    - An optional field is an [option]; [undefined] is [None].  A string
      that the code only tests for truthiness stands for [undefined] or
      [null] when it is empty.
    - Node's [path] module is modelled by its POSIX behaviour.
    - The [fs] module is Node's on Linux, on a disk without symbolic links.
      A path names the entry that [path.resolve] gives for it: the model
      and the file system agree on the paths that do not step through a
      missing entry or a file with [.] or [..]; the statements about
      arbitrary paths say where they need such a path. *)

From stdpp Require Import gmap strings list fin_maps sorting.
From Stdlib Require Import Floats.SpecFloat DecimalString Ascii.
Open Scope string_scope.
Open Scope list_scope.

(** ** JavaScript numbers *)

(** The binary64 format of IEEE 754, by the specification of the Standard
    Library: a number is a zero, an infinity, [NaN], or [m * 2 ^ e] with a
    sign. *)
Module Num.

Definition t := spec_float.

Definition prec : Z := 53.
Definition emax : Z := 1024.

(** The number an integer literal or a [length] denotes. *)
Definition ofZ (z : Z) : t := binary_normalize prec emax z 0 false.

Definition ofNat (n : nat) : t := ofZ (Z.of_nat n).

Definition zero : t := ofZ 0.
Definition one : t := ofZ 1.

(** [x / y] and [x * y] *)
Definition div (x y : t) : t := SFdiv prec emax x y.
Definition mul (x y : t) : t := SFmul prec emax x y.

(** [x < y] and [x === y]; both are false when an operand is [NaN]. *)
Definition ltb (x y : t) : bool := SFltb x y.
Definition eqb (x y : t) : bool := SFeqb x y.

(** [if (x)]: zero and [NaN] are falsy. *)
Definition truthy (x : t) : bool :=
  match x with
  | S754_zero _ | S754_nan => false
  | _ => true
  end.

(** The least integer that is not below [m * 2 ^ e], with the sign [s]. *)
Definition ceilZ (s : bool) (m : positive) (e : Z) : Z :=
  let n := cond_Zopp s (Zpos m) in
  if (0 <=? e)%Z then (n * 2 ^ e)%Z else (- ((- n) / 2 ^ (- e)))%Z.

(** [Math.ceil(x)] *)
Definition ceil (x : t) : t :=
  match x with
  | S754_finite s m e => binary_normalize prec emax (ceilZ s m e) 0 s
  | _ => x
  end.

(** The integer that a finite number with an integer value is. *)
Definition toZ (x : t) : Z :=
  match x with
  | S754_finite s m e => ceilZ s m e
  | _ => 0%Z
  end.

End Num.

(** ** JavaScript string methods *)

Module Str.

Definition one (c : ascii) : string := String c EmptyString.

(** The double quote character, written in the shell commands. *)
Definition dq : string := one (ascii_of_nat 34).

(** [s.endsWith(suffix)] *)
Definition endsWith (s suffix : string) : bool :=
  let n := String.length s in
  let k := String.length suffix in
  (k <=? n)%nat && String.eqb (String.substring (n - k) k s) suffix.

(** [s.slice(0, -1)] *)
Definition slice_0_m1 (s : string) : string :=
  String.substring 0 (String.length s - 1) s.

(** [s.includes(pat)] *)
Definition includes (s pat : string) : bool :=
  match String.index 0 pat s with Some _ => true | None => false end.

(** [s.replace(pat, rep)] for a string pattern: the first occurrence only. *)
Definition replace (s pat rep : string) : string :=
  match String.index 0 pat s with
  | Some i =>
      String.substring 0 i s +:+ rep +:+
      String.substring (i + String.length pat) (String.length s - (i + String.length pat)) s
  | None => s
  end.

(** [s.split(sep)] for a one-character separator. *)
Fixpoint split (sep : ascii) (s : string) : list string :=
  match s with
  | EmptyString => [EmptyString]
  | String c s' =>
      if Ascii.eqb c sep then EmptyString :: split sep s'
      else match split sep s' with
           | [] => [one c]
           | h :: t => String c h :: t
           end
  end.

(** [parts.join(sep)] *)
Fixpoint join (sep : string) (parts : list string) : string :=
  match parts with
  | [] => EmptyString
  | [p] => p
  | p :: rest => p +:+ sep +:+ join sep rest
  end.

(** The index of the last occurrence of [c], scanning from [i]. *)
Fixpoint lastIndexOf_from (c : ascii) (s : string) (i : nat) : option nat :=
  match s with
  | EmptyString => None
  | String d s' =>
      match lastIndexOf_from c s' (S i) with
      | Some j => Some j
      | None => if Ascii.eqb c d then Some i else None
      end
  end.

Definition lastIndexOf (c : ascii) (s : string) : option nat :=
  lastIndexOf_from c s 0.

(** Template-literal conversion of an integer-valued number. *)
Definition ofZ (z : Z) : string := NilZero.string_of_int (Z.to_int z).

Definition ofNat (n : nat) : string := NilZero.string_of_uint (Nat.to_uint n).

Definition nonempty (s : string) : bool :=
  match s with EmptyString => false | _ => true end.

(** The order of the bytes, as [strcmp] has it. *)
Definition le (a b : string) : Prop := String.leb a b = true.

#[global] Instance le_dec a b : Decision (le a b).
Proof. unfold le. apply _. Defined.

End Str.

(** ** Node's [path] module, POSIX flavour *)

Module Path.

Definition slash : ascii := ascii_of_nat 47.
Definition dot : ascii := ascii_of_nat 46.

Definition isAbsolute (p : string) : bool :=
  match p with
  | String c _ => Ascii.eqb c slash
  | EmptyString => false
  end.

(** The non-empty components between the separators. *)
Definition segments (p : string) : list string :=
  filter (fun s => Str.nonempty s = true) (Str.split slash p).

(** [normalizeString]: resolve [.] and [..]; [acc] holds the components
    kept so far, last first. *)
Fixpoint normalizeString (allowAboveRoot : bool) (acc segs : list string)
  : list string :=
  match segs with
  | [] => rev acc
  | s :: rest =>
      if String.eqb s "." then normalizeString allowAboveRoot acc rest
      else if String.eqb s ".." then
        match acc with
        | [] =>
            if allowAboveRoot then normalizeString allowAboveRoot [".."] rest
            else normalizeString allowAboveRoot [] rest
        | a :: acc' =>
            if String.eqb a ".." then normalizeString allowAboveRoot (".." :: acc) rest
            else normalizeString allowAboveRoot acc' rest
        end
      else normalizeString allowAboveRoot (s :: acc) rest
  end.

Definition normalize (p : string) : string :=
  if negb (Str.nonempty p) then "."
  else
    let isAbs := isAbsolute p in
    let trailingSeparator := Str.endsWith p "/" in
    let body := Str.join "/" (normalizeString (negb isAbs) [] (segments p)) in
    if negb (Str.nonempty body) then
      if isAbs then "/" else if trailingSeparator then "./" else "."
    else
      let body := if trailingSeparator then body +:+ "/" else body in
      if isAbs then "/" +:+ body else body.

Definition join (a b : string) : string :=
  match Str.nonempty a, Str.nonempty b with
  | false, false => "."
  | true, false => normalize a
  | false, true => normalize b
  | true, true => normalize (a +:+ "/" +:+ b)
  end.

Definition basename (p : string) : string :=
  default EmptyString (last (segments p)).

Definition extname (p : string) : string :=
  let b := basename p in
  if String.eqb b ".." then EmptyString
  else match Str.lastIndexOf dot b with
       | None | Some O => EmptyString
       | Some i => String.substring i (String.length b - i) b
       end.

(** [path.basename(p, ext)] *)
Definition basename_ext (p ext : string) : string :=
  let b := basename p in
  if Str.nonempty ext && Str.endsWith b ext && negb (String.eqb b ext)
  then String.substring 0 (String.length b - String.length ext) b
  else b.

End Path.

(** ** The options object *)

Inductive Mode := ModeNoise | ModeScale | ModeNoiseScale.

Definition Mode_toString (m : Mode) : string :=
  match m with
  | ModeNoise => "noise"
  | ModeScale => "scale"
  | ModeNoiseScale => "noise-scale"
  end.

(** [Waifu2xOptions], with the fields of [Waifu2xGIFOptions] and
    [Waifu2xVideoOptions]: one JavaScript object serves all three. *)
Module Opt.

Record t := mk {
  noise : option Z;
  scale : option Num.t;
  mode : option Mode;
  blockSize : option Z;
  pngCompression : option Z;
  jpgWebpQuality : option Z;
  disableGPU : option bool;
  forceOpenCL : option bool;
  processor : option Z;
  threads : option Z;
  recursive : option bool;
  modelDir : option string;
  rename : option string;
  waifu2xPath : option string;
  limit : option Z;
  parallelFrames : option Z;
  quality : option Z;
  speed : option Num.t;
  reverse : option bool;
  cumulative : option bool;
  framerate : option Num.t;
  ffmpegPath : option string
}.

(** [{}] *)
Definition empty : t :=
  mk None None None None None None None None None None None
     None None None None None None None None None None None.

Definition set_modelDir (v : option string) (o : t) : t :=
  mk (noise o) (scale o) (mode o) (blockSize o) (pngCompression o)
     (jpgWebpQuality o) (disableGPU o) (forceOpenCL o) (processor o)
     (threads o) (recursive o) v (rename o) (waifu2xPath o) (limit o)
     (parallelFrames o) (quality o) (speed o) (reverse o) (cumulative o)
     (framerate o) (ffmpegPath o).

Definition set_rename (v : option string) (o : t) : t :=
  mk (noise o) (scale o) (mode o) (blockSize o) (pngCompression o)
     (jpgWebpQuality o) (disableGPU o) (forceOpenCL o) (processor o)
     (threads o) (recursive o) (modelDir o) v (waifu2xPath o) (limit o)
     (parallelFrames o) (quality o) (speed o) (reverse o) (cumulative o)
     (framerate o) (ffmpegPath o).

Definition set_limit (v : option Z) (o : t) : t :=
  mk (noise o) (scale o) (mode o) (blockSize o) (pngCompression o)
     (jpgWebpQuality o) (disableGPU o) (forceOpenCL o) (processor o)
     (threads o) (recursive o) (modelDir o) (rename o) (waifu2xPath o) v
     (parallelFrames o) (quality o) (speed o) (reverse o) (cumulative o)
     (framerate o) (ffmpegPath o).

Definition set_parallelFrames (v : option Z) (o : t) : t :=
  mk (noise o) (scale o) (mode o) (blockSize o) (pngCompression o)
     (jpgWebpQuality o) (disableGPU o) (forceOpenCL o) (processor o)
     (threads o) (recursive o) (modelDir o) (rename o) (waifu2xPath o)
     (limit o) v (quality o) (speed o) (reverse o) (cumulative o)
     (framerate o) (ffmpegPath o).

Definition set_speed (v : option Num.t) (o : t) : t :=
  mk (noise o) (scale o) (mode o) (blockSize o) (pngCompression o)
     (jpgWebpQuality o) (disableGPU o) (forceOpenCL o) (processor o)
     (threads o) (recursive o) (modelDir o) (rename o) (waifu2xPath o)
     (limit o) (parallelFrames o) (quality o) v (reverse o) (cumulative o)
     (framerate o) (ffmpegPath o).

Definition set_reverse (v : option bool) (o : t) : t :=
  mk (noise o) (scale o) (mode o) (blockSize o) (pngCompression o)
     (jpgWebpQuality o) (disableGPU o) (forceOpenCL o) (processor o)
     (threads o) (recursive o) (modelDir o) (rename o) (waifu2xPath o)
     (limit o) (parallelFrames o) (quality o) (speed o) v (cumulative o)
     (framerate o) (ffmpegPath o).

Definition set_cumulative (v : option bool) (o : t) : t :=
  mk (noise o) (scale o) (mode o) (blockSize o) (pngCompression o)
     (jpgWebpQuality o) (disableGPU o) (forceOpenCL o) (processor o)
     (threads o) (recursive o) (modelDir o) (rename o) (waifu2xPath o)
     (limit o) (parallelFrames o) (quality o) (speed o) (reverse o) v
     (framerate o) (ffmpegPath o).

Definition set_framerate (v : option Num.t) (o : t) : t :=
  mk (noise o) (scale o) (mode o) (blockSize o) (pngCompression o)
     (jpgWebpQuality o) (disableGPU o) (forceOpenCL o) (processor o)
     (threads o) (recursive o) (modelDir o) (rename o) (waifu2xPath o)
     (limit o) (parallelFrames o) (quality o) (speed o) (reverse o)
     (cumulative o) v (ffmpegPath o).

End Opt.

(** Truthiness of an optional field, as in [if (options.x)] and
    [if (!options.x)]. *)
Definition truthyZ (v : option Z) : bool :=
  match v with Some z => negb (z =? 0)%Z | None => false end.

Definition truthyN (v : option Num.t) : bool :=
  match v with Some q => Num.truthy q | None => false end.

Definition truthyB (v : option bool) : bool :=
  match v with Some b => b | None => false end.

Definition truthyS (v : option string) : bool :=
  match v with Some s => Str.nonempty s | None => false end.

(** [options.scale !== 1] *)
Definition scale_is_not_1 (o : Opt.t) : bool :=
  match Opt.scale o with Some q => negb (Num.eqb q Num.one) | None => true end.

(** ** What the runtime supplies *)

(** [__dirname], the conversion of a fractional number in a template
    literal, and the order in which the child processes of one group exit
    (the order in which the suspended callbacks of [Promise.all] resume). *)
Record Env := {
  dirname : string;
  showNum : Num.t -> string;
  exitOrder : list string -> list string
}.

(** The exit order of a group is a rearrangement of the group: every child
    process exits, and exits once. *)
Definition exits_all (env : Env) : Prop :=
  forall g, exitOrder env g ≡ₚ g.

(** [local], as computed in [parseDest], [upscaleImage], [upscaleGIF] and
    [upscaleVideo]. *)
Definition local (env : Env) : string :=
  if Str.includes (dirname env) "node_modules"
  then Path.join (dirname env) "../../../"
  else Path.join (dirname env) "..".

(** ** [parseFilename] *)

(** The strings [image] and [folder] are [null] in the source where they are
    empty here; the source only tests them with [!]. *)
Definition parseFilename (source dest rename : string) : string * string :=
  let '(image, folder) :=
    if negb (Str.nonempty dest) then (EmptyString, EmptyString)
    else if Str.includes (Path.basename dest) "." then
      let image := Path.basename dest in
      (image, Str.replace dest image EmptyString)
    else (EmptyString, dest) in
  let folder := if negb (Str.nonempty folder) then "./" else folder in
  let folder := if Str.endsWith folder "/" then Str.slice_0_m1 folder else folder in
  let image :=
    if negb (Str.nonempty image)
    then Path.basename_ext source (Path.extname source) +:+ rename +:+ Path.extname source
    else image in
  (folder, image).

(** ** [upscaleImage] *)

(** What one call of [upscaleImage] leaves behind before it suspends: the
    [source] it was given, the folder it creates when missing (line 126),
    the command handed to
    [child_process.exec] (line 151), and the path it returns when the child
    exits (line 169). *)
Record Spawn := {
  sp_source : string;
  sp_folder : string;
  sp_command : string;
  sp_destPath : string
}.

Definition flagZ (flag : string) (v : option Z) : string :=
  match v with
  | Some z => if (z =? 0)%Z then EmptyString else flag +:+ Str.ofZ z
  | None => EmptyString
  end.

Definition flagB (flag : string) (v : option bool) : string :=
  if truthyB v then flag else EmptyString.

(** [upscaleImage(source, dest, options)] up to its first suspension, as the
    schedulers call it (no [action]), with the disk left out: what the call
    writes and starts when its line 126 goes through.  Line 126 itself,
    which can throw, is [line126]: [frames_start_io] and [images_start_io]
    apply it to [sp_folder].  The function writes [rename] and [modelDir]
    into the caller's object: the new object is returned. *)
Definition upscaleImage (env : Env) (source dest : string) (options : Opt.t)
  : Opt.t * Spawn :=
  let dest := if negb (Str.nonempty dest) then "./" else dest in
  let options :=
    match Opt.rename options with
    | None => Opt.set_rename (Some "2x") options
    | Some _ => options
    end in
  let rename := default EmptyString (Opt.rename options) in
  let '(folder0, image) := parseFilename source dest rename in
  let relative := negb (Path.isAbsolute source) && negb (Path.isAbsolute dest) in
  let sourcePath := if relative then Path.join (local env) source else source in
  let folder := if relative then Path.join (local env) folder0 else folder0 in
  let destPath := folder +:+ "/" +:+ image in
  let absolute :=
    if truthyS (Opt.waifu2xPath options)
    then default EmptyString (Opt.waifu2xPath options)
    else Path.join (dirname env) "../waifu2x" in
  let program := "cd " +:+ absolute +:+ "/ && waifu2x-converter-cpp.exe" in
  let command :=
    program +:+ " -i " +:+ Str.dq +:+ sourcePath +:+ Str.dq +:+
    " -o " +:+ Str.dq +:+ destPath +:+ Str.dq +:+ " -s" in
  let command := command +:+ flagZ " --noise-level " (Opt.noise options) in
  let command :=
    command +:+
    (if truthyN (Opt.scale options)
     then " --scale-ratio " +:+ showNum env (default Num.zero (Opt.scale options))
     else EmptyString) in
  let command :=
    command +:+
    match Opt.mode options with
    | Some m => " -m " +:+ Mode_toString m
    | None => EmptyString
    end in
  let command := command +:+ flagZ " -c " (Opt.pngCompression options) in
  let command := command +:+ flagZ " -q " (Opt.jpgWebpQuality options) in
  let command := command +:+ flagZ " --block-size " (Opt.blockSize options) in
  let command := command +:+ flagB " --disable-gpu" (Opt.disableGPU options) in
  let command := command +:+ flagB " --force-OpenCL" (Opt.forceOpenCL options) in
  let command := command +:+ flagZ " -p " (Opt.processor options) in
  let command := command +:+ flagZ " -j " (Opt.threads options) in
  let '(options, command) :=
    if truthyS (Opt.modelDir options) then
      let m := default EmptyString (Opt.modelDir options) in
      let m := if Str.endsWith m "/" then Str.slice_0_m1 m else m in
      let m := if negb (Path.isAbsolute m) then Path.join (local env) m else m in
      (Opt.set_modelDir (Some m) options,
       command +:+ " --model-dir " +:+ Str.dq +:+ m +:+ Str.dq)
    else (options, command) in
  (options,
   {| sp_source := source; sp_folder := folder0; sp_command := command; sp_destPath := destPath |}).

(** ** The group queue *)

(** [arr.splice(0, n)] removes and returns the first [n] elements; a negative
    count removes nothing. *)
Definition splice0 {A} (n : Z) (arr : list A) : list A * list A :=
  (take (Z.to_nat n) arr, drop (Z.to_nat n) arr).

(** [while (arr.length) queue.push(arr.splice(0, n))].  With [n < 1] the
    array never shrinks and the loop of the source never ends: that is
    [None] here, when the fuel runs out. *)
Fixpoint queue_loop {A} (fuel : nat) (n : Z) (arr : list A)
  : option (list (list A)) :=
  match arr with
  | [] => Some []
  | _ :: _ =>
      match fuel with
      | O => None
      | S fuel' =>
          let '(g, arr') := splice0 n arr in
          cons g <$> queue_loop fuel' n arr'
      end
  end.

(** One round of fuel per element is enough whenever the loop ends. *)
Definition build_queue {A} (n : Z) (arr : list A) : option (list (list A)) :=
  queue_loop (length arr) n arr.

(** ** The bounded batch scheduler *)

(** The progress callback.  It sees the calls made so far, the current one
    last, and answers whether to stop ([void] and [false] are [false]). *)
Definition Progress := list (nat * nat) -> bool.

(** The variables the three scheduling loops share. *)
Record Sched := {
  options : Opt.t;
  cancel : bool;
  counter : nat;
  results : list string;   (* [retArray], [scaledFrames] *)
  calls : list (nat * nat);  (* the calls of [progress], oldest first *)
  spawned : list Spawn       (* the child processes started, oldest first *)
}.

(** [progress ? progress(counter++, total) : false], then
    [if (stop) cancel = true]. *)
Definition report (progress : option Progress) (total : nat) (st : Sched) : Sched :=
  match progress with
  | Some cb =>
      let calls' := calls st ++ [(counter st, total)] in
      {| options := options st;
         cancel := if cb calls' then true else cancel st;
         counter := S (counter st);
         results := results st;
         calls := calls';
         spawned := spawned st |}
  | None => st
  end.

(** The part of a callback after its [await]: push the result, report. *)
Definition resume (progress : option Progress) (total : nat) (st : Sched)
  (ret : string) : Sched :=
  report progress total
    {| options := options st;
       cancel := cancel st;
       counter := counter st;
       results := results st ++ [ret];
       calls := calls st;
       spawned := spawned st |}.

(** [counter >= options.limit] *)
Definition limit_reached (st : Sched) : bool :=
  match Opt.limit (options st) with
  | Some l => (l <=? Z.of_nat (counter st))%Z
  | None => false
  end.

(** A callback of [upscaleImages] up to its [await] (lines 206-207), when
    line 126 of the call goes through; [images_start_io] is the callback on
    the disk. *)
Definition images_start (env : Env) (destFolder : string) (st : Sched)
  (f : string) : Sched * string :=
  let cancel' := if limit_reached st then true else cancel st in
  let '(o, sp) := upscaleImage env f destFolder (options st) in
  ({| options := o;
      cancel := cancel';
      counter := counter st;
      results := results st;
      calls := calls st;
      spawned := spawned st ++ [sp] |},
   sp_destPath sp).

(** A callback of [upscaleGIF] and [upscaleVideo] up to its [await]
    (lines 303 and 408), when line 126 of the call goes through;
    [frames_start_io] is the callback on the disk. *)
Definition frames_start (env : Env) (upScaleDest : string) (st : Sched)
  (f : string) : Sched * string :=
  let dest := upScaleDest +:+ "/" +:+ Path.basename f in
  let '(o, sp) := upscaleImage env f dest (options st) in
  ({| options := o;
      cancel := cancel st;
      counter := counter st;
      results := results st;
      calls := calls st;
      spawned := spawned st ++ [sp] |},
   dest).

(** [queue[i].map(async (f) => ...)]: each callback runs to its [await] in
    the order of the group; the values they will push are collected. *)
Fixpoint start_all (start : Sched -> string -> Sched * string) (st : Sched)
  (group : list string) : Sched * list string :=
  match group with
  | [] => (st, [])
  | f :: group' =>
      let '(st1, ret) := start st f in
      let '(st2, rets) := start_all start st1 group' in
      (st2, ret :: rets)
  end.

(** [await Promise.all(...)]: the callbacks resume in the order their child
    processes exit. *)
Definition run_group (env : Env) (start : Sched -> string -> Sched * string)
  (progress : option Progress) (total : nat) (st : Sched) (group : list string)
  : Sched :=
  let '(st1, rets) := start_all start st group in
  foldl (resume progress total) st1 (exitOrder env rets).

(** [for (let i = 0; i < queue.length; i++) { await ...; if (cancel) break }] *)
Fixpoint run_queue (env : Env) (start : Sched -> string -> Sched * string)
  (progress : option Progress) (total : nat) (st : Sched)
  (queue : list (list string)) : Sched :=
  match queue with
  | [] => st
  | group :: queue' =>
      let st' := run_group env start progress total st group in
      if cancel st' then st' else run_queue env start progress total st' queue'
  end.

(** ** [upscaleImages], from line 195 *)

(** The loop as it runs when line 126 of every call goes through;
    [upscaleImages_io] is the function on the disk, where a call can throw.
    [fileMap] is the listing that lines 185-194 read from the source folder.
    [None]: the queue loop does not end. *)
Definition upscaleImages (env : Env) (fileMap : list string)
  (destFolder : string) (options0 : Opt.t) (progress : option Progress)
  : option Sched :=
  let options1 :=
    if negb (truthyZ (Opt.limit options0))
    then Opt.set_limit (Some (Z.of_nat (length fileMap))) options0
    else options0 in
  let total := length fileMap in
  let options2 :=
    if negb (truthyZ (Opt.parallelFrames options1))
    then Opt.set_parallelFrames (Some 1%Z) options1
    else options1 in
  queue ← build_queue (default 0%Z (Opt.parallelFrames options2)) fileMap;
  let st0 :=
    {| options := options2;
       cancel := false;
       counter := 1;
       results := [];
       calls := match progress with Some _ => [(0, total)] | None => [] end;
       spawned := [] |} in
  Some (run_queue env (images_start env destFolder) progress total st0 queue).

(** ** The scheduling block of [upscaleGIF] (lines 292-312) and of
    [upscaleVideo] (lines 397-418) *)

(** What the block leaves: the options object, [scaledFrames], what is left
    of [frameArray], and the calls and child processes it made. *)
Record Scheduled := {
  sc_options : Opt.t;
  sc_scaledFrames : list string;
  sc_frameArray : list string;
  sc_ran : bool;                (* the branch [options.scale !== 1] *)
  sc_calls : list (nat * nat);
  sc_spawned : list Spawn
}.

(** Lines 294-300: the variables of the block and the queue.  [None]: the
    queue loop does not end. *)
Definition frames_init (frameArray : list string) (options0 : Opt.t)
  (progress : option Progress) : Opt.t * option (Sched * list (list string)) :=
  let total := length frameArray in
  let options1 :=
    if negb (truthyZ (Opt.parallelFrames options0))
    then Opt.set_parallelFrames (Some 1%Z) options0
    else options0 in
  (options1,
   queue ← build_queue (default 0%Z (Opt.parallelFrames options1)) frameArray;
   (* [if (progress) progress(counter++, total)]: the answer is dropped *)
   Some ({| options := options1;
            cancel := false;
            counter := match progress with Some _ => 1 | None => 0 end;
            results := [];
            calls := match progress with Some _ => [(0, total)] | None => [] end;
            spawned := [] |},
         queue)).

Definition frames_done (st : Sched) : Scheduled :=
  {| sc_options := options st;
     sc_scaledFrames := results st;
     sc_frameArray := [];
     sc_ran := true;
     sc_calls := calls st;
     sc_spawned := spawned st |}.

(** The [else] branch: [scaledFrames = frameArray]. *)
Definition frames_skipped (frameArray : list string) (options0 : Opt.t) : Scheduled :=
  {| sc_options := options0;
     sc_scaledFrames := frameArray;
     sc_frameArray := frameArray;
     sc_ran := false;
     sc_calls := [];
     sc_spawned := [] |}.

Definition schedule_frames (env : Env) (upScaleDest : string)
  (frameArray : list string) (options0 : Opt.t) (progress : option Progress)
  : option Scheduled :=
  if scale_is_not_1 options0 then
    '(st, queue) ← (frames_init frameArray options0 progress).2;
    Some (frames_done
            (run_queue env (frames_start env upScaleDest) progress
               (length frameArray) st queue))
  else Some (frames_skipped frameArray options0).

(** ** Vocabulary of the statements *)

(** The [n] calls [progress(c, total)], ..., [progress(c + n - 1, total)]. *)
Definition reports (c total n : nat) : list (nat * nat) :=
  map (fun i => ((c + i)%nat, total)) (seq 0 n).

(** The callback never asks to stop. *)
Definition never_stops (cb : Progress) : Prop := forall h, cb h = false.

(** The callback asks to stop at one of the next [n] calls made from [st]. *)
Definition stops_within (cb : Progress) (total : nat) (st : Sched) (n : nat) : Prop :=
  exists k, (k < n)%nat /\ cb (calls st ++ reports (counter st) total (S k)) = true.

(** The two ways the source starts a frame. *)
Inductive source_start (env : Env) : (Sched -> string -> Sched * string) -> Prop :=
  | start_images destFolder : source_start env (images_start env destFolder)
  | start_frames upScaleDest : source_start env (frames_start env upScaleDest).


(** The destination the loop of [upscaleGIF] and [upscaleVideo] hands to
    [upscaleImage] for frame [f], and pushes to [scaledFrames]. *)
Definition scaled_path (upScaleDest f : string) : string :=
  upScaleDest +:+ "/" +:+ Path.basename f.

(** The fields of the options object that no function of the class writes. *)
Definition settings (o : Opt.t) :=
  (Opt.noise o, Opt.scale o, Opt.mode o, Opt.blockSize o, Opt.pngCompression o,
   Opt.jpgWebpQuality o, Opt.disableGPU o, Opt.forceOpenCL o, Opt.processor o,
   Opt.threads o, Opt.recursive o, Opt.waifu2xPath o, Opt.quality o,
   Opt.ffmpegPath o).

(** [modelDir] as [upscaleImage] writes it back (lines 147-148). *)
Definition normalized_modelDir (env : Env) (m : string) : string :=
  let m := if Str.endsWith m "/" then Str.slice_0_m1 m else m in
  if negb (Path.isAbsolute m) then Path.join (local env) m else m.

(** What both ways of starting a frame have in common. *)
Definition start_ok (start : Sched -> string -> Sched * string) : Prop :=
  forall st f,
    counter (start st f).1 = counter st /\
    calls (start st f).1 = calls st /\
    results (start st f).1 = results st /\
    (cancel st = true -> cancel (start st f).1 = true) /\
    exists sp, spawned (start st f).1 = spawned st ++ [sp] /\ sp_source sp = f.


(** ** Outcomes of a call *)

(** A call returns, throws (an [async] function rejects), or never settles
    (a loop that does not end, a promise nobody resolves). *)
Inductive Res (A : Type) : Type :=
  | Ok (a : A)
  | Throw (e : string)
  | Never.
Arguments Ok {A} a.
Arguments Throw {A} e.
Arguments Never {A}.

(** ** The file system, as the [fs] module shows it *)

Inductive Kind := File | Dir.

(** The entries below the root, by their path components, and the working
    directory against which relative paths are resolved.  The root itself,
    the empty path, is always a directory. *)
Record FS := {
  cwd : list string;
  nodes : gmap (list string) Kind
}.

Definition with_nodes (fs : FS) (m : gmap (list string) Kind) : FS :=
  {| cwd := cwd fs; nodes := m |}.

(** The entry a path string names. *)
Definition resolve (fs : FS) (p : string) : list string :=
  Path.normalizeString false []
    ((if Path.isAbsolute p then [] else cwd fs) ++ Path.segments p).

Definition node_at (fs : FS) (path : list string) : option Kind :=
  match path with
  | [] => Some Dir
  | _ :: _ => nodes fs !! path
  end.

(** The names directly below [path]. *)
Definition children (fs : FS) (path : list string) : list string :=
  omap (fun k => if decide (removelast k = path) then last k else None)
       (map fst (map_to_list (nodes fs))).

(** The error of a path with nothing at it: [ENOTDIR] when an entry on
    the way to it is a file. *)
Definition missing (fs : FS) (path : list string) : string :=
  if existsb (fun n => match node_at fs (take n path) with
                       | Some File => true
                       | _ => false
                       end)
             (seq 0 (length path))
  then "ENOTDIR" else "ENOENT".

(** What the system calls find at [p]: the entry and its kind.  The empty
    path names nothing, and a path with a slash at its end names no file. *)
Definition lookup (fs : FS) (p : string) : Res (list string * Kind) :=
  if negb (Str.nonempty p) then Throw "ENOENT"
  else
    let path := resolve fs p in
    match node_at fs path with
    | Some Dir => Ok (path, Dir)
    | Some File => if Str.endsWith p "/" then Throw "ENOTDIR" else Ok (path, File)
    | None => Throw (missing fs path)
    end.

(** [fs.existsSync(p)] *)
Definition existsSync (fs : FS) (p : string) : bool :=
  match lookup fs p with Ok _ => true | _ => false end.

(** Create the directories of [path] that are missing, outermost first;
    [done] is the part of the path already walked. *)
Fixpoint mkdir_walk (fs : FS) (done todo : list string) : FS * Res unit :=
  match todo with
  | [] => (fs, Ok tt)
  | name :: todo' =>
      let here := done ++ [name] in
      match node_at fs here with
      | Some Dir => mkdir_walk fs here todo'
      | Some File =>
          (fs, Throw (match todo' with [] => "EEXIST" | _ => "ENOTDIR" end))
      | None => mkdir_walk (with_nodes fs (<[here := Dir]> (nodes fs))) here todo'
      end
  end.

(** [fs.mkdirSync(p, {recursive: true})] *)
Definition mkdirSync (fs : FS) (p : string) : FS * Res unit :=
  if negb (Str.nonempty p) then (fs, Throw "ENOENT")
  else mkdir_walk fs [] (resolve fs p).

(** The last component of a path string. *)
Definition last_segment (p : string) : string :=
  default EmptyString (last (Path.segments p)).

(** The name of a file that can be opened for writing: the path does not
    end in a slash, in [.] or in [..]. *)
Definition names_a_file (p : string) : bool :=
  negb (Str.endsWith p "/") && Str.nonempty (last_segment p) &&
  negb (String.eqb (last_segment p) ".") &&
  negb (String.eqb (last_segment p) "..").

(** [fs.createWriteStream(p)] with data piped in: the file is there when the
    stream finishes ([true]); the stream emits [error] when the directory is
    missing or [p] names a directory ([false]). *)
Definition createWriteStream (fs : FS) (p : string) : FS * bool :=
  let path := resolve fs p in
  if negb (names_a_file p) then (fs, false)
  else
    match node_at fs (removelast path), node_at fs path with
    | Some Dir, (None | Some File) =>
        (with_nodes fs (<[path := File]> (nodes fs)), true)
    | _, _ => (fs, false)
    end.

(** [fs.readdirSync(p)]: the names come sorted, byte by byte. *)
Definition readdirSync (fs : FS) (p : string) : Res (list string) :=
  match lookup fs p with
  | Ok (path, Dir) => Ok (merge_sort Str.le (children fs path))
  | Ok (_, File) => Throw "ENOTDIR"
  | Throw e => Throw e
  | Never => Never
  end.

(** [fs.lstatSync(p).isDirectory()] *)
Definition lstatSync_isDirectory (fs : FS) (p : string) : Res bool :=
  match lookup fs p with
  | Ok (_, Dir) => Ok true
  | Ok (_, File) => Ok false
  | Throw e => Throw e
  | Never => Never
  end.

(** [fs.unlinkSync(p)] *)
Definition unlinkSync (fs : FS) (p : string) : FS * Res unit :=
  match lookup fs p with
  | Ok (path, File) => (with_nodes fs (delete path (nodes fs)), Ok tt)
  | Ok (_, Dir) => (fs, Throw "EISDIR")
  | Throw e => (fs, Throw e)
  | Never => (fs, Never)
  end.

(** [fs.rmdirSync(p)]: the system call refuses a path that ends in [.] or
    in [..], and the root. *)
Definition rmdirSync (fs : FS) (p : string) : FS * Res unit :=
  match lookup fs p with
  | Ok (path, kind) =>
      if String.eqb (last_segment p) "." then (fs, Throw "EINVAL")
      else if String.eqb (last_segment p) ".." then (fs, Throw "ENOTEMPTY")
      else
        match path, kind with
        | [], _ => (fs, Throw "EBUSY")
        | _, File => (fs, Throw "ENOTDIR")
        | _, Dir =>
            match children fs path with
            | [] => (with_nodes fs (delete path (nodes fs)), Ok tt)
            | _ :: _ => (fs, Throw "ENOTEMPTY")
            end
        end
  | Throw e => (fs, Throw e)
  | Never => (fs, Never)
  end.

(** ** [removeDirectory] *)

(** The file system and what [console.log] printed. *)
Record Disk := {
  disk : FS;
  console : list string
}.

(** [fs.readdirSync(dir).forEach(body)]: the first exception ends it. *)
Fixpoint forEach (body : Disk -> string -> Disk * Res unit) (d : Disk)
  (entries : list string) : Disk * Res unit :=
  match entries with
  | [] => (d, Ok tt)
  | entry :: rest =>
      match body d entry with
      | (d', Ok _) => forEach body d' rest
      | (d', r) => (d', r)
      end
  end.

(** [removeDirectory(dir)].  The recursion of the source follows the
    directory tree; [fuel] bounds its depth, and [Never] is the answer when
    the bound is too small. *)
Fixpoint removeDirectory (fuel : nat) (d : Disk) (dir : string) : Disk * Res unit :=
  match fuel with
  | O => (d, Never)
  | S fuel' =>
      if String.eqb dir "/" || String.eqb dir "./" then (d, Ok tt)
      else if existsSync (disk d) dir then
        match readdirSync (disk d) dir with
        | Ok entries =>
            match
              forEach
                (fun d entry =>
                   let entryPath := Path.join dir entry in
                   match lstatSync_isDirectory (disk d) entryPath with
                   | Ok true => removeDirectory fuel' d entryPath
                   | Ok false =>
                       let '(fs', r) := unlinkSync (disk d) entryPath in
                       ({| disk := fs'; console := console d |}, r)
                   | Throw e => (d, Throw e)
                   | Never => (d, Never)
                   end)
                d entries
            with
            | (d', Ok _) =>
                (* [try { fs.rmdirSync(dir) } catch (e) { console.log(e) }] *)
                match rmdirSync (disk d') dir with
                | (fs', Ok _) => ({| disk := fs'; console := console d' |}, Ok tt)
                | (fs', Throw e) =>
                    ({| disk := fs'; console := console d' ++ [e] |}, Ok tt)
                | (fs', Never) => ({| disk := fs'; console := console d' |}, Never)
                end
            | (d', r) => (d', r)
            end
        | Throw e => (d, Throw e)
        | Never => (d, Never)
        end
      else (d, Ok tt)
  end.

(** Fuel that covers the deepest entry of the file system. *)
Definition depth (fs : FS) : nat :=
  foldr (fun kv n => Nat.max (length kv.1) n) 0%nat (map_to_list (nodes fs)).

Definition removeDirectory' (d : Disk) (dir : string) : Disk * Res unit :=
  removeDirectory (S (depth (disk d))) d dir.

(** ** Frame selection and timing of [upscaleGIF] (lines 272-288) *)

(** A frame as [gif-frames] returns it: [frameInfo.delay], and the picture
    that [getImage()] streams. *)
Record GifFrame := {
  frameInfo_delay : Num.t;
  getImage : string
}.

(** [options.speed > 1] and [options.speed < 1]; both are false when the
    speed is [undefined] or [NaN]. *)
Definition speed_gt_1 (o : Opt.t) : bool :=
  match Opt.speed o with Some s => Num.ltb Num.one s | None => false end.

Definition speed_lt_1 (o : Opt.t) : bool :=
  match Opt.speed o with Some s => Num.ltb s Num.one | None => false end.

(** [options.speed] where it is read as a number: [undefined] is [NaN]. *)
Definition speed_of (o : Opt.t) : Num.t := default S754_nan (Opt.speed o).

(** [constraint] (line 272) *)
Definition constraint (o : Opt.t) (len : nat) : Num.t :=
  if speed_gt_1 o then Num.div (Num.ofNat len) (speed_of o) else Num.ofNat len.

(** [step] (line 273): an integer, an infinity, or [NaN]. *)
Definition step (o : Opt.t) (len : nat) : Num.t :=
  Num.ceil (Num.div (Num.ofNat len) (constraint o len)).

(** The number [x] is finite and has the integer value [k]. *)
Definition is_Z (x : Num.t) (k : Z) : Prop :=
  match x with
  | S754_finite _ _ _ | S754_zero _ => Num.toZ x = k
  | _ => False
  end.

Definition frame_path (frameDest : string) (i : Z) : string :=
  frameDest +:+ "/frame" +:+ Str.ofZ i +:+ ".jpg".

(** [for (let i = 0; i < frames.length; i += step)]: the path and the frame
    of every index visited.  The index is an integer, and the sums are
    exact as long as it is below [frames.length]; after [i += Infinity] or
    [i += NaN] the test [i < frames.length] fails and the loop is left.
    [None] when the fuel runs out or an index falls outside [frames]. *)
Fixpoint downloadFrames (fuel : nat) (frameDest : string)
  (frames : list GifFrame) (step : Num.t) (i : Z) : option (list (string * GifFrame)) :=
  if (i <? Z.of_nat (length frames))%Z then
    match fuel with
    | O => None
    | S fuel' =>
        if (i <? 0)%Z then None
        else
          fr ← frames !! Z.to_nat i;
          rest ← match step with
                 | S754_nan | S754_infinity false => Some []
                 | S754_infinity true => None
                 | _ => downloadFrames fuel' frameDest frames step (i + Num.toZ step)%Z
                 end;
          Some ((frame_path frameDest i, fr) :: rest)
    end
  else Some [].

(** [frameArray] and [delayArray] after line 288. *)
Definition select_frames (o : Opt.t) (frameDest : string) (frames : list GifFrame)
  : option (list string * list Num.t) :=
  kept ← downloadFrames (length frames) frameDest frames (step o (length frames)) 0;
  let frameArray := map fst kept in
  let delayArray := map (fun x => frameInfo_delay x.2) kept in
  let delayArray :=
    if speed_lt_1 o
    then map (fun n => Num.div n (speed_of o)) delayArray
    else delayArray in
  Some (frameArray, delayArray).

(** ** The reverse step (lines 313-316) *)

Definition reverse_step (o : Opt.t) (scaledFrames : list string)
  (delayArray : list Num.t) : list string * list Num.t :=
  if truthyB (Opt.reverse o) then (rev scaledFrames, rev delayArray)
  else (scaledFrames, delayArray).

(** ** What lies outside the source *)

(** A run of [fluent-ffmpeg]: the inputs, the output options, and the file
    it saves. *)
Record Ffmpeg := {
  ff_inputs : list string;
  ff_outputOptions : list string;
  ff_save : string
}.

(** The answers of the packages and programs the source calls:
    [gif-frames]; whether a converter process writes its output; whether a
    run of ffmpeg comes to its end; how many frames the first run extracts;
    what [parseDuration] and [parseFramerate] read from the text ffmpeg
    prints ([Throw] when the text has no match); and the order of
    [Intl.Collator]. *)
Record External := {
  gifFrames : string -> bool -> Res (list GifFrame);
  converts : Spawn -> bool;
  ffmpeg_ends : Ffmpeg -> bool;
  video_frames : string -> nat;
  parseDuration : string -> Res Num.t;
  parseFramerate : string -> Res Num.t;
  collate : list string -> list string
}.

(** ** A job *)

(** An animated image written by [encodeGIF]: the destination, the quality,
    and the frames with the delay set for each ([None] is [NaN]). *)
Record Gif := {
  gif_dest : string;
  gif_quality : Z;
  gif_frames : list (string * option Num.t)
}.

(** Everything a job can change: the disk, the options object of the
    caller, and the traces of its calls. *)
Record Job := {
  j_disk : Disk;
  j_options : Opt.t;
  j_calls : list (nat * nat);
  j_spawned : list Spawn;
  j_gifs : list Gif;
  j_ffmpeg : list Ffmpeg
}.

Definition M (A : Type) : Type := Job -> Job * Res A.

Definition ret {A} (a : A) : M A := fun j => (j, Ok a).

Definition bind {A B} (m : M A) (k : A -> M B) : M B :=
  fun j =>
    match m j with
    | (j', Ok a) => k a j'
    | (j', Throw e) => (j', Throw e)
    | (j', Never) => (j', Never)
    end.

Notation "'let*' x := m 'in' k" := (bind m (fun x => k))
  (at level 10, x name, m at level 100, k at level 200, only parsing).

Definition throw {A} (e : string) : M A := fun j => (j, Throw e).

Definition never {A} : M A := fun j => (j, Never).

Definition lift {A} (r : Res A) : M A := fun j => (j, r).

Definition set_disk (d : Disk) (j : Job) : Job :=
  {| j_disk := d; j_options := j_options j; j_calls := j_calls j;
     j_spawned := j_spawned j; j_gifs := j_gifs j; j_ffmpeg := j_ffmpeg j |}.

Definition set_fs (fs : FS) (j : Job) : Job :=
  set_disk {| disk := fs; console := console (j_disk j) |} j.

Definition set_options (o : Opt.t) (j : Job) : Job :=
  {| j_disk := j_disk j; j_options := o; j_calls := j_calls j;
     j_spawned := j_spawned j; j_gifs := j_gifs j; j_ffmpeg := j_ffmpeg j |}.

Definition the_options : M Opt.t := fun j => (j, Ok (j_options j)).

Definition write_options (f : Opt.t -> Opt.t) : M unit :=
  fun j => (set_options (f (j_options j)) j, Ok tt).

Definition on_fs {A} (f : FS -> FS * Res A) : M A :=
  fun j => let '(fs', r) := f (disk (j_disk j)) in (set_fs fs' j, r).

Definition exists_ (p : string) : M bool :=
  fun j => (j, Ok (existsSync (disk (j_disk j)) p)).

Definition release (dir : string) : M unit :=
  fun j => let '(d, r) := removeDirectory' (j_disk j) dir in (set_disk d j, r).

Definition run_ffmpeg (ext : External) (run : Ffmpeg) : M bool :=
  fun j =>
    ({| j_disk := j_disk j; j_options := j_options j; j_calls := j_calls j;
        j_spawned := j_spawned j; j_gifs := j_gifs j;
        j_ffmpeg := j_ffmpeg j ++ [run] |},
     Ok (ffmpeg_ends ext run)).

(** A promise that waits for the [end] of a run of ffmpeg and has no
    handler for its [error]: the output is written when the run ends. *)
Definition await_ffmpeg (ext : External) (run : Ffmpeg) : M unit :=
  let* ended := run_ffmpeg ext run in
  if ended then
    on_fs (fun fs => let '(fs', _) := createWriteStream fs (ff_save run) in (fs', Ok tt))
  else never.

(** ** The scheduling block on the disk *)

(** Line 126 of [upscaleImage]. *)
Definition line126 (fs : FS) (folder : string) : FS * Res unit :=
  if existsSync fs folder then (fs, Ok tt) else mkdirSync fs folder.

(** Line 123 alone: what [upscaleImage] has written when line 126 throws. *)
Definition line123 (o : Opt.t) : Opt.t :=
  match Opt.rename o with
  | None => Opt.set_rename (Some "2x") o
  | Some _ => o
  end.

Definition with_options (o : Opt.t) (st : Sched) : Sched :=
  {| options := o; cancel := cancel st; counter := counter st;
     results := results st; calls := calls st; spawned := spawned st |}.

(** A callback of a scheduling loop up to its [await], on the disk: the
    scheduler's variables and the disk after it, and the child process
    with the value the callback will push, or the exception. *)
Definition StartIO : Type :=
  Sched * FS -> string -> (Sched * FS) * Res (Spawn * string).

(** A callback of [upscaleGIF] and [upscaleVideo] on the disk:
    [frames_start] when line 126 goes through; otherwise the callback has
    thrown. *)
Definition frames_start_io (env : Env) (upScaleDest : string) : StartIO :=
  fun x f =>
  let '(st, fs) := x in
  let '(_, sp) := upscaleImage env f (scaled_path upScaleDest f) (options st) in
  match line126 fs (sp_folder sp) with
  | (fs', Ok _) =>
      let '(st', ret) := frames_start env upScaleDest st f in
      ((st', fs'), Ok (sp, ret))
  | (fs', Throw e) => ((with_options (line123 (options st)) st, fs'), Throw e)
  | (fs', Never) => ((with_options (line123 (options st)) st, fs'), Never)
  end.

(** Line 206: [if (counter >= options.limit) cancel = true]. *)
Definition limit_check (st : Sched) : Sched :=
  {| options := options st;
     cancel := if limit_reached st then true else cancel st;
     counter := counter st; results := results st; calls := calls st;
     spawned := spawned st |}.

(** A callback of [upscaleImages] on the disk: [images_start] when line 126
    goes through; otherwise the callback has thrown, after lines 206 and
    123. *)
Definition images_start_io (env : Env) (destFolder : string) : StartIO :=
  fun x f =>
  let '(st, fs) := x in
  let '(_, sp) := upscaleImage env f destFolder (options st) in
  match line126 fs (sp_folder sp) with
  | (fs', Ok _) =>
      let '(st', ret) := images_start env destFolder st f in
      ((st', fs'), Ok (sp, ret))
  | (fs', Throw e) =>
      ((with_options (line123 (options st)) (limit_check st), fs'), Throw e)
  | (fs', Never) =>
      ((with_options (line123 (options st)) (limit_check st), fs'), Never)
  end.

(** [queue[i].map(...)] on the disk: every callback is started, whether or
    not an earlier one has thrown; the outcomes are kept in order. *)
Fixpoint start_all_io (start : StartIO) (x : Sched * FS)
  (group : list string) : (Sched * FS) * list (Res (Spawn * string)) :=
  match group with
  | [] => (x, [])
  | f :: group' =>
      let '(x1, r) := start x f in
      let '(x2, rs) := start_all_io start x1 group' in
      (x2, r :: rs)
  end.

(** The callbacks that did not throw, or the first exception. *)
Fixpoint all_started {A} (rs : list (Res A)) : Res (list A) :=
  match rs with
  | [] => Ok []
  | Ok a :: rs' =>
      match all_started rs' with
      | Ok l => Ok (a :: l)
      | Throw e => Throw e
      | Never => Never
      end
  | Throw e :: _ => Throw e
  | Never :: _ => Never
  end.

(** A converter process that works leaves its output on the disk. *)
Definition converter_exit (ext : External) (fs : FS) (sp : Spawn) : FS :=
  if converts ext sp then (createWriteStream fs (sp_destPath sp)).1 else fs.

(** [await Promise.all(...)] on the disk.  When a callback has thrown the
    promise rejects, and the call ends there: what the other callbacks of
    the group do later is no longer part of it. *)
Definition run_group_io (env : Env) (ext : External) (start : StartIO)
  (progress : option Progress) (total : nat) (x : Sched * FS)
  (group : list string) : (Sched * FS) * Res unit :=
  let '((st1, fs1), rs) := start_all_io start x group in
  match all_started rs with
  | Ok started =>
      let fs2 := foldl (converter_exit ext) fs1 (map fst started) in
      let st2 := foldl (resume progress total) st1 (exitOrder env (map snd started)) in
      ((st2, fs2), Ok tt)
  | Throw e => ((st1, fs1), Throw e)
  | Never => ((st1, fs1), Never)
  end.

Fixpoint run_queue_io (env : Env) (ext : External) (start : StartIO)
  (progress : option Progress) (total : nat) (x : Sched * FS)
  (queue : list (list string)) : (Sched * FS) * Res unit :=
  match queue with
  | [] => (x, Ok tt)
  | group :: queue' =>
      match run_group_io env ext start progress total x group with
      | (x', Ok _) =>
          if cancel x'.1 then (x', Ok tt)
          else run_queue_io env ext start progress total x' queue'
      | (x', r) => (x', r)
      end
  end.

Definition set_sched (st : Sched) (fs : FS) (j : Job) : Job :=
  {| j_disk := {| disk := fs; console := console (j_disk j) |};
     j_options := options st;
     j_calls := j_calls j ++ calls st;
     j_spawned := j_spawned j ++ spawned st;
     j_gifs := j_gifs j;
     j_ffmpeg := j_ffmpeg j |}.

(** Lines 292-312 and 397-418 in a job. *)
Definition schedule_frames_io (env : Env) (ext : External) (upScaleDest : string)
  (frameArray : list string) (progress : option Progress) : M Scheduled :=
  fun j =>
    if scale_is_not_1 (j_options j) then
      match frames_init frameArray (j_options j) progress with
      | (options1, None) => (set_options options1 j, Never)
      | (_, Some (st, queue)) =>
          match run_queue_io env ext (frames_start_io env upScaleDest) progress
                  (length frameArray) (st, disk (j_disk j)) queue with
          | ((st', fs'), Ok _) => (set_sched st' fs' j, Ok (frames_done st'))
          | ((st', fs'), Throw e) => (set_sched st' fs' j, Throw e)
          | ((st', fs'), Never) => (set_sched st' fs' j, Never)
          end
      end
    else (j, Ok (frames_skipped frameArray (j_options j))).

(** ** [encodeGIF] *)

Definition is_file (fs : FS) (p : string) : bool :=
  match lookup fs p with Ok (_, File) => true | _ => false end.

Definition ten : Num.t := Num.ofZ 10.

(** [imageSize(files[0])] throws inside the executor of the promise, which
    rejects it; a frame that [getPixels] cannot read throws inside its
    callback, and the promise is never resolved.  Otherwise every frame is
    added with the delay [10 * delays[counter]], and the image is written. *)
Definition encodeGIF (files : list string) (delays : list Num.t) (dest : string)
  (quality : option Z) : M unit :=
  fun j =>
    let quality := if negb (truthyZ quality) then 10%Z else default 0%Z quality in
    let fs := disk (j_disk j) in
    match files with
    | [] => (j, Throw "TypeError")
    | first :: _ =>
        if negb (is_file fs first) then (j, Throw "ENOENT")
        else
          let j1 := set_fs (createWriteStream fs dest).1 j in
          if forallb (is_file fs) files then
            ({| j_disk := j_disk j1; j_options := j_options j1;
                j_calls := j_calls j1; j_spawned := j_spawned j1;
                j_gifs :=
                  j_gifs j1 ++
                  [{| gif_dest := dest; gif_quality := quality;
                      gif_frames :=
                        imap (fun i f => (f, Num.mul ten <$> delays !! i)) files |}];
                j_ffmpeg := j_ffmpeg j1 |},
             Ok tt)
          else (j1, Never)
    end.

(** ** [upscaleGIF] *)

(** [folder] and [image] as lines 264-268 and 368-372 compute them. *)
Definition job_folder (env : Env) (source dest : string) : string * string :=
  let '(folder, image) := parseFilename source dest "2x" in
  if negb (Path.isAbsolute source) && negb (Path.isAbsolute dest)
  then (Path.join (local env) folder, image)
  else (folder, image).

(** [frameDest] (lines 269 and 376) *)
Definition frameDest_of (folder source : string) : string :=
  folder +:+ "/" +:+ Path.basename_ext source (Path.extname source) +:+ "Frames".

(** The streams of [downloadFrames] (lines 279-285): each file is created;
    [Promise.all] rejects when a stream emits [error]. *)
Definition write_frames (paths : list string) : M unit :=
  fun j =>
    let '(fs', ok) :=
      foldl (fun acc p =>
               let '(fs1, ok1) := createWriteStream acc.1 p in (fs1, acc.2 && ok1))
            (disk (j_disk j), true) paths in
    (set_fs fs' j, if ok then Ok tt else Throw "stream error").

(** Lines 270-271 and 377-378. *)
Definition acquire (frameDest : string) : M unit :=
  let* there := exists_ frameDest in
  let* _ := (if there then release frameDest else ret tt) in
  on_fs (fun fs => mkdirSync fs frameDest).

(** Lines 289-290 and 393-394. *)
Definition make_upscaled (upScaleDest : string) : M unit :=
  let* there := exists_ upScaleDest in
  if there then ret tt else on_fs (fun fs => mkdirSync fs upScaleDest).

(** [upscaleGIF(source, dest, options, progress)]; the options object is
    [j_options] of the job. *)
Definition upscaleGIF (env : Env) (ext : External) (source dest : string)
  (progress : option Progress) : M string :=
  let dest := if negb (Str.nonempty dest) then "./" else dest in
  let* _ := write_options (fun o =>
    if negb (truthyB (Opt.cumulative o)) then Opt.set_cumulative (Some false) o else o) in
  let* o := the_options in
  let* frames := lift (gifFrames ext source (truthyB (Opt.cumulative o))) in
  let '(folder, image) := job_folder env source dest in
  let frameDest := frameDest_of folder source in
  let* _ := acquire frameDest in
  match select_frames o frameDest frames with
  | None => never
  | Some (frameArray, delayArray) =>
      let* _ := write_frames frameArray in
      let upScaleDest := frameDest +:+ "/upscaled" in
      let* _ := make_upscaled upScaleDest in
      let* _ := write_options (Opt.set_rename (Some EmptyString)) in
      let* sc := schedule_frames_io env ext upScaleDest frameArray progress in
      let* o := the_options in
      let '(scaledFrames, delayArray) :=
        reverse_step o (sc_scaledFrames sc) delayArray in
      let* _ := encodeGIF scaledFrames delayArray (folder +:+ "/" +:+ image) (Opt.quality o) in
      let* _ := release frameDest in
      ret (folder +:+ "/" +:+ image)
  end.

(** ** [upscaleVideo] *)

(** The frames the first run of ffmpeg writes: [frame1.png], [frame2.png],
    ... *)
Definition extracted (frameDest : string) (n : nat) : list string :=
  map (fun k => frameDest +:+ "/frame" +:+ Str.ofNat k +:+ ".png") (seq 1 n).

Definition extract_frames (ext : External) (source frameDest : string)
  (framerate : list string) : M unit :=
  let* ended :=
    run_ffmpeg ext {| ff_inputs := [source]; ff_outputOptions := framerate;
                      ff_save := frameDest +:+ "/frame%d.png" |} in
  if ended then
    on_fs (fun fs =>
      (foldl (fun fs p => (createWriteStream fs p).1) fs
             (extracted frameDest (video_frames ext source)), Ok tt))
  else never.

(** Lines 387-392: the audio track, or the empty string when the run fails. *)
Definition extract_audio (ext : External) (source frameDest : string) : M string :=
  let audio := frameDest +:+ "/audio.mp3" in
  let* ended :=
    run_ffmpeg ext {| ff_inputs := [source]; ff_outputOptions := [];
                      ff_save := audio |} in
  if ended then
    let* _ := on_fs (fun fs => ((createWriteStream fs audio).1, Ok tt)) in
    ret audio
  else ret EmptyString.

(** Line 396 *)
Definition list_frames (ext : External) (frameDest : string) : M (list string) :=
  let* names := on_fs (fun fs => (fs, readdirSync fs frameDest)) in
  ret (collate ext
         (filter (fun f => Path.extname f = ".png")
                 (map (fun f => frameDest +:+ "/" +:+ f) names))).

Definition upscaleVideo (env : Env) (ext : External) (source dest : string)
  (progress : option Progress) : M string :=
  let dest := if negb (Str.nonempty dest) then "./" else dest in
  let '(folder, image) := job_folder env source dest in
  let source :=
    if negb (Path.isAbsolute source) && negb (Path.isAbsolute dest)
    then Path.join (local env) source else source in
  let* duration := lift (parseDuration ext source) in
  let* o := the_options in
  let* _ :=
    (if negb (truthyN (Opt.framerate o)) then
       let* r := lift (parseFramerate ext source) in
       write_options (Opt.set_framerate (Some r))
     else ret tt) in
  let frameDest := frameDest_of folder source in
  let* _ := acquire frameDest in
  let* o := the_options in
  let framerate := ["-r"; showNum env (default S754_nan (Opt.framerate o))] in
  let crf :=
    if truthyZ (Opt.quality o)
    then ["-crf"; Str.ofZ (default 0%Z (Opt.quality o))]
    else ["-crf"; "16"] in
  let codec := ["-vcodec"; "libx264"; "-pix_fmt"; "yuv420p"; "-movflags"; "+faststart"] in
  let* _ := extract_frames ext source frameDest framerate in
  let* audio := extract_audio ext source frameDest in
  let upScaleDest := frameDest +:+ "/upscaled" in
  let* _ := make_upscaled upScaleDest in
  let* _ := write_options (Opt.set_rename (Some EmptyString)) in
  let* frameArray := list_frames ext frameDest in
  let* sc := schedule_frames_io env ext upScaleDest frameArray progress in
  let upScaleDest := if sc_ran sc then upScaleDest else frameDest in
  let tempDest := upScaleDest +:+ "/temp.mp4" in
  let finalDest := folder +:+ "/" +:+ image in
  let crop := "crop=trunc(iw/2)*2:trunc(ih/2)*2" in
  let* _ := write_options (fun o =>
    if negb (truthyN (Opt.speed o)) then Opt.set_speed (Some Num.one) o else o) in
  let* _ := write_options (fun o =>
    if negb (truthyB (Opt.reverse o)) then Opt.set_reverse (Some false) o else o) in
  let* o := the_options in
  let speed := speed_of o in
  let reverse := truthyB (Opt.reverse o) in
  let* _ :=
    (if Str.nonempty audio then
       let* _ :=
         await_ffmpeg ext
           {| ff_inputs := [upScaleDest +:+ "/frame%d.png"; audio];
              ff_outputOptions := framerate ++ codec ++ crf ++ ["-vf"; crop];
              ff_save := upScaleDest +:+ "/" +:+ image |} in
       await_ffmpeg ext
         {| ff_inputs := [upScaleDest +:+ "/" +:+ image];
            ff_outputOptions :=
              framerate ++ codec ++ crf ++
              ["-filter_complex";
               "[0:v]setpts=" +:+ showNum env (Num.div Num.one speed) +:+ "*PTS" +:+
               (if reverse then ",reverse" else EmptyString) +:+
               "[v];[0:a]atempo=" +:+ showNum env speed +:+
               (if reverse then ",areverse" else EmptyString) +:+ "[a]";
               "-map"; "[v]"; "-map"; "[a]"];
            ff_save := tempDest |}
     else
       await_ffmpeg ext
         {| ff_inputs := [upScaleDest +:+ "/frame%d.png"];
            ff_outputOptions :=
              framerate ++ codec ++ crf ++
              ["-filter_complex";
               "[0:v]" +:+ crop +:+ ",setpts=" +:+ showNum env (Num.div Num.one speed) +:+
               "*PTS" +:+ (if reverse then ",reverse" else EmptyString) +:+ "[v]";
               "-map"; "[v]"];
            ff_save := tempDest |}) in
  let* newDuration := lift (parseDuration ext tempDest) in
  let factor := Num.div (Num.div duration speed) newDuration in
  let filter :=
    if Str.nonempty audio
    then ["-filter_complex";
          "[0:v]setpts=" +:+ showNum env factor +:+ "*PTS[v];[0:a]atempo=1[a]";
          "-map"; "[v]"; "-map"; "[a]"]
    else ["-filter_complex";
          "[0:v]setpts=" +:+ showNum env factor +:+ "*PTS[v]"; "-map"; "[v]"] in
  let* _ :=
    await_ffmpeg ext
      {| ff_inputs := [tempDest];
         ff_outputOptions := framerate ++ codec ++ crf ++ filter;
         ff_save := finalDest |} in
  let* _ := release frameDest in
  ret finalDest.

(** ** Values for the examples *)

Module Demo.

(** Conversion of a number that is an integer; the examples use no other. *)
Definition show_integer (q : Num.t) : string := Str.ofZ (Num.toZ q).

(** The children exit in the order they were started. *)
Definition env : Env :=
  {| dirname := "/opt/waifu2x/dist"; showNum := show_integer; exitOrder := fun g => g |}.

(** The children exit last started first. *)
Definition env_rev : Env :=
  {| dirname := "/opt/waifu2x/dist"; showNum := show_integer; exitOrder := @rev string |}.

Definition never_stop : Progress := fun _ => false.

(** Asks to stop at its fourth call, [progress(3, total)]. *)
Definition stop_at_fourth : Progress := fun h => (length h =? 4)%nat.

Definition images (n : nat) : list string :=
  map (fun i => "/in/img" +:+ Str.ofNat i +:+ ".png") (seq 0 n).

Definition gif (n : nat) : list GifFrame :=
  map (fun i => {| frameInfo_delay := Num.ofNat (10 + i);
                   getImage := "picture" |}) (seq 0 n).

(** A disk with the folders [/in] and [/out]; the working directory is
    [/home]. *)
Definition fs : FS :=
  {| cwd := ["home"];
     nodes := list_to_map
                [(["home"], Dir); (["in"], Dir); (["in"; "a.gif"], File);
                 (["out"], Dir)] |}.

Definition job (o : Opt.t) : Job :=
  {| j_disk := {| disk := fs; console := [] |}; j_options := o;
     j_calls := []; j_spawned := []; j_gifs := []; j_ffmpeg := [] |}.

(** Everything outside works: a GIF of four frames, converters that write
    their output, runs of ffmpeg that end. *)
Definition works : External :=
  {| gifFrames := fun _ _ => Ok (gif 4);
     converts := fun _ => true;
     ffmpeg_ends := fun _ => true;
     video_frames := fun _ => 3%nat;
     parseDuration := fun _ => Ok (Num.ofZ 2);
     parseFramerate := fun _ => Ok (Num.ofZ 30);
     collate := fun l => l |}.

(** The converter fails on every frame: no upscaled file is written. *)
Definition converter_fails : External :=
  {| gifFrames := fun _ _ => Ok (gif 4);
     converts := fun _ => false;
     ffmpeg_ends := fun _ => true;
     video_frames := fun _ => 3%nat;
     parseDuration := fun _ => Ok (Num.ofZ 2);
     parseFramerate := fun _ => Ok (Num.ofZ 30);
     collate := fun l => l |}.

(** ffmpeg prints no duration for the intermediate file. *)
Definition no_duration : External :=
  {| gifFrames := fun _ _ => Ok (gif 4);
     converts := fun _ => true;
     ffmpeg_ends := fun _ => true;
     video_frames := fun _ => 3%nat;
     parseDuration := fun f =>
       if Str.endsWith f "temp.mp4" then Throw "TypeError" else Ok (Num.ofZ 2);
     parseFramerate := fun _ => Ok (Num.ofZ 30);
     collate := fun l => l |}.

End Demo.

(** ** Vocabulary of the statements about jobs *)

(** What a job shows of the options object and of its calls. *)
Definition view (j : Job) : Opt.t * list (nat * nat) * list Spawn :=
  (j_options j, j_calls j, j_spawned j).

(** The action leaves the options object and the calls as they are. *)
Definition quiet {A} (m : M A) : Prop :=
  forall j, view (m j).1 = view j.

(** The action leaves [obs] as it is, from every job where [obs] is [good]. *)
Definition preserves {T A} (obs : Opt.t * list (nat * nat) * list Spawn -> T)
  (good : T -> Prop) (m : M A) : Prop :=
  forall j, good (obs (view j)) -> obs (view (m j).1) = obs (view j).

Definition obs_settings (v : Opt.t * list (nat * nat) * list Spawn) :=
  settings v.1.1.

(** The scale, the settings, the calls of [progress] and the converters
    started. *)
Definition obs_work (v : Opt.t * list (nat * nat) * list Spawn) :=
  (Opt.scale v.1.1, settings v.1.1, v.1.2, v.2).

Definition always {T} (t : T) : Prop := True.

(** [options.scale === 1] *)
Definition scale_1 {X Y Z} (t : option Num.t * X * Y * Z) : Prop :=
  match t.1.1.1 with
  | Some q => Num.eqb q Num.one = true
  | None => False
  end.

(** The workspace of a job: [frameDest] of [upscaleGIF] (line 269) and of
    [upscaleVideo] (line 376). *)
Definition gif_workspace (env : Env) (source dest : string) : string :=
  let dest := if negb (Str.nonempty dest) then "./" else dest in
  frameDest_of (job_folder env source dest).1 source.

Definition video_workspace (env : Env) (source dest : string) : string :=
  let dest := if negb (Str.nonempty dest) then "./" else dest in
  let source' :=
    if negb (Path.isAbsolute source) && negb (Path.isAbsolute dest)
    then Path.join (local env) source else source in
  frameDest_of (job_folder env source dest).1 source'.

(** ** Well-formed disks *)

Fixpoint slash_free (s : string) : bool :=
  match s with
  | EmptyString => true
  | String c s' => negb (Ascii.eqb c Path.slash) && slash_free s'
  end.

(** A path component, and the name of an entry: a component other than [.]
    and [..]. *)
Definition plain (s : string) : bool := Str.nonempty s && slash_free s.

Definition is_name (s : string) : bool :=
  plain s && negb (String.eqb s ".") && negb (String.eqb s "..").

(** One round of [normalizeString]. *)
Definition ns_step (allowAboveRoot : bool) (acc : list string) (s : string)
  : list string :=
  if String.eqb s "." then acc
  else if String.eqb s ".." then
    match acc with
    | [] => if allowAboveRoot then [".."] else []
    | a :: acc' => if String.eqb a ".." then ".." :: acc else acc'
    end
  else s :: acc.

(** Every entry has a name at each level and lies in a directory. *)
Definition wf (fs : FS) : Prop :=
  Forall (fun s => is_name s = true) (cwd fs) /\
  forall k, is_Some (nodes fs !! k) ->
    k <> [] /\ Forall (fun s => is_name s = true) k /\
    node_at fs (removelast k) = Some Dir.

(** A path string that ends in the name [e]: it is not empty and has no
    slash at its end. *)
Definition ends_in (p e : string) : Prop :=
  Str.nonempty p = true /\ Str.endsWith p "/" = false /\ last_segment p = e.

(** A path string without [.] and [..]: every component is a name.  On
    such a path the entry that [path.resolve] gives is the entry that the
    file system finds. *)
Definition names_only (p : string) : Prop :=
  Forall (fun s => is_name s = true) (Path.segments p).

#[global] Instance names_only_dec p : Decision (names_only p).
Proof. unfold names_only. apply _. Defined.

(** [dir === "/" || dir === "./"] *)
Definition guarded (dir : string) : bool :=
  String.eqb dir "/" || String.eqb dir "./".

(** The body of the loop of [removeDirectory]. *)
Definition rd_body (fuel : nat) (dir : string) (d : Disk) (entry : string)
  : Disk * Res unit :=
  let entryPath := Path.join dir entry in
  match lstatSync_isDirectory (disk d) entryPath with
  | Ok true => removeDirectory fuel d entryPath
  | Ok false =>
      let '(fs', r) := unlinkSync (disk d) entryPath in
      ({| disk := fs'; console := console d |}, r)
  | Throw e => (d, Throw e)
  | Never => (d, Never)
  end.


(** What a call of [removeDirectory] that returns has done: nothing when
    the path is held back or names nothing; otherwise everything below the
    directory is gone, and the directory itself when its path ends in a
    name ([rmdirSync] refuses the others, and the root). *)
Definition removed (d : Disk) (dir : string) (d' : Disk) : Prop :=
  wf (disk d') /\ cwd (disk d') = cwd (disk d) /\
  (guarded dir = true -> d' = d) /\
  (existsSync (disk d) dir = false -> d' = d) /\
  (guarded dir = false -> existsSync (disk d) dir = true ->
   forall k, nodes (disk d') !! k =
             if decide (resolve (disk d) dir `prefix_of` k /\
                        (k = resolve (disk d) dir ->
                         is_name (last_segment dir) = true))
             then None
             else nodes (disk d) !! k).

(** An action that returns leaves a well-formed disk well-formed. *)
Definition keeps_wf {A} (m : M A) : Prop :=
  forall j j' a, wf (disk (j_disk j)) -> m j = (j', Ok a) -> wf (disk (j_disk j')).

(** [wf] as a check that can be run. *)
Definition wf_check (fs : FS) : bool :=
  forallb is_name (cwd fs) &&
  forallb (fun kv : list string * Kind =>
             match kv.1 with [] => false | _ :: _ => true end &&
             forallb is_name kv.1 &&
             match node_at fs (removelast kv.1) with
             | Some Dir => true
             | _ => false
             end)
          (map_to_list (nodes fs)).

(** ** Vocabulary of the further properties *)

(** [options.parallelFrames] after lines 201, 298 and 403. *)
Definition parallel (o : Opt.t) : Z :=
  if truthyZ (Opt.parallelFrames o) then default 0%Z (Opt.parallelFrames o) else 1%Z.

(** The variables of [upscaleImages] when its loop starts (lines 195-203). *)
Definition images_init (files : list string) (o : Opt.t)
  (progress : option Progress) : Sched :=
  let o1 :=
    if negb (truthyZ (Opt.limit o))
    then Opt.set_limit (Some (Z.of_nat (length files))) o else o in
  let o2 :=
    if negb (truthyZ (Opt.parallelFrames o1))
    then Opt.set_parallelFrames (Some 1%Z) o1 else o1 in
  {| options := o2; cancel := false; counter := 1; results := [];
     calls := match progress with Some _ => [(0%nat, length files)] | None => [] end;
     spawned := [] |}.

(** The variables of the scheduling block of [upscaleGIF] and [upscaleVideo]
    when its loop starts (lines 294-300 and 399-405). *)
Definition block_init (frameArray : list string) (o : Opt.t)
  (progress : option Progress) : Sched :=
  {| options :=
       if negb (truthyZ (Opt.parallelFrames o))
       then Opt.set_parallelFrames (Some 1%Z) o else o;
     cancel := false;
     counter := match progress with Some _ => 1 | None => 0 end;
     results := [];
     calls := match progress with
              | Some _ => [(0%nat, length frameArray)]
              | None => []
              end;
     spawned := [] |}.

(** An action that returns keeps the property [I] of the disk. *)
Definition keeps {A} (I : FS -> Prop) (m : M A) : Prop :=
  forall j j' a, I (disk (j_disk j)) -> m j = (j', Ok a) -> I (disk (j_disk j')).

(** Every entry of [fs0] outside the subtree [W] is in [fs], as it was. *)
Definition kept_outside (W : list string) (fs0 fs : FS) : Prop :=
  forall k v, nodes fs0 !! k = Some v -> ~ W `prefix_of` k -> nodes fs !! k = Some v.

(** ** More values for the examples *)

Module Demo2.

(** The disk of [Demo], with a file where the workspace of [/in/a.gif]
    goes when the destination is [/in]. *)
Definition blocked : FS :=
  {| cwd := ["home"];
     nodes := list_to_map
                [(["home"], Dir); (["in"], Dir); (["in"; "a.gif"], File);
                 (["in"; "aFrames"], File); (["out"], Dir)] |}.

(** The same disk after a job that did not release its workspace. *)
Definition leftover : FS :=
  {| cwd := ["home"];
     nodes := list_to_map
                [(["home"], Dir); (["in"], Dir); (["in"; "a.gif"], File);
                 (["in"; "aFrames"], Dir); (["in"; "aFrames"; "frame0.jpg"], File);
                 (["in"; "aFrames"; "upscaled"], Dir);
                 (["in"; "aFrames"; "upscaled"; "frame0.jpg"], File);
                 (["out"], Dir)] |}.

Definition job (fs : FS) (o : Opt.t) : Job :=
  {| j_disk := {| disk := fs; console := [] |}; j_options := o;
     j_calls := []; j_spawned := []; j_gifs := []; j_ffmpeg := [] |}.

End Demo2.

(** The action leaves the list of encoded images as it is. *)
Definition same_gifs {A} (m : M A) : Prop :=
  forall j, j_gifs (m j).1 = j_gifs j.

(** Where the frame [f] of [frameArray] is read from when the image is put
    together: its upscaled copy, or the frame itself when [options.scale]
    is 1 (lines 293-312). *)
Definition encoded_frame (o : Opt.t) (upScaleDest f : string) : string :=
  if scale_is_not_1 o then scaled_path upScaleDest f else f.

(** ** [parseDest] (lines 104-114) *)

(** The function writes the default of [rename] into the object it is
    given: the new object is returned with the path. *)
Definition parseDest (env : Env) (source dest : string) (options : Opt.t)
  : Opt.t * string :=
  let dest := if negb (Str.nonempty dest) then "./" else dest in
  let options :=
    match Opt.rename options with
    | None => Opt.set_rename (Some "2x") options
    | Some _ => options
    end in
  let '(folder, image) :=
    parseFilename source dest (default EmptyString (Opt.rename options)) in
  let folder :=
    if negb (Path.isAbsolute source) && negb (Path.isAbsolute dest)
    then Path.join (local env) folder else folder in
  (options, Path.normalize (folder +:+ "/" +:+ image)).

(** ** [upscaleGIFs] and [upscaleVideos] (lines 322-342 and 458-478) *)

(** [totalProgress]: it sees its calls so far, the current one last; the
    second number is [options.limit]. *)
Definition TotalProgress := list (nat * Z) -> bool.

(** [retArray] and the calls of [totalProgress]. *)
Record Batch := {
  b_ret : list string;
  b_calls : list (nat * Z)
}.

(** [i < options.limit]; false when the limit is [undefined]. *)
Definition below_limit (i : nat) (o : Opt.t) : bool :=
  match Opt.limit o with
  | Some l => (Z.of_nat i <? l)%Z
  | None => false
  end.

(** The loop of lines 330-340 and 466-476 from index [i] on; [rest] is
    [fileMap] from [i] on.  An exception of a job is caught and the loop
    goes on; a job that never settles holds the loop. *)
Fixpoint batch_loop (job : nat -> string -> M string)
  (totalProgress : option TotalProgress) (i : nat) (rest : list string)
  (acc : Batch) : M Batch :=
  fun j =>
    if negb (below_limit i (j_options j)) then (j, Ok acc)
    else
      match rest with
      | [] => (j, Ok acc)
      | f :: rest' =>
          if negb (Str.nonempty f) then (j, Ok acc)
          else
            match job i f j with
            | (j1, Ok ret) =>
                let calls :=
                  match totalProgress with
                  | Some _ =>
                      b_calls acc ++
                      [(S i, default 0%Z (Opt.limit (j_options j1)))]
                  | None => b_calls acc
                  end in
                let stop :=
                  match totalProgress with
                  | Some cb => cb calls
                  | None => false
                  end in
                let acc' := {| b_ret := b_ret acc ++ [ret]; b_calls := calls |} in
                if stop then (j1, Ok acc')
                else batch_loop job totalProgress (S i) rest' acc' j1
            | (j1, Throw _) => batch_loop job totalProgress (S i) rest' acc j1
            | (j1, Never) => (j1, Never)
            end
      end.

(** [fileMap] of lines 324-326 and 460-462: every entry of the folder. *)
Definition batch_files (sourceFolder : string) (files : list string) : list string :=
  let sourceFolder :=
    if Str.endsWith sourceFolder "/" then Str.slice_0_m1 sourceFolder
    else sourceFolder in
  map (fun file => sourceFolder +:+ "/" +:+ file) files.

(** Lines 323-329 and 459-465, then the loop. *)
Definition batch (job : nat -> string -> M string) (sourceFolder : string)
  (totalProgress : option TotalProgress) : M Batch :=
  let* files := on_fs (fun fs => (fs, readdirSync fs sourceFolder)) in
  let fileMap := batch_files sourceFolder files in
  let* _ := write_options (fun o =>
    if negb (truthyZ (Opt.limit o))
    then Opt.set_limit (Some (Z.of_nat (length fileMap))) o else o) in
  let* o := the_options in
  let calls :=
    match totalProgress with
    | Some _ => [(0%nat, default 0%Z (Opt.limit o))]
    | None => []
    end in
  batch_loop job totalProgress 0 fileMap {| b_ret := []; b_calls := calls |}.

(** The callback [progress] of the jobs of a batch: the callback is one
    function, and what it answers in the [i]-th job may depend on what it
    has seen in the jobs before. *)
Definition progress_at (progress : option (nat -> Progress)) (i : nat)
  : option Progress :=
  (fun p => p i) <$> progress.

Definition upscaleGIFs (env : Env) (ext : External) (sourceFolder destFolder : string)
  (totalProgress : option TotalProgress) (progress : option (nat -> Progress))
  : M Batch :=
  batch (fun i f => upscaleGIF env ext f destFolder (progress_at progress i))
        sourceFolder totalProgress.

Definition upscaleVideos (env : Env) (ext : External) (sourceFolder destFolder : string)
  (totalProgress : option TotalProgress) (progress : option (nat -> Progress))
  : M Batch :=
  batch (fun i f => upscaleVideo env ext f destFolder (progress_at progress i))
        sourceFolder totalProgress.

(** What [upscaleGIF] and [upscaleVideo] return: [`${folder}/${image}`]
    (lines 319 and 455). *)
Definition job_output (env : Env) (source dest : string) : string :=
  let dest := if negb (Str.nonempty dest) then "./" else dest in
  let '(folder, image) := job_folder env source dest in
  folder +:+ "/" +:+ image.

(** What [f] reads in the options object of a job. *)
Definition obs_field {T} (f : Opt.t -> T)
  (v : Opt.t * list (nat * nat) * list Spawn) : T := f v.1.1.

(** [options.limit] after lines 327 and 463. *)
Definition batch_limit (o : Opt.t) (fileMap : list string) : Z :=
  if truthyZ (Opt.limit o) then default 0%Z (Opt.limit o)
  else Z.of_nat (length fileMap).

(** The numbers of the list grow from each to the next. *)
Fixpoint increasing (l : list nat) : Prop :=
  match l with
  | [] => True
  | k :: l' => Forall (lt k) l' /\ increasing l'
  end.

(** What a batch that returns hands back: [done] holds the positions in
    [fileMap] of the jobs that returned, in increasing order, all below the
    limit; [retArray] has their outputs, and [totalProgress] was called
    with [(0, limit)] and then with [(k + 1, limit)] for each of them. *)
Definition batch_outcome (output : string -> string) (fileMap : list string)
  (L : Z) (totalProgress : option TotalProgress) (b : Batch) (done : list nat)
  : Prop :=
  increasing done /\
  Forall (fun k => (k < length fileMap)%nat /\ (Z.of_nat k < L)%Z) done /\
  b_ret b = map (fun k => output (default EmptyString (fileMap !! k))) done /\
  b_calls b = match totalProgress with
              | Some _ => (0%nat, L) :: map (fun k => (S k, L)) done
              | None => []
              end.

(** The jobs of a batch from position [i] on, each started in the state
    the one before left: the state it leaves, and how it ends. *)
Fixpoint job_runs (job : nat -> string -> M string) (i : nat)
  (files : list string) (j : Job) : list (Job * Res string) :=
  match files with
  | [] => []
  | f :: files' =>
      let r := job i f j in
      r :: job_runs job (S i) files' r.1
  end.

(** The positions of the runs that returned, the first run at [i]. *)
Fixpoint returned (i : nat) (runs : list (Job * Res string)) : list nat :=
  match runs with
  | [] => []
  | (_, Ok _) :: runs' => i :: returned (S i) runs'
  | _ :: runs' => returned (S i) runs'
  end.

(** The state after the runs. *)
Definition last_state (j : Job) (runs : list (Job * Res string)) : Job :=
  foldl (fun _ r => r.1) j runs.

(** The state in which the first job of a batch starts: [options.limit] is
    set (lines 327 and 463). *)
Definition batch_start (fileMap : list string) (j : Job) : Job :=
  set_options
    (if negb (truthyZ (Opt.limit (j_options j)))
     then Opt.set_limit (Some (Z.of_nat (length fileMap))) (j_options j)
     else j_options j) j.

(** Why the loop of a batch ended after [n] jobs: the folder has no more
    entries, the limit is reached, the next entry of [fileMap] is falsy, or
    [totalProgress] answered [true] after the last job, which returned. *)
Definition batch_ended (fileMap : list string) (L : Z)
  (totalProgress : option TotalProgress) (b : Batch) (n : nat)
  (runs : list (Job * Res string)) : Prop :=
  n = length fileMap \/ (L <= Z.of_nat n)%Z \/
  fileMap !! n = Some EmptyString \/
  exists cb jl out,
    totalProgress = Some cb /\ last runs = Some (jl, Ok out) /\
    cb (b_calls b) = true.

(** ** Values for the examples of the batches *)

Module Demo3.

(** A folder with two images and a text file. *)
Definition mixed : FS :=
  {| cwd := ["home"];
     nodes := list_to_map
                [(["home"], Dir); (["in"], Dir); (["in"; "a.gif"], File);
                 (["in"; "b.txt"], File); (["in"; "c.gif"], File);
                 (["out"], Dir)] |}.

(** [gif-frames] rejects what is not an image; everything else works. *)
Definition picky : External :=
  {| gifFrames := fun source _ =>
       if Str.endsWith source ".gif" then Ok (Demo.gif 2) else Throw "not a GIF";
     converts := fun _ => true;
     ffmpeg_ends := fun _ => true;
     video_frames := fun _ => 3%nat;
     parseDuration := fun _ => Ok (Num.ofZ 2);
     parseFramerate := fun _ => Ok (Num.ofZ 30);
     collate := fun l => l |}.

Definition go_on : TotalProgress := fun _ => false.

End Demo3.

(** ** The listing of [upscaleImages] (lines 185-194) and [recursiveSearch]
    (lines 172-181) *)

(** [fs.lstatSync(p).isFile()] *)
Definition lstatSync_isFile (fs : FS) (p : string) : Res bool :=
  match lookup fs p with
  | Ok (_, File) => Ok true
  | Ok (_, Dir) => Ok false
  | Throw e => Throw e
  | Never => Never
  end.

(** [arr.filter(pred)] for a callback that can throw. *)
Fixpoint filter_res (pred : string -> Res bool) (l : list string)
  : Res (list string) :=
  match l with
  | [] => Ok []
  | x :: l' =>
      match pred x with
      | Ok b =>
          match filter_res pred l' with
          | Ok r => Ok (if b then x :: r else r)
          | Throw e => Throw e
          | Never => Never
          end
      | Throw e => Throw e
      | Never => Never
      end
  end.

(** [fileMap] and [dirMap] of a folder, from the names [files] in it. *)
Definition level (fs : FS) (dir : string) (files : list string)
  : Res (list string * list string) :=
  let paths := map (fun file => dir +:+ "/" +:+ file) files in
  match filter_res (lstatSync_isFile fs) paths with
  | Ok fileMap =>
      match filter_res (lstatSync_isDirectory fs) paths with
      | Ok dirMap => Ok (fileMap, dirMap)
      | Throw e => Throw e
      | Never => Never
      end
  | Throw e => Throw e
  | Never => Never
  end.

(** [for (...) fileMap = [...fileMap, ...search(dirMap[i])]] *)
Fixpoint gather (search : string -> Res (list string)) (fileMap dirMap : list string)
  : Res (list string) :=
  match dirMap with
  | [] => Ok fileMap
  | d :: dirMap' =>
      match search d with
      | Ok found => gather search (fileMap ++ found) dirMap'
      | Throw e => Throw e
      | Never => Never
      end
  end.

(** [recursiveSearch(dir)]; [fuel] bounds the depth of the recursion, and
    [Never] is the answer when the bound is too small. *)
Fixpoint recursiveSearch (fuel : nat) (fs : FS) (dir : string) : Res (list string) :=
  match fuel with
  | O => Never
  | S fuel' =>
      match readdirSync fs dir with
      | Ok files =>
          match level fs dir files with
          | Ok (fileMap, dirMap) => gather (recursiveSearch fuel' fs) fileMap dirMap
          | Throw e => Throw e
          | Never => Never
          end
      | Throw e => Throw e
      | Never => Never
      end
  end.

(** [fileMap] of [upscaleImages] when its loop starts (lines 185-194). *)
Definition listing (fs : FS) (sourceFolder : string) (recursive : option bool)
  : Res (list string) :=
  match readdirSync fs sourceFolder with
  | Ok files =>
      let sourceFolder :=
        if Str.endsWith sourceFolder "/" then Str.slice_0_m1 sourceFolder
        else sourceFolder in
      match level fs sourceFolder files with
      | Ok (fileMap, dirMap) =>
          if truthyB recursive
          then gather (recursiveSearch (depth fs) fs) fileMap dirMap
          else Ok fileMap
      | Throw e => Throw e
      | Never => Never
      end
  | Throw e => Throw e
  | Never => Never
  end.

(** [upscaleImages] from line 195 in a job, on the disk: [fileMap] is the
    listing of lines 185-194.  [Never]: the queue loop does not end. *)
Definition upscaleImages_io (env : Env) (ext : External) (fileMap : list string)
  (destFolder : string) (progress : option Progress) : M Sched :=
  fun j =>
    let st0 := images_init fileMap (j_options j) progress in
    match build_queue (default 0%Z (Opt.parallelFrames (options st0))) fileMap with
    | None => (set_options (options st0) j, Never)
    | Some queue =>
        match run_queue_io env ext (images_start_io env destFolder) progress
                (length fileMap) (st0, disk (j_disk j)) queue with
        | ((st', fs'), Ok _) => (set_sched st' fs' j, Ok st')
        | ((st', fs'), Throw e) => (set_sched st' fs' j, Throw e)
        | ((st', fs'), Never) => (set_sched st' fs' j, Never)
        end
    end.


(** [folder] of line 125: it depends on [dest] alone. *)
Definition image_folder (destFolder : string) : string :=
  (parseFilename EmptyString
     (if negb (Str.nonempty destFolder) then "./" else destFolder)
     EmptyString).1.


(** The files of [fs] in the folder [P]: directly in it, or anywhere below
    it. *)
Definition file_in (fs : FS) (P : list string) (deep : bool) (k : list string) : Prop :=
  nodes fs !! k = Some File /\ k <> P /\
  if deep then P `prefix_of` k else removelast k = P.

#[global] Instance Kind_eq_dec : EqDecision Kind.
Proof. solve_decision. Defined.

(** The paths of [l] name the files in [P], each once. *)
Definition found (fs : FS) (P : list string) (deep : bool) (l : list string) : Prop :=
  NoDup (map (resolve fs) l) /\
  forall k, k ∈ map (resolve fs) l <-> file_in fs P deep k.

(** [sourceFolder] after line 186. *)
Definition stripped (sourceFolder : string) : string :=
  if Str.endsWith sourceFolder "/" then Str.slice_0_m1 sourceFolder
  else sourceFolder.

Module Demo4.


End Demo4.
Lemma queue_loop_chunks {A} (p fuel : nat) (l : list A) :
  (1 <= p)%nat -> (length l <= fuel)%nat ->
  exists q, queue_loop fuel (Z.of_nat p) l = Some q /\
    concat q = l /\
    forall i g, q !! i = Some g -> g = take p (drop (i * p) l) /\ (1 <= length g)%nat.
Proof.
  intros Hp. revert l. induction fuel as [|fuel IH]; intros l Hl.
  - destruct l; [|simpl in Hl; lia]. exists []. split; [done|]. split; [done|].
    intros i g Hi. by destruct i.
  - destruct l as [|x l].
    { exists []. split; [done|]. split; [done|]. intros i g Hi. by destruct i. }
    cbn [queue_loop splice0]. rewrite Nat2Z.id.
    destruct (IH (drop p (x :: l))) as (q & Hq & Hc & Hg).
    { rewrite length_drop. simpl in *. lia. }
    rewrite Hq. exists (take p (x :: l) :: q). split; [done|]. split.
    { cbn [concat]. rewrite Hc. apply take_drop. }
    intros [|i] g Hi; simpl in Hi.
    + inversion Hi; subst. split; [done|].
      rewrite length_take. simpl. lia.
    + destruct (Hg i g Hi) as [-> Hlen]. split; [|done].
      rewrite drop_drop. replace (p + i * p)%nat with (S i * p)%nat by lia. done.
Qed.

Lemma queue_loop_stuck {A} (n : Z) (fuel : nat) (l : list A) :
  (n < 1)%Z -> l <> [] -> queue_loop fuel n l = None.
Proof.
  intros Hn. induction fuel as [|fuel IH]; intros Hl.
  - by destruct l.
  - destruct l as [|x l]; [done|]. cbn [queue_loop splice0].
    replace (Z.to_nat n) with 0%nat by lia. rewrite drop_0, IH; done.
Qed.

Lemma queue_loop_more {A} (n : Z) (fuel fuel' : nat) (l : list A) q :
  queue_loop fuel n l = Some q -> (fuel <= fuel')%nat ->
  queue_loop fuel' n l = Some q.
Proof.
  revert fuel' l q. induction fuel as [|fuel IH]; intros fuel' l q H Hle.
  - destruct l; [|done]. by destruct fuel'.
  - destruct l as [|x l]; [by destruct fuel'|].
    destruct fuel' as [|fuel']; [lia|].
    cbn [queue_loop splice0] in *.
    destruct (queue_loop fuel n (drop (Z.to_nat n) (x :: l))) as [q0|] eqn:E; [|done].
    rewrite (IH fuel' _ q0 E); [done|lia].
Qed.

(** More fuel than the length changes nothing. *)
Lemma queue_loop_fuel {A} (n : Z) (fuel : nat) (l : list A) :
  (1 <= n)%Z -> (length l <= fuel)%nat ->
  queue_loop fuel n l = build_queue n l.
Proof.
  intros Hn Hl. unfold build_queue.
  destruct (queue_loop_chunks (Z.to_nat n) (length l) l) as (q' & Hq' & _); [lia|done|].
  rewrite Z2Nat.id in Hq' by lia. rewrite Hq'. by apply (queue_loop_more n (length l)).
Qed.

Lemma build_queue_partition {A} (P : Z) (l : list A) :
  (1 <= P)%Z ->
  exists q, build_queue P l = Some q /\
    concat q = l /\
    (forall i g, q !! i = Some g ->
       g = take (Z.to_nat P) (drop (i * Z.to_nat P) l) /\
       (1 <= length g <= Z.to_nat P)%nat) /\
    (forall i g, q !! i = Some g -> (S i < length q)%nat ->
       length g = Z.to_nat P).
Proof.
  intros HP. set (p := Z.to_nat P).
  destruct (queue_loop_chunks p (length l) l) as (q & Hq & Hc & Hg); [lia|done|].
  exists q. unfold build_queue. replace P with (Z.of_nat p) by lia.
  split; [done|]. split; [done|]. split.
  - intros i g Hi. destruct (Hg i g Hi) as [-> Hlen]. split; [done|].
    split; [done|]. rewrite length_take. lia.
  - intros i g Hi Hlt.
    destruct (lookup_lt_is_Some_2 q (S i) Hlt) as [g' Hg'].
    destruct (Hg _ _ Hg') as [-> Hlen'].
    destruct (Hg _ _ Hi) as [-> _].
    rewrite length_take, length_drop in *. simpl in Hlen'. lia.
Qed.

(** C10.  For every list and every [P >= 1] the queue loop ends, and the
    queue is an ordered partition of the list: group [i] is the slice of
    [P] elements that starts at [i * P] (shorter only at the end of the
    list, never empty), every group but the last has exactly [P] elements,
    and the groups put end to end give the list back. *)
Theorem C10_queue_is_ordered_partition {A} (P : Z) (l : list A) :
  (1 <= P)%Z ->
  exists q, build_queue P l = Some q /\
    concat q = l /\
    (forall i g, q !! i = Some g ->
       g = take (Z.to_nat P) (drop (i * Z.to_nat P) l) /\
       (1 <= length g <= Z.to_nat P)%nat) /\
    (forall i g, q !! i = Some g -> (S i < length q)%nat ->
       length g = Z.to_nat P).
Proof. apply build_queue_partition. Qed.

Lemma C10_queue_is_ordered_partition_witness :
  exists q, build_queue 3 [1%nat; 2; 3; 4; 5; 6; 7]%nat = Some q /\
    concat q = [1; 2; 3; 4; 5; 6; 7]%nat /\
    (forall i g, q !! i = Some g ->
       g = take (Z.to_nat 3) (drop (i * Z.to_nat 3) [1; 2; 3; 4; 5; 6; 7]%nat) /\
       (1 <= length g <= Z.to_nat 3)%nat) /\
    (forall i g, q !! i = Some g -> (S i < length q)%nat ->
       length g = Z.to_nat 3).
Proof. apply (C10_queue_is_ordered_partition 3). lia. Defined.

(** ** The scheduling loops *)

Lemma upscaleImage_source env source dest o :
  sp_source (upscaleImage env source dest o).2 = source.
Proof.
  unfold upscaleImage. destruct (parseFilename _ _ _) as [folder0 image].
  by destruct (truthyS (Opt.modelDir _)).
Qed.

Lemma images_start_ok env destFolder : start_ok (images_start env destFolder).
Proof.
  intros st f. unfold images_start.
  pose proof (upscaleImage_source env f destFolder (options st)) as Hs.
  destruct (upscaleImage env f destFolder (options st)) as [o sp]. simpl in *.
  repeat split; try done.
  - intros ->. by destruct (limit_reached st).
  - by exists sp.
Qed.

Lemma frames_start_ok env upScaleDest : start_ok (frames_start env upScaleDest).
Proof.
  intros st f. unfold frames_start.
  pose proof (upscaleImage_source env f (upScaleDest +:+ "/" +:+ Path.basename f) (options st)) as Hs.
  destruct (upscaleImage env f _ (options st)) as [o sp]. simpl in *.
  repeat split; try done. by exists sp.
Qed.

Lemma source_start_ok env start : source_start env start -> start_ok start.
Proof. destruct 1; [apply images_start_ok | apply frames_start_ok]. Qed.

Lemma start_all_spec start st g :
  start_ok start ->
  counter (start_all start st g).1 = counter st /\
  calls (start_all start st g).1 = calls st /\
  results (start_all start st g).1 = results st /\
  (cancel st = true -> cancel (start_all start st g).1 = true) /\
  length (start_all start st g).2 = length g /\
  map sp_source (spawned (start_all start st g).1) = map sp_source (spawned st) ++ g.
Proof.
  intros Hok. revert st. induction g as [|f g IH]; intros st.
  - simpl. by rewrite app_nil_r.
  - simpl. destruct (Hok st f) as (Hc & Hk & Hr & Hm & sp & Hsp & Hf).
    destruct (start st f) as [st1 ret]. simpl in *.
    destruct (IH st1) as (Hc' & Hk' & Hr' & Hm' & Hl' & Hs').
    destruct (start_all start st1 g) as [st2 rets]. simpl in *.
    rewrite Hc', Hk', Hr', Hs', Hsp, map_app, Hl'. simpl.
    rewrite <- app_assoc, Hf. repeat split; try done. tauto.
Qed.

Lemma reports_S c total n :
  reports c total (S n) = (c, total) :: reports (S c) total n.
Proof.
  unfold reports. simpl. rewrite Nat.add_0_r. f_equal.
  rewrite <- seq_shift, map_map. apply map_ext. intros i. f_equal. lia.
Qed.

Lemma foldl_resume_None total st l :
  foldl (resume None total) st l =
  {| options := options st; cancel := cancel st; counter := counter st;
     results := results st ++ l; calls := calls st; spawned := spawned st |}.
Proof.
  revert st. induction l as [|x l IH]; intros st; simpl.
  - rewrite app_nil_r. by destruct st.
  - rewrite IH. simpl. by rewrite <- app_assoc.
Qed.

Lemma foldl_resume_Some cb total st l :
  let fin := foldl (resume (Some cb) total) st l in
  options fin = options st /\
  spawned fin = spawned st /\
  results fin = results st ++ l /\
  counter fin = (counter st + length l)%nat /\
  calls fin = calls st ++ reports (counter st) total (length l) /\
  (cancel st = true -> cancel fin = true) /\
  (never_stops cb -> cancel fin = cancel st) /\
  (stops_within cb total st (length l) -> cancel fin = true).
Proof.
  revert st. induction l as [|x l IH]; intros st; simpl.
  - rewrite !app_nil_r, Nat.add_0_r. repeat split; try done.
    intros (k & Hk & _). lia.
  - destruct (IH (resume (Some cb) total st x)) as (Ho & Hs & Hr & Hc & Hk & Hm & Hn & Hst).
    simpl in *. rewrite Ho, Hs, Hr, Hc, Hk, reports_S, <- !app_assoc. simpl.
    repeat split; try done; try lia.
    + intros Hcan. apply Hm. rewrite Hcan. by destruct (cb _).
    + intros Hnev. rewrite (Hn Hnev). by rewrite Hnev.
    + intros (k & Hlt & Hcb). destruct k as [|k].
      * apply Hm. rewrite reports_S in Hcb. unfold reports in Hcb. simpl in Hcb.
        by rewrite Hcb.
      * apply Hst. exists k. split; [lia|].
        rewrite reports_S in Hcb. simpl. rewrite <- app_assoc. exact Hcb.
Qed.

Lemma run_group_spec env start progress total st g :
  start_ok start -> exits_all env ->
  let fin := run_group env start progress total st g in
  map sp_source (spawned fin) = map sp_source (spawned st) ++ g /\
  results fin ≡ₚ results st ++ (start_all start st g).2 /\
  length (results fin) = (length (results st) + length g)%nat /\
  (cancel st = true -> cancel fin = true) /\
  (forall cb, progress = Some cb ->
     counter fin = (counter st + length g)%nat /\
     calls fin = calls st ++ reports (counter st) total (length g) /\
     (stops_within cb total st (length g) -> cancel fin = true)).
Proof.
  intros Hok Hex. unfold run_group.
  destruct (start_all_spec start st g Hok) as (Hc & Hk & Hr & Hm & Hl & Hs).
  destruct (start_all start st g) as [st1 rets]. simpl in *.
  pose proof (Hex rets) as Hperm.
  assert (length (exitOrder env rets) = length g) as Hlen
    by (by rewrite Hperm).
  destruct progress as [cb|].
  - destruct (foldl_resume_Some cb total st1 (exitOrder env rets))
      as (Ho' & Hs' & Hr' & Hc' & Hk' & Hm' & _ & Hst'). simpl in *.
    rewrite Hs', Hr', Hc', Hk', Hs, Hr, Hc, Hk, Hlen.
    split; [done|]. split; [by rewrite Hperm|].
    split; [by rewrite length_app, Hlen|]. split; [tauto|].
    intros cb' [= <-]. split; [done|]. split; [done|].
    intros Hstop. apply Hst'. destruct Hstop as (k & Hlt & Hcb).
    exists k. rewrite Hlen, Hc, Hk. by split.
  - rewrite foldl_resume_None. simpl. rewrite Hs, Hr.
    split; [done|]. split; [by rewrite Hperm|].
    split; [by rewrite length_app, Hlen|]. split; [tauto|]. done.
Qed.

Lemma run_queue_app env start progress total st0 pre rest :
  cancel (run_queue env start progress total st0 pre) = false ->
  run_queue env start progress total st0 (pre ++ rest) =
  run_queue env start progress total (run_queue env start progress total st0 pre) rest.
Proof.
  revert st0. induction pre as [|g pre IH]; intros st0 Hc; [done|].
  simpl in *. destruct (cancel (run_group env start progress total st0 g)) eqn:E.
  - congruence.
  - by apply IH.
Qed.

(** When the loop leaves [cancel] unset it has gone through the whole queue. *)
Lemma run_queue_all env start progress total st0 q :
  start_ok start -> exits_all env ->
  cancel (run_queue env start progress total st0 q) = false ->
  let fin := run_queue env start progress total st0 q in
  map sp_source (spawned fin) = map sp_source (spawned st0) ++ concat q /\
  length (results fin) = (length (results st0) + length (concat q))%nat.
Proof.
  intros Hok Hex. revert st0. induction q as [|g q IH]; intros st0 Hc.
  - simpl. by rewrite app_nil_r, Nat.add_0_r.
  - simpl in *.
    destruct (run_group_spec env start progress total st0 g Hok Hex)
      as (Hs & _ & Hl & _).
    destruct (cancel (run_group env start progress total st0 g)) eqn:E;
      [congruence|].
    destruct (IH _ Hc) as (Hs' & Hl').
    rewrite Hs', Hl', Hs, Hl, length_app, <- app_assoc. split; [done|lia].
Qed.

(** C2.  When the progress callback answers stop while group [g] is being
    processed (the groups [pre] before it ran without the flag being set),
    the loop ends with that group: every callback of [g] has run to its end
    (its frame was started, its result pushed and progress reported), and
    nothing of the groups [post] is started.  This holds for the loop of
    [upscaleImages] and for the loop of [upscaleGIF] and [upscaleVideo]. *)
Theorem C2_stop_drains_group_and_ends_loop env start cb total st0 pre g post :
  source_start env start -> exits_all env ->
  let st := run_queue env start (Some cb) total st0 pre in
  cancel st = false ->
  stops_within cb total st (length g) ->
  let fin := run_queue env start (Some cb) total st0 (pre ++ g :: post) in
  fin = run_group env start (Some cb) total st g /\
  cancel fin = true /\
  map sp_source (spawned fin) = map sp_source (spawned st0) ++ concat pre ++ g /\
  length (results fin) = (length (results st0) + length (concat pre ++ g))%nat /\
  calls fin = calls st ++ reports (counter st) total (length g).
Proof.
  intros Hsrc Hex st Hc Hstop fin.
  pose proof (source_start_ok env start Hsrc) as Hok.
  subst fin. rewrite run_queue_app by done. fold st. cbn [run_queue].
  destruct (run_group_spec env start (Some cb) total st g Hok Hex)
    as (Hs & _ & Hl & _ & Hcb).
  destruct (Hcb cb eq_refl) as (_ & Hk & Hcan).
  rewrite (Hcan Hstop).
  destruct (run_queue_all env start (Some cb) total st0 pre Hok Hex Hc) as (Hs0 & Hl0).
  fold st in Hs0, Hl0.
  split; [done|]. split; [by apply Hcan|].
  rewrite Hs, Hl, Hs0, Hl0, Hk, !length_app, <- app_assoc.
  split; [done|]. split; [lia|done].
Qed.

(** ** What [upscaleImage] writes into the options *)

Lemma upscaleImage_options env source dest o :
  (upscaleImage env source dest o).1 =
  let o1 := match Opt.rename o with
            | None => Opt.set_rename (Some "2x") o
            | Some _ => o
            end in
  if truthyS (Opt.modelDir o)
  then Opt.set_modelDir
         (Some (normalized_modelDir env (default EmptyString (Opt.modelDir o)))) o1
  else o1.
Proof.
  unfold upscaleImage. destruct (parseFilename _ _ _) as [folder0 image].
  replace (Opt.modelDir match Opt.rename o with
                        | Some _ => o
                        | None => Opt.set_rename (Some "2x") o
                        end) with (Opt.modelDir o) by (by destruct (Opt.rename o)).
  by destruct (truthyS (Opt.modelDir o)).
Qed.


(** ** The loop of [upscaleGIF] and [upscaleVideo] *)

Lemma frames_start_all env u st g :
  cancel (start_all (frames_start env u) st g).1 = cancel st /\
  (start_all (frames_start env u) st g).2 = map (scaled_path u) g.
Proof.
  revert st. induction g as [|f g IH]; intros st; [done|].
  simpl. unfold frames_start at 1 3.
  destruct (upscaleImage env f _ (options st)) as [o sp].
  match goal with |- context [start_all _ ?s g] => destruct (IH s) as [Hc Hr] end.
  destruct (start_all _ _ g) as [st2 rets]. simpl in *.
  by rewrite Hc, Hr.
Qed.

Lemma reports_app c total n m :
  reports c total (n + m) = reports c total n ++ reports (c + n) total m.
Proof.
  unfold reports. rewrite seq_app, map_app. f_equal. simpl.
  assert (seq n m = map (Nat.add n) (seq 0 m)) as ->.
  { rewrite <- (Nat.add_0_r n) at 1. symmetry. apply (fmap_add_seq n 0 m). }
  rewrite map_map. apply map_ext. intros i. f_equal. lia.
Qed.

Lemma frames_run_never env u cb total st q :
  exits_all env -> never_stops cb -> cancel st = false ->
  let fin := run_queue env (frames_start env u) (Some cb) total st q in
  cancel fin = false /\
  calls fin = calls st ++ reports (counter st) total (length (concat q)) /\
  map sp_source (spawned fin) = map sp_source (spawned st) ++ concat q /\
  results fin ≡ₚ results st ++ map (scaled_path u) (concat q).
Proof.
  intros Hex Hnev. revert st. induction q as [|g q IH]; intros st Hc.
  - simpl. unfold reports. simpl. by rewrite !app_nil_r.
  - cbn [run_queue concat].
    destruct (run_group_spec env (frames_start env u) (Some cb) total st g
                (frames_start_ok env u) Hex) as (Hs & Hr & _ & _ & Hcb).
    destruct (Hcb cb eq_refl) as (Hcnt & Hk & _).
    assert (cancel (run_group env (frames_start env u) (Some cb) total st g) = false) as Hcg.
    { unfold run_group.
      destruct (frames_start_all env u st g) as [Hc1 _].
      destruct (start_all (frames_start env u) st g) as [st1 rets]. simpl in *.
      destruct (foldl_resume_Some cb total st1 (exitOrder env rets))
        as (_ & _ & _ & _ & _ & _ & Hn & _).
      rewrite (Hn Hnev). congruence. }
    rewrite Hcg. destruct (IH _ Hcg) as (Hc' & Hk' & Hs' & Hr').
    rewrite Hk', Hs', Hr', Hk, Hs, Hr, Hcnt.
    destruct (frames_start_all env u st g) as [_ ->].
    rewrite length_app, reports_app, map_app, <- !app_assoc. done.
Qed.

(** The branch of the scheduling block that runs the scheduler. *)
Lemma schedule_frames_ran env upScaleDest frameArray o P progress q :
  scale_is_not_1 o = true ->
  Opt.parallelFrames o = Some P -> (P <> 0)%Z ->
  build_queue P frameArray = Some q ->
  schedule_frames env upScaleDest frameArray o progress =
  let total := length frameArray in
  let st1 :=
    {| options := o; cancel := false;
       counter := match progress with Some _ => 1 | None => 0 end;
       results := [];
       calls := match progress with Some _ => [(0, total)]%nat | None => [] end;
       spawned := [] |} in
  Some (frames_done
          (run_queue env (frames_start env upScaleDest) progress total st1 q)).
Proof.
  intros Hscale HP Hne Hq. unfold schedule_frames, frames_init.
  rewrite Hscale, HP.
  cbn [truthyZ]. rewrite (proj2 (Z.eqb_neq P 0) Hne). cbn [negb].
  rewrite HP. change (default 0%Z (Some P)) with P. rewrite Hq. done.
Qed.

(** The frames a loop that is never stopped has pushed: group after group,
    each group in the order its child processes exit. *)
Lemma frames_run_never_results env u cb total st q :
  exits_all env -> never_stops cb -> cancel st = false ->
  results (run_queue env (frames_start env u) (Some cb) total st q) =
  results st ++ concat (map (fun g => exitOrder env (map (scaled_path u) g)) q).
Proof.
  intros Hex Hnev. revert st. induction q as [|g q IH]; intros st Hc.
  - simpl. by rewrite app_nil_r.
  - cbn [run_queue concat map].
    assert (cancel (run_group env (frames_start env u) (Some cb) total st g) = false /\
            results (run_group env (frames_start env u) (Some cb) total st g) =
            results st ++ exitOrder env (map (scaled_path u) g)) as [Hcg Hrg].
    { unfold run_group.
      destruct (frames_start_all env u st g) as [Hc1 Hr1].
      destruct (start_all_spec (frames_start env u) st g (frames_start_ok env u))
        as (_ & _ & Hres & _).
      destruct (start_all (frames_start env u) st g) as [st1 rets]. simpl in *.
      destruct (foldl_resume_Some cb total st1 (exitOrder env rets))
        as (_ & _ & Hr & _ & _ & _ & Hn & _).
      rewrite (Hn Hnev), Hr, Hres, Hr1. split; [congruence|done]. }
    rewrite Hcg, (IH _ Hcg), Hrg, <- app_assoc. done.
Qed.

(** C3.  A frame array of ten frames, [parallelFrames = 3], a progress
    callback that never asks to stop, in the branch where the scheduler runs
    ([options.scale !== 1]): the queue has the four groups of sizes 3, 3, 3
    and 1, which are the frames in order; a converter is started for each of
    the ten frames, in order; the ten upscaled frames are pushed, group
    after group, each group in the order its converters exit; and the
    callback is called eleven times, with (0,10), (1,10), ..., (10,10):
    once before the loop and once with each frame pushed: the part of a
    callback after its [await] pushes its frame and makes one call, numbered
    with the frames pushed so far. *)
Theorem C3_ten_frames_in_groups_of_three env upScaleDest frameArray o cb :
  exits_all env -> never_stops cb ->
  length frameArray = 10%nat ->
  Opt.parallelFrames o = Some 3%Z ->
  scale_is_not_1 o = true ->
  exists q s,
    build_queue 3 frameArray = Some q /\
    map length q = [3; 3; 3; 1]%nat /\
    concat q = frameArray /\
    schedule_frames env upScaleDest frameArray o (Some cb) = Some s /\
    sc_ran s = true /\
    map sp_source (sc_spawned s) = frameArray /\
    sc_scaledFrames s =
      concat (map (fun g => exitOrder env (map (scaled_path upScaleDest) g)) q) /\
    sc_scaledFrames s ≡ₚ map (scaled_path upScaleDest) frameArray /\
    sc_calls s = [(0, 10); (1, 10); (2, 10); (3, 10); (4, 10); (5, 10);
                  (6, 10); (7, 10); (8, 10); (9, 10); (10, 10)]%nat /\
    length (sc_calls s) = S (length (sc_scaledFrames s)) /\
    (forall st ret,
       let st' := resume (Some cb) 10 st ret in
       results st' = results st ++ [ret] /\
       calls st' = calls st ++ [(counter st, 10%nat)] /\
       counter st' = S (counter st)).
Proof.
  intros Hex Hnev Hlen HP Hscale.
  do 11 (destruct frameArray as [|? frameArray]; try discriminate Hlen).
  eexists _, _. split; [reflexivity|]. split; [reflexivity|].
  split; [reflexivity|].
  rewrite (schedule_frames_ran env upScaleDest _ o 3 (Some cb) _ Hscale HP)
    by (done || reflexivity).
  cbv zeta. split; [reflexivity|]. split; [reflexivity|].
  unfold frames_done. cbn [sc_calls sc_spawned sc_scaledFrames].
  match goal with
  | |- context [run_queue env ?start (Some cb) ?total ?st ?q] =>
      destruct (frames_run_never env upScaleDest cb total st q Hex Hnev eq_refl)
        as (_ & Hk & Hs & Hp);
      pose proof (frames_run_never_results env upScaleDest cb total st q
                    Hex Hnev eq_refl) as Hr
  end.
  rewrite Hk, Hs. split; [reflexivity|]. split; [exact Hr|].
  split; [exact Hp|]. split; [reflexivity|].
  split; [rewrite Hp; reflexivity|]. intros st ret. done.
Qed.

(** ** The loop of [upscaleImages] *)







(** ** Numbers *)

(** A number divided by itself is one. *)
Lemma div_same s m e :
  Num.div (S754_finite s m e) (S754_finite s m e) = Num.one.
Proof.
  unfold Num.div, SFdiv, SFdiv_core_binary.
  replace (Zdigits2 (Z.pos m) + e - (Zdigits2 (Z.pos m) + e))%Z with 0%Z by lia.
  replace (e - e)%Z with 0%Z by lia.
  change (Z.min (fexp Num.prec Num.emax 0) 0) with (-53)%Z.
  change (0 - -53)%Z with 53%Z.
  cbv beta iota zeta.
  assert (Z.div_eucl (Z.shiftl (Z.pos m) 53) (Z.pos m) = (2 ^ 53, 0)%Z) as ->.
  { rewrite Z.shiftl_mul_pow2 by lia.
    pose proof (Z.div_eucl_eq (Z.pos m * 2 ^ 53) (Z.pos m) ltac:(lia)) as H.
    pose proof (Z.mod_pos_bound (Z.pos m * 2 ^ 53) (Z.pos m) ltac:(lia)) as Hb.
    unfold Z.modulo, Z.div in *.
    destruct (Z.div_eucl (Z.pos m * 2 ^ 53) (Z.pos m)) as [q r].
    generalize dependent (2 ^ 53)%Z. intros K H.
    assert (K = q); [|subst; f_equal; lia].
    destruct (Z.lt_trichotomy K q) as [?|[?|?]]; [nia|done|nia]. }
  assert (new_location (Z.pos m) 0 = loc_Exact) as ->.
  { unfold new_location. by destruct (Z.even _). }
  rewrite xorb_nilpotent. reflexivity.
Qed.

Lemma digits2_iter_xO p k :
  digits2_pos (Pos.iter xO p k) = (digits2_pos p + k)%positive.
Proof.
  induction k as [|k IH] using Pos.peano_ind.
  - simpl. lia.
  - rewrite Pos.iter_succ. simpl. rewrite IH. lia.
Qed.

Lemma digits2_lower p : (2 ^ (Z.pos (digits2_pos p) - 1) <= Z.pos p)%Z.
Proof.
  induction p as [p IH|p IH|]; simpl; [| |done].
  - rewrite Pos2Z.inj_succ.
    replace (Z.succ (Z.pos (digits2_pos p)) - 1)%Z
      with (Z.succ (Z.pos (digits2_pos p) - 1)) by lia.
    rewrite Z.pow_succ_r by lia. lia.
  - rewrite Pos2Z.inj_succ.
    replace (Z.succ (Z.pos (digits2_pos p)) - 1)%Z
      with (Z.succ (Z.pos (digits2_pos p) - 1)) by lia.
    rewrite Z.pow_succ_r by lia. lia.
Qed.

(** A positive integer below [2 ^ 52] is a finite number. *)
Lemma ofZ_finite p :
  (Z.pos p < 2 ^ 52)%Z -> exists m e, Num.ofZ (Z.pos p) = S754_finite false m e.
Proof.
  intros Hp. unfold Num.ofZ, binary_normalize, binary_round.
  set (d := Z.pos (digits2_pos p)).
  assert (1 <= d <= 52)%Z as Hd.
  { split; [subst d; lia|].
    pose proof (digits2_lower p) as H. fold d in H.
    destruct (Z_lt_le_dec 52 d) as [Hlt|]; [|done].
    assert (2 ^ 52 <= 2 ^ (d - 1))%Z by (apply Z.pow_le_mono_r; lia). lia. }
  assert (fexp Num.prec Num.emax (d + 0) = d - 53)%Z as ->.
  { unfold fexp, emin, Num.prec, Num.emax. lia. }
  unfold shl_align.
  destruct (d - 53 - 0)%Z as [|q|q] eqn:E; [lia|lia|].
  unfold binary_round_aux, shr_fexp.
  assert (Zdigits2 (Z.pos (Pos.iter xO p q)) = 53%Z) as Hdig.
  { simpl. rewrite digits2_iter_xO. fold d. lia. }
  rewrite Hdig.
  assert (fexp Num.prec Num.emax (53 + (d - 53)) - (d - 53) = 0)%Z as ->.
  { unfold fexp, emin, Num.prec, Num.emax. lia. }
  cbn [shr shr_record_of_loc shr_m loc_of_shr_record round_nearest_even].
  rewrite Hdig.
  assert (fexp Num.prec Num.emax (53 + (d - 53)) - (d - 53) = 0)%Z as ->.
  { unfold fexp, emin, Num.prec, Num.emax. lia. }
  cbn [shr shr_record_of_loc shr_m].
  assert ((d - 53 <=? Num.emax - Num.prec)%Z = true) as ->.
  { apply Z.leb_le. unfold Num.emax, Num.prec. lia. }
  eauto.
Qed.

(** [x < y] excludes [y < x]. *)
Lemma ltb_asym x y : Num.ltb x y = true -> Num.ltb y x = false.
Proof.
  unfold Num.ltb, SFltb, SFcompare.
  destruct x as [sx|sx| |sx mx ex], y as [sy|sy| |sy my ey]; try done;
    try (by destruct sx, sy); try (by destruct sx); try (by destruct sy).
  change (Pos.compare_cont Eq mx my) with (mx ?= my)%positive.
  change (Pos.compare_cont Eq my mx) with (my ?= mx)%positive.
  destruct sx, sy; try done;
    destruct (Z.compare_spec ex ey), (Z.compare_spec ey ex); try lia; try done;
    destruct (Pos.compare_spec mx my), (Pos.compare_spec my mx); try lia; done.
Qed.

(** ** Frame selection *)

Lemma downloadFrames_spec frameDest frames (step : Num.t) (k : Z) fuel i :
  is_Z step k -> (1 <= k)%Z -> (0 <= i)%Z ->
  (Z.of_nat (length frames) - i <= Z.of_nat fuel)%Z ->
  exists kept,
    downloadFrames fuel frameDest frames step i = Some kept /\
    forall j : nat,
      kept !! j =
      (fun fr => (frame_path frameDest (i + Z.of_nat j * k), fr)) <$>
        frames !! Z.to_nat (i + Z.of_nat j * k).
Proof.
  intros Hstep Hk. revert i. induction fuel as [|fuel IH]; intros i Hi Hfuel.
  - exists []. unfold downloadFrames.
    destruct (Z.ltb_spec i (Z.of_nat (length frames))); [lia|].
    split; [done|]. intros j. rewrite lookup_nil, lookup_ge_None_2; [done|].
    assert (0 <= Z.of_nat j * k)%Z by nia. lia.
  - cbn [downloadFrames].
    destruct (Z.ltb_spec i (Z.of_nat (length frames))) as [Hlt|Hge].
    + destruct (Z.ltb_spec i 0); [lia|].
      destruct (lookup_lt_is_Some_2 frames (Z.to_nat i)) as [fr Hfr]; [lia|].
      rewrite Hfr. cbn [mbind option_bind].
      destruct (IH (i + k)%Z) as (rest & Hrest & Hj); [lia|lia|].
      assert (match step with
              | S754_nan | S754_infinity false => Some []
              | S754_infinity true => None
              | _ => downloadFrames fuel frameDest frames step (i + Num.toZ step)
              end = Some rest) as ->.
      { destruct step as [sz|si| |s m e]; try done.
        - simpl in Hstep. lia.
        - unfold is_Z in Hstep. by rewrite Hstep. }
      cbn [mbind option_bind].
      eexists. split; [reflexivity|].
      intros [|j].
      * simpl. replace (i + 0 * k)%Z with i by lia. rewrite Z.add_0_r, Hfr. done.
      * simpl. rewrite Hj.
        replace (i + k + Z.of_nat j * k)%Z with (i + Z.of_nat (S j) * k)%Z by lia.
        done.
    + exists []. split; [done|]. intros j.
      rewrite lookup_nil, lookup_ge_None_2; [done|].
      assert (0 <= Z.of_nat j * k)%Z by nia. lia.
Qed.

(** With a stride that is not finite the loop is left after the first
    frame. *)
Lemma downloadFrames_once frameDest fr frames (step : Num.t) :
  step = S754_infinity false \/ step = S754_nan ->
  downloadFrames (length (fr :: frames)) frameDest (fr :: frames) step 0
  = Some [(frame_path frameDest 0, fr)].
Proof. by intros [-> | ->]. Qed.

(** Without a speed above one the stride is one. *)
Lemma step_no_subsampling o len :
  speed_gt_1 o = false -> (0 < len)%nat -> (Z.of_nat len < 2 ^ 52)%Z ->
  step o len = Num.one.
Proof.
  intros Hs Hlen Hlt. unfold step, constraint. rewrite Hs.
  unfold Num.ofNat. destruct (Z.of_nat len) as [|p|p] eqn:E; [lia| |lia].
  destruct (ofZ_finite p Hlt) as (m & e & ->).
  rewrite div_same. reflexivity.
Qed.

Lemma speed_lt_1_not_gt o s :
  Opt.speed o = Some s -> Num.ltb s Num.one = true ->
  speed_lt_1 o = true /\ speed_gt_1 o = false.
Proof.
  intros Hs Hlt. unfold speed_lt_1, speed_gt_1. rewrite Hs. split; [done|].
  by apply ltb_asym.
Qed.

Lemma speed_gt_1_not_lt o s :
  Opt.speed o = Some s -> Num.ltb Num.one s = true ->
  speed_lt_1 o = false /\ speed_gt_1 o = true.
Proof.
  intros Hs Hlt. unfold speed_lt_1, speed_gt_1. rewrite Hs. split; [|done].
  by apply ltb_asym.
Qed.

Lemma length_by_lookup {A} (l : list A) (n : nat) :
  (forall j, is_Some (l !! j) <-> (j < n)%nat) -> length l = n.
Proof.
  intros H. destruct (Nat.lt_trichotomy (length l) n) as [Hlt|[?|Hgt]]; [|done|].
  - apply H in Hlt. apply lookup_lt_is_Some_1 in Hlt. lia.
  - apply lookup_lt_is_Some_2, H in Hgt. lia.
Qed.

(** The frames and the delays kept with a stride that is the integer [k]. *)
Lemma select_frames_stride o frameDest frames k :
  is_Z (step o (length frames)) k -> (1 <= k)%Z ->
  exists kept,
    downloadFrames (length frames) frameDest frames (step o (length frames)) 0
      = Some kept /\
    (forall j : nat,
       map fst kept !! j =
       (fun _ => frame_path frameDest (Z.of_nat j * k)) <$>
         frames !! Z.to_nat (Z.of_nat j * k)) /\
    (forall j : nat,
       map (fun x : string * GifFrame => frameInfo_delay x.2) kept !! j =
       frameInfo_delay <$> frames !! Z.to_nat (Z.of_nat j * k)).
Proof.
  intros Hstep Hk.
  destruct (downloadFrames_spec frameDest frames _ k (length frames) 0 Hstep Hk)
    as (kept & Hkept & Hj); [lia|lia|].
  exists kept. split; [done|].
  split; intros j; rewrite list_lookup_fmap, Hj; simpl; by destruct (frames !! _).
Qed.

(** C4.  The frames [upscaleGIF] keeps and the delays it gives them, with
    the numbers of the source: doubles.
    - With [speed > 1] the stride is [ceil(total / (total / speed))], each
      quotient rounded; when that is the integer [k >= 1], the frames kept
      are those at the multiples of [k], and each keeps the delay it had;
      when it is infinite, the first frame alone is kept.
    - With [speed = 2] and twenty frames the stride is 2 and ten frames are
      kept, with their delays unchanged.
    - With [speed < 1] (and an array, of less than [2 ^ 32] frames) the
      stride is 1, every frame is kept, and every delay is divided by the
      speed. *)
Theorem C4_speed_subsamples_or_stretches o frameDest frames s :
  Opt.speed o = Some s ->
  let total := length frames in
  let stride := step o total in
  (Num.ltb Num.one s = true ->
     stride = Num.ceil (Num.div (Num.ofNat total) (Num.div (Num.ofNat total) s)) /\
     (forall k, is_Z stride k -> (1 <= k)%Z ->
        exists frameArray delayArray,
          select_frames o frameDest frames = Some (frameArray, delayArray) /\
          (forall j : nat,
             frameArray !! j =
             (fun _ => frame_path frameDest (Z.of_nat j * k)) <$>
               frames !! Z.to_nat (Z.of_nat j * k)) /\
          (forall j : nat,
             delayArray !! j =
             frameInfo_delay <$> frames !! Z.to_nat (Z.of_nat j * k))) /\
     (stride = S754_infinity false ->
        forall fr, frames !! 0%nat = Some fr ->
          select_frames o frameDest frames =
          Some ([frame_path frameDest 0], [frameInfo_delay fr]))) /\
  (s = Num.ofZ 2 -> total = 20%nat ->
     stride = Num.ofZ 2 /\
     exists frameArray delayArray,
       select_frames o frameDest frames = Some (frameArray, delayArray) /\
       length frameArray = 10%nat /\
       frameArray = map (fun j => frame_path frameDest (2 * Z.of_nat j)) (seq 0 10) /\
       map Some delayArray =
       map (fun j => frameInfo_delay <$> frames !! (2 * j)%nat) (seq 0 10)) /\
  (Num.ltb s Num.one = true -> (Z.of_nat total < 2 ^ 32)%Z ->
     (frames <> [] -> stride = Num.one) /\
     exists frameArray delayArray,
       select_frames o frameDest frames = Some (frameArray, delayArray) /\
       frameArray = imap (fun j _ => frame_path frameDest (Z.of_nat j)) frames /\
       delayArray = map (fun fr => Num.div (frameInfo_delay fr) s) frames).
Proof.
  intros Hs total stride.
  assert (forall k, is_Z stride k -> (1 <= k)%Z -> speed_lt_1 o = false ->
            exists frameArray delayArray,
              select_frames o frameDest frames = Some (frameArray, delayArray) /\
              (forall j : nat,
                 frameArray !! j =
                 (fun _ => frame_path frameDest (Z.of_nat j * k)) <$>
                   frames !! Z.to_nat (Z.of_nat j * k)) /\
              (forall j : nat,
                 delayArray !! j =
                 frameInfo_delay <$> frames !! Z.to_nat (Z.of_nat j * k))) as Hsel.
  { intros k Hk Hk1 Hlt.
    destruct (select_frames_stride o frameDest frames k Hk Hk1)
      as (kept & Hkept & Hfa & Hda).
    unfold select_frames. rewrite Hkept, Hlt. cbn [mbind option_bind].
    by eexists _, _. }
  split; [|split].
  - intros Hgt. destruct (speed_gt_1_not_lt o s Hs Hgt) as [Hl Hg].
    split.
    { subst stride. unfold step, constraint, speed_of. by rewrite Hg, Hs. }
    split.
    { intros k Hk Hk1. by apply Hsel. }
    intros Hinf fr Hfr. destruct frames as [|fr' frames]; [done|].
    injection Hfr as ->. unfold select_frames. fold total. fold stride.
    unfold total. rewrite downloadFrames_once by (left; exact Hinf).
    by rewrite Hl.
  - intros -> Htotal.
    destruct (speed_gt_1_not_lt o _ Hs eq_refl) as [Hl Hg].
    assert (stride = Num.ofZ 2) as Hst.
    { subst stride. unfold step, constraint, speed_of. rewrite Hg, Hs, Htotal.
      vm_compute. reflexivity. }
    split; [done|].
    destruct (Hsel 2%Z) as (fa & da & Hsome & Hfa & Hda); [by rewrite Hst|lia|done|].
    exists fa, da. split; [done|].
    assert (length fa = 10%nat) as Hlen.
    { apply length_by_lookup. intros j.
      rewrite Hfa, fmap_is_Some, lookup_lt_is_Some. fold total. lia. }
    split; [done|]. split.
    + apply list_eq. intros j. rewrite Hfa, list_lookup_fmap.
      destruct (decide (j < 10)%nat) as [Hlt|Hge].
      * rewrite lookup_seq_lt by done. simpl.
        destruct (lookup_lt_is_Some_2 frames (Z.to_nat (Z.of_nat j * 2))) as [fr ->];
          [fold total; lia|].
        simpl. do 2 f_equal. lia.
      * rewrite lookup_seq_ge by lia. simpl.
        rewrite lookup_ge_None_2; [done|fold total; lia].
    + apply list_eq. intros j. rewrite !list_lookup_fmap, Hda.
      replace (Z.to_nat (Z.of_nat j * 2)) with (2 * j)%nat by lia.
      destruct (decide (j < 10)%nat) as [Hlt|Hge].
      * rewrite lookup_seq_lt by done. simpl.
        destruct (lookup_lt_is_Some_2 frames (j + (j + 0))%nat) as [fr ->];
          [fold total; lia|done].
      * rewrite lookup_seq_ge by lia. simpl.
        rewrite lookup_ge_None_2; [done|fold total; lia].
  - intros Hlt Hbound. destruct (speed_lt_1_not_gt o s Hs Hlt) as [Hl Hg].
    destruct (decide (frames = [])) as [->|Hne].
    { split; [done|]. exists [], []. unfold select_frames. simpl. by rewrite Hl. }
    assert (stride = Num.one) as Hst.
    { apply step_no_subsampling; [done| |].
      - subst total. destruct frames; [done|simpl; lia].
      - fold total. lia. }
    split; [done|].
    destruct (select_frames_stride o frameDest frames 1)
      as (kept & Hkept & Hfa & Hda); [fold total; fold stride; by rewrite Hst|lia|].
    exists (map fst kept), (map (fun fr => Num.div (frameInfo_delay fr) s) frames).
    split.
    + unfold select_frames. rewrite Hkept, Hl. cbn [mbind option_bind].
      do 2 f_equal. unfold speed_of. rewrite Hs. cbn [default].
      apply list_eq. intros j.
      rewrite list_lookup_fmap, Hda, !list_lookup_fmap.
      replace (Z.to_nat (Z.of_nat j * 1)) with j by lia.
      by destruct (frames !! j).
    + split; [|done]. apply list_eq. intros j. rewrite Hfa, list_lookup_imap.
      replace (Z.to_nat (Z.of_nat j * 1)) with j by lia.
      replace (Z.of_nat j * 1)%Z with (Z.of_nat j) by lia. done.
Qed.

(** ** The reverse step *)

Lemma zip_rev {A B} (a : list A) (b : list B) :
  length a = length b -> zip (rev a) (rev b) = rev (zip a b).
Proof.
  revert b. induction a as [|x a IH]; intros [|y b] Hlen; try done.
  simpl in *. rewrite zip_with_app by (rewrite !length_rev; lia).
  rewrite IH by lia. done.
Qed.

(** C5.  The reverse step turns both sequences around: the frame and the
    delay that shared an index before share one after; and the step applied
    twice gives back the frame order and the delay sequence. *)
Theorem C5_reverse_is_aligned_and_an_involution o (scaledFrames : list string)
  (delayArray : list Num.t) :
  length scaledFrames = length delayArray ->
  let r := reverse_step o scaledFrames delayArray in
  length r.1 = length r.2 /\
  zip r.1 r.2 =
    (if truthyB (Opt.reverse o) then rev (zip scaledFrames delayArray)
     else zip scaledFrames delayArray) /\
  (truthyB (Opt.reverse o) = true -> r = (rev scaledFrames, rev delayArray)) /\
  reverse_step o r.1 r.2 = (scaledFrames, delayArray).
Proof.
  intros Hlen. unfold reverse_step. destruct (truthyB (Opt.reverse o)); simpl.
  - rewrite !length_rev, !rev_involutive, zip_rev by done. done.
  - done.
Qed.

Lemma C5_reverse_is_aligned_and_an_involution_witness :
  let o := Opt.set_reverse (Some true) Opt.empty in
  let r := reverse_step o ["f0"; "f1"; "f2"] [Num.ofZ 10; Num.ofZ 20; Num.ofZ 30] in
  length r.1 = length r.2 /\
  zip r.1 r.2 =
    (if truthyB (Opt.reverse o) then rev (zip ["f0"; "f1"; "f2"] [Num.ofZ 10; Num.ofZ 20; Num.ofZ 30])
     else zip ["f0"; "f1"; "f2"] [Num.ofZ 10; Num.ofZ 20; Num.ofZ 30]) /\
  (truthyB (Opt.reverse o) = true ->
   r = (rev ["f0"; "f1"; "f2"], rev [Num.ofZ 10; Num.ofZ 20; Num.ofZ 30])) /\
  reverse_step o r.1 r.2 = (["f0"; "f1"; "f2"], [Num.ofZ 10; Num.ofZ 20; Num.ofZ 30]).
Proof.
  apply (C5_reverse_is_aligned_and_an_involution
           (Opt.set_reverse (Some true) Opt.empty) ["f0"; "f1"; "f2"]
           [Num.ofZ 10; Num.ofZ 20; Num.ofZ 30]).
  reflexivity.
Defined.

(** ** What the jobs leave of the options object *)

Lemma quiet_preserves {T A} (obs : _ -> T) good (m : M A) :
  quiet m -> preserves obs good m.
Proof. intros H j _. by rewrite H. Qed.

Lemma preserves_bind {T A B} (obs : _ -> T) good (m : M A) (k : A -> M B) :
  preserves obs good m -> (forall a, preserves obs good (k a)) ->
  preserves obs good (bind m k).
Proof.
  intros Hm Hk j Hg. unfold bind. specialize (Hm j Hg).
  destruct (m j) as [j' [a|e|]]; simpl in *; try done.
  rewrite <- Hm. apply Hk. by rewrite Hm.
Qed.

Lemma quiet_ret {A} (a : A) : quiet (ret a).
Proof. done. Qed.

Lemma quiet_never {A} : quiet (@never A).
Proof. done. Qed.

Lemma quiet_lift {A} (r : Res A) : quiet (lift r).
Proof. done. Qed.

Lemma quiet_the_options : quiet the_options.
Proof. done. Qed.

Lemma quiet_exists p : quiet (exists_ p).
Proof. done. Qed.

Lemma quiet_on_fs {A} (f : FS -> FS * Res A) : quiet (on_fs f).
Proof. intros j. unfold on_fs. by destruct (f _). Qed.

Lemma quiet_release dir : quiet (release dir).
Proof. intros j. unfold release. by destruct (removeDirectory' _ _). Qed.

Lemma quiet_run_ffmpeg ext run : quiet (run_ffmpeg ext run).
Proof. done. Qed.

Lemma quiet_write_frames paths : quiet (write_frames paths).
Proof. intros j. unfold write_frames. by destruct (foldl _ _ _). Qed.

Lemma quiet_encodeGIF files delays dest quality :
  quiet (encodeGIF files delays dest quality).
Proof.
  intros j. unfold encodeGIF. destruct files as [|f files]; [done|].
  destruct (negb (is_file _ f)); [done|]. by destruct (forallb _ _).
Qed.

Lemma preserves_write_options {T} (obs : _ -> T) good f :
  (forall o c s, obs (f o, c, s) = obs (o, c, s)) ->
  preserves obs good (write_options f).
Proof. intros H j _. apply H. Qed.

Create HintDb job discriminated.

#[local] Hint Resolve quiet_ret quiet_never quiet_lift quiet_the_options
  quiet_exists quiet_on_fs quiet_release quiet_run_ffmpeg quiet_write_frames
  quiet_encodeGIF : job.

(** Walks through an action made of [bind]s, conditionals and pairs. *)
Ltac walk :=
  repeat first
    [ apply preserves_bind; [|intros ?]
    | apply quiet_preserves; solve [auto with job]
    | match goal with
      | |- preserves _ _ (if ?b then _ else _) => destruct b
      | |- preserves _ _ (match ?x with (_, _) => _ end) => destruct x
      | |- preserves _ _ (match ?x with Some _ => _ | None => _ end) => destruct x
      | |- preserves _ _ (let '(_, _) := ?x in _) => destruct x
      end ].

Lemma preserves_acquire {T} (obs : _ -> T) good frameDest :
  preserves obs good (acquire frameDest).
Proof. unfold acquire. walk. Qed.

Lemma preserves_make_upscaled {T} (obs : _ -> T) good upScaleDest :
  preserves obs good (make_upscaled upScaleDest).
Proof. unfold make_upscaled. walk. Qed.

Lemma preserves_await_ffmpeg {T} (obs : _ -> T) good ext run :
  preserves obs good (await_ffmpeg ext run).
Proof. unfold await_ffmpeg. walk. Qed.

Lemma preserves_extract_frames {T} (obs : _ -> T) good ext source frameDest fr :
  preserves obs good (extract_frames ext source frameDest fr).
Proof. unfold extract_frames. walk. Qed.

Lemma preserves_extract_audio {T} (obs : _ -> T) good ext source frameDest :
  preserves obs good (extract_audio ext source frameDest).
Proof. unfold extract_audio. walk. Qed.

Lemma preserves_list_frames {T} (obs : _ -> T) good ext frameDest :
  preserves obs good (list_frames ext frameDest).
Proof. unfold list_frames. walk. Qed.

Lemma upscaleImage_settings env source dest o :
  settings (upscaleImage env source dest o).1 = settings o.
Proof.
  rewrite upscaleImage_options. simpl.
  by destruct (truthyS (Opt.modelDir o)), (Opt.rename o).
Qed.

Lemma line123_settings o : settings (line123 o) = settings o.
Proof. unfold line123. by destruct (Opt.rename o). Qed.

Lemma frames_start_settings env u st f :
  settings (options (frames_start env u st f).1) = settings (options st).
Proof.
  unfold frames_start.
  pose proof (upscaleImage_settings env f (u +:+ "/" +:+ Path.basename f) (options st)) as H.
  by destruct (upscaleImage env f _ (options st)).
Qed.

Lemma images_start_settings env d st f :
  settings (options (images_start env d st f).1) = settings (options st).
Proof.
  unfold images_start.
  pose proof (upscaleImage_settings env f d (options st)) as H.
  by destruct (upscaleImage env f d (options st)).
Qed.

Lemma foldl_resume_options progress total st l :
  options (foldl (resume progress total) st l) = options st.
Proof.
  destruct progress as [cb|].
  - by destruct (foldl_resume_Some cb total st l) as (-> & _).
  - by rewrite foldl_resume_None.
Qed.

Lemma start_all_settings start st g :
  (forall st f, settings (options (start st f).1) = settings (options st)) ->
  settings (options (start_all start st g).1) = settings (options st).
Proof.
  intros H. revert st. induction g as [|f g IH]; intros st; [done|].
  simpl. specialize (H st f). destruct (start st f) as [st1 ret].
  specialize (IH st1). destruct (start_all start st1 g) as [st2 rets].
  simpl in *. congruence.
Qed.

Lemma run_queue_settings env start progress total st q :
  (forall st f, settings (options (start st f).1) = settings (options st)) ->
  settings (options (run_queue env start progress total st q)) = settings (options st).
Proof.
  intros H. revert st. induction q as [|g q IH]; intros st; [done|].
  cbn [run_queue].
  assert (settings (options (run_group env start progress total st g))
          = settings (options st)) as Hg.
  { unfold run_group. pose proof (start_all_settings start st g H) as Hs.
    destruct (start_all start st g) as [st1 rets].
    by rewrite foldl_resume_options. }
  destruct (cancel _); [done|]. by rewrite IH.
Qed.

Lemma frames_start_io_settings env u x f :
  settings (options (frames_start_io env u x f).1.1) = settings (options x.1).
Proof.
  destruct x as [st fs]. unfold frames_start_io.
  destruct (upscaleImage env f _ (options st)) as [o sp].
  pose proof (frames_start_settings env u st f) as H.
  destruct (line126 fs (sp_folder sp)) as [fs' [[]|e|]];
    [by destruct (frames_start env u st f)| |]; simpl; apply line123_settings.
Qed.

Lemma start_all_io_settings env u x g :
  settings (options (start_all_io (frames_start_io env u) x g).1.1) = settings (options x.1).
Proof.
  revert x. induction g as [|f g IH]; intros x; [done|].
  simpl. pose proof (frames_start_io_settings env u x f) as H.
  destruct (frames_start_io env u x f) as [x1 r].
  specialize (IH x1). destruct (start_all_io (frames_start_io env u) x1 g) as [x2 rs].
  simpl in *. congruence.
Qed.

Lemma run_queue_io_settings env ext u progress total x q :
  settings (options (run_queue_io env ext (frames_start_io env u) progress total x q).1.1)
  = settings (options x.1).
Proof.
  revert x. induction q as [|g q IH]; intros x; [done|].
  cbn [run_queue_io].
  assert (settings (options (run_group_io env ext (frames_start_io env u) progress total x g).1.1)
          = settings (options x.1)) as Hg.
  { unfold run_group_io. pose proof (start_all_io_settings env u x g) as Hs.
    destruct (start_all_io (frames_start_io env u) x g) as [[st1 fs1] rs].
    destruct (all_started rs); simpl in *; try done.
    by rewrite foldl_resume_options. }
  destruct (run_group_io env ext (frames_start_io env u) progress total x g) as [x' [[]|e|]]; try done.
  destruct (cancel x'.1); [done|]. by rewrite IH.
Qed.

Lemma frames_init_settings frameArray o progress :
  settings (frames_init frameArray o progress).1 = settings o /\
  forall st q, (frames_init frameArray o progress).2 = Some (st, q) ->
               settings (options st) = settings o.
Proof.
  unfold frames_init. simpl.
  destruct (negb (truthyZ (Opt.parallelFrames o))); (split; [done|]);
    intros st q; destruct (build_queue _ _); simpl; intros [= <- <-]; done.
Qed.

Lemma preserves_schedule_settings env ext u frameArray progress :
  preserves obs_settings always (schedule_frames_io env ext u frameArray progress).
Proof.
  intros j _. unfold schedule_frames_io, obs_settings, view.
  destruct (scale_is_not_1 (j_options j)); [|done].
  destruct (frames_init_settings frameArray (j_options j) progress) as [H1 H2].
  destruct (frames_init frameArray (j_options j) progress) as [o1 [[st q]|]];
    [|done].
  specialize (H2 st q eq_refl).
  pose proof (run_queue_io_settings env ext u progress (length frameArray)
                (st, disk (j_disk j)) q) as H.
  destruct (run_queue_io _ _ _ _ _ _ _) as [[st' fs'] [[]|e|]]; simpl in *; congruence.
Qed.

Lemma preserves_schedule_skipped env ext u frameArray progress :
  preserves obs_work scale_1 (schedule_frames_io env ext u frameArray progress).
Proof.
  intros j Hg. unfold schedule_frames_io.
  assert (scale_is_not_1 (j_options j) = false) as ->; [|done].
  unfold scale_1, obs_work, view in Hg. simpl in Hg. unfold scale_is_not_1.
  destruct (Opt.scale (j_options j)); [by rewrite Hg|done].
Qed.

Lemma preserves_upscaleGIF {T} (obs : _ -> T) good env ext source dest progress :
  (forall o o' c s, settings o' = settings o -> obs (o', c, s) = obs (o, c, s)) ->
  (forall u frameArray,
     preserves obs good (schedule_frames_io env ext u frameArray progress)) ->
  preserves obs good (upscaleGIF env ext source dest progress).
Proof.
  intros Hobs Hsched. unfold upscaleGIF.
  destruct (job_folder env source _) as [folder image].
  apply preserves_bind; [|intros _].
  { apply preserves_write_options. intros o c s. apply Hobs.
    by destruct (negb (truthyB (Opt.cumulative o))). }
  apply preserves_bind; [by apply quiet_preserves, quiet_the_options|intros o].
  apply preserves_bind; [by apply quiet_preserves, quiet_lift|intros frames].
  apply preserves_bind; [apply preserves_acquire|intros _].
  destruct (select_frames o _ frames) as [[frameArray delayArray]|];
    [|by apply quiet_preserves, quiet_never].
  apply preserves_bind; [by apply quiet_preserves, quiet_write_frames|intros _].
  apply preserves_bind; [apply preserves_make_upscaled|intros _].
  apply preserves_bind; [|intros _].
  { apply preserves_write_options. intros o1 c s. by apply Hobs. }
  apply preserves_bind; [apply Hsched|intros sc].
  apply preserves_bind; [by apply quiet_preserves, quiet_the_options|intros o1].
  destruct (reverse_step o1 (sc_scaledFrames sc) delayArray) as [scaled delays].
  walk.
Qed.

Lemma preserves_upscaleVideo {T} (obs : _ -> T) good env ext source dest progress :
  (forall o o' c s, settings o' = settings o -> obs (o', c, s) = obs (o, c, s)) ->
  (forall u frameArray,
     preserves obs good (schedule_frames_io env ext u frameArray progress)) ->
  preserves obs good (upscaleVideo env ext source dest progress).
Proof.
  intros Hobs Hsched. unfold upscaleVideo.
  destruct (job_folder env source _) as [folder image].
  apply preserves_bind; [by apply quiet_preserves, quiet_lift|intros duration].
  apply preserves_bind; [by apply quiet_preserves, quiet_the_options|intros o].
  apply preserves_bind; [|intros _].
  { destruct (negb (truthyN (Opt.framerate o))); [|by apply quiet_preserves, quiet_ret].
    apply preserves_bind; [by apply quiet_preserves, quiet_lift|intros r].
    apply preserves_write_options. intros o1 c s. by apply Hobs. }
  apply preserves_bind; [apply preserves_acquire|intros _].
  apply preserves_bind; [by apply quiet_preserves, quiet_the_options|intros o1].
  apply preserves_bind; [apply preserves_extract_frames|intros _].
  apply preserves_bind; [apply preserves_extract_audio|intros audio].
  apply preserves_bind; [apply preserves_make_upscaled|intros _].
  apply preserves_bind; [|intros _].
  { apply preserves_write_options. intros o2 c s. by apply Hobs. }
  apply preserves_bind; [apply preserves_list_frames|intros frameArray].
  apply preserves_bind; [apply Hsched|intros sc].
  apply preserves_bind; [|intros _].
  { apply preserves_write_options. intros o2 c s. apply Hobs.
    by destruct (negb (truthyN (Opt.speed o2))). }
  apply preserves_bind; [|intros _].
  { apply preserves_write_options. intros o2 c s. apply Hobs.
    by destruct (negb (truthyB (Opt.reverse o2))). }
  apply preserves_bind; [by apply quiet_preserves, quiet_the_options|intros o2].
  apply preserves_bind; [|intros _].
  { destruct (Str.nonempty audio).
    - apply preserves_bind; [apply preserves_await_ffmpeg|intros _].
      apply preserves_await_ffmpeg.
    - apply preserves_await_ffmpeg. }
  apply preserves_bind; [by apply quiet_preserves, quiet_lift|intros newDuration].
  apply preserves_bind; [apply preserves_await_ffmpeg|intros _].
  walk.
Qed.

Lemma upscaleImages_settings env files dest o progress :
  match upscaleImages env files dest o progress with
  | Some st => settings (options st) = settings o
  | None => True
  end.
Proof.
  unfold upscaleImages. destruct (build_queue _ files) as [q|]; [|done].
  cbn [mbind option_bind].
  rewrite run_queue_settings by (apply images_start_settings). simpl.
  by destruct (negb (truthyZ (Opt.limit o))),
             (negb (truthyZ (Opt.parallelFrames _))).
Qed.

(** ** The end of a job *)

Lemma bind_Ok {A B} (m : M A) (k : A -> M B) j j' b :
  bind m k j = (j', Ok b) ->
  exists j1 a, m j = (j1, Ok a) /\ k a j1 = (j', Ok b).
Proof.
  unfold bind. destruct (m j) as [j1 [a|e|]]; try done. by exists j1, a.
Qed.

Ltac unbind H :=
  let j1 := fresh "j" in
  let a := fresh "a" in
  let Hm := fresh "Hm" in
  apply bind_Ok in H; destruct H as (j1 & a & Hm & H).

Lemma upscaleGIF_ends_with_release env ext source dest progress j j' out :
  upscaleGIF env ext source dest progress j = (j', Ok out) ->
  exists j1, release (gif_workspace env source dest) j1 = (j', Ok tt).
Proof.
  unfold upscaleGIF, gif_workspace. intros H.
  destruct (job_folder env source _) as [folder image]. cbn [fst].
  repeat unbind H.
  destruct (select_frames _ _ _) as [[frameArray delayArray]|]; [|done].
  repeat unbind H.
  destruct (reverse_step _ _ _) as [scaled delays].
  repeat unbind H. inversion H; subst.
  match goal with Hr : release _ _ = (_, Ok ?u) |- _ => destruct u end. eauto.
Qed.

Lemma upscaleVideo_ends_with_release env ext source dest progress j j' out :
  upscaleVideo env ext source dest progress j = (j', Ok out) ->
  exists j1, release (video_workspace env source dest) j1 = (j', Ok tt).
Proof.
  unfold upscaleVideo, video_workspace. intros H.
  destruct (job_folder env source _) as [folder image]. cbn [fst].
  repeat unbind H. inversion H; subst.
  match goal with Hr : release _ _ = (_, Ok ?u) |- _ => destruct u end. eauto.
Qed.

(** ** Paths as strings and as components *)

Lemma split_nonempty sep s : Str.split sep s <> [].
Proof.
  destruct s as [|c s]; simpl; [done|].
  destruct (Ascii.eqb c sep); [done|]. by destruct (Str.split sep s).
Qed.

Lemma split_app_sep sep a b :
  Str.split sep (a +:+ String sep b) = Str.split sep a ++ Str.split sep b.
Proof.
  induction a as [|c a IH]; simpl.
  - by rewrite Ascii.eqb_refl.
  - destruct (Ascii.eqb c sep); [by rewrite IH|].
    rewrite IH. pose proof (split_nonempty sep a).
    by destruct (Str.split sep a).
Qed.

Lemma split_slash_free s :
  slash_free s = true -> Str.split Path.slash s = [s].
Proof.
  induction s as [|c s IH]; simpl; [done|].
  intros [Hc Hs]%andb_prop. apply negb_true_iff in Hc. rewrite Hc, IH; done.
Qed.

Lemma split_all_slash_free s :
  Forall (fun x => slash_free x = true) (Str.split Path.slash s).
Proof.
  induction s as [|c s IH]; simpl; [by constructor|].
  destruct (Ascii.eqb c Path.slash) eqn:E; [by constructor|].
  pose proof (split_nonempty Path.slash s).
  destruct (Str.split Path.slash s) as [|h t]; [done|].
  inversion IH; subst. constructor; [|done]. simpl. by rewrite E.
Qed.

Lemma slash_free_app a b :
  slash_free (a +:+ b) = slash_free a && slash_free b.
Proof.
  induction a as [|c a IH]; simpl; [done|]. by rewrite IH, andb_assoc.
Qed.

(** The last piece of a string that ends in a slash-free suffix ends in that
    suffix. *)
Lemma split_suffix a w :
  slash_free w = true ->
  exists init z, Str.split Path.slash (a +:+ w) = init ++ [z +:+ w] /\
                 slash_free z = true.
Proof.
  intros Hw. induction a as [|c a IH]; simpl.
  - exists [], EmptyString. by rewrite split_slash_free.
  - destruct IH as (init & z & IH & Hz). rewrite IH.
    destruct (Ascii.eqb c Path.slash) eqn:E.
    + by exists (EmptyString :: init), z.
    + destruct init as [|h t]; simpl.
      * exists [], (String c z). simpl. by rewrite E.
      * by exists (String c h :: t), z.
Qed.

Lemma segments_app_slash a b :
  Path.segments (a +:+ "/" +:+ b) = Path.segments a ++ Path.segments b.
Proof.
  unfold Path.segments.
  change (a +:+ "/" +:+ b) with (a +:+ String Path.slash b).
  by rewrite split_app_sep, filter_app.
Qed.

Lemma segments_plain s : plain s = true -> Path.segments s = [s].
Proof.
  intros [Hn Hs]%andb_prop. unfold Path.segments.
  rewrite split_slash_free by done.
  by rewrite filter_cons_True.
Qed.

Lemma segments_empty : Path.segments EmptyString = [].
Proof. done. Qed.

Lemma segments_slash_first s : Path.segments ("/" +:+ s) = Path.segments s.
Proof.
  unfold Path.segments. change (Str.split Path.slash ("/" +:+ s))
    with (EmptyString :: Str.split Path.slash s).
  by rewrite filter_cons_False.
Qed.

Lemma segments_slash_last s : Path.segments (s +:+ "/") = Path.segments s.
Proof.
  change (s +:+ "/") with (s +:+ "/" +:+ EmptyString).
  by rewrite segments_app_slash, segments_empty, app_nil_r.
Qed.

Lemma segments_all_plain s :
  Forall (fun x => plain x = true) (Path.segments s).
Proof.
  unfold Path.segments. apply Forall_forall. intros x [Hn Hx]%list_elem_of_filter.
  unfold plain. rewrite Hn. simpl.
  pose proof (split_all_slash_free s) as H.
  by apply (proj1 (Forall_forall _ _) H).
Qed.

Lemma segments_join xs :
  Forall (fun x => plain x = true) xs ->
  Path.segments (Str.join "/" xs) = xs.
Proof.
  induction 1 as [|x xs Hx Hxs IH]; [done|].
  destruct xs as [|y ys].
  - simpl. by apply segments_plain.
  - change (Str.join "/" (x :: y :: ys)) with (x +:+ "/" +:+ Str.join "/" (y :: ys)).
    by rewrite segments_app_slash, IH, segments_plain.
Qed.

Lemma join_nonempty xs e :
  Str.nonempty e = true -> Str.nonempty (Str.join "/" (xs ++ [e])) = true.
Proof.
  intros He. induction xs as [|x xs IH]; [done|].
  destruct (xs ++ [e]) as [|y ys] eqn:E; [by destruct xs|].
  change (Str.join "/" ((x :: xs) ++ [e])) with (Str.join "/" (x :: xs ++ [e])).
  rewrite E. change (Str.join "/" (x :: y :: ys)) with (x +:+ "/" +:+ Str.join "/" (y :: ys)).
  by destruct x.
Qed.

Lemma isAbsolute_join xs :
  Forall (fun x => plain x = true) xs ->
  Path.isAbsolute (Str.join "/" xs) = false.
Proof.
  intros H. destruct H as [|x xs Hx Hxs]; [done|].
  assert (Path.isAbsolute x = false) as Hax.
  { destruct x as [|c x]; [done|]. apply andb_prop in Hx as [_ Hx].
    simpl in Hx. apply andb_prop in Hx as [Hc _]. simpl.
    by apply negb_true_iff in Hc. }
  destruct xs as [|y ys]; [done|].
  change (Str.join "/" (x :: y :: ys)) with (x +:+ "/" +:+ Str.join "/" (y :: ys)).
  destruct x; [by apply andb_prop in Hx as [? _]|]. done.
Qed.

Lemma isAbsolute_app a b :
  Str.nonempty a = true -> Path.isAbsolute (a +:+ b) = Path.isAbsolute a.
Proof. by destruct a. Qed.

Lemma normalizeString_fold a acc segs :
  Path.normalizeString a acc segs = rev (foldl (ns_step a) acc segs).
Proof.
  revert acc. induction segs as [|s segs IH]; intros acc; [done|].
  simpl. unfold ns_step at 2.
  destruct (String.eqb s "."); [apply IH|].
  destruct (String.eqb s ".."); [|apply IH].
  destruct acc as [|x acc]; [destruct a; apply IH|].
  destruct (String.eqb x ".."); apply IH.
Qed.

Lemma is_name_spec s :
  is_name s = true -> plain s = true /\ s <> "." /\ s <> "..".
Proof.
  unfold is_name. intros [[H1 H2]%andb_prop H3]%andb_prop.
  apply negb_true_iff, String.eqb_neq in H2, H3. done.
Qed.

Lemma ns_step_name a acc s : is_name s = true -> ns_step a acc s = s :: acc.
Proof.
  intros (_ & H1 & H2)%is_name_spec. unfold ns_step.
  apply String.eqb_neq in H1, H2. by rewrite H1, H2.
Qed.

Lemma foldl_ns_step_names a acc xs :
  Forall (fun s => is_name s = true) xs ->
  foldl (ns_step a) acc xs = rev xs ++ acc.
Proof.
  intros H. revert acc. induction H as [|x xs Hx Hxs IH]; intros acc; [done|].
  simpl. rewrite ns_step_name, IH, <- app_assoc; done.
Qed.

(** Without [allowAboveRoot] only names are kept. *)
Lemma foldl_ns_step_false_names acc segs :
  Forall (fun s => is_name s = true) acc ->
  Forall (fun s => plain s = true) segs ->
  Forall (fun s => is_name s = true) (foldl (ns_step false) acc segs).
Proof.
  intros Hacc Hsegs. revert acc Hacc.
  induction Hsegs as [|s segs Hs Hsegs IH]; intros acc Hacc; [done|].
  simpl. apply IH. unfold ns_step.
  destruct (String.eqb s ".") eqn:E1; [done|].
  destruct (String.eqb s "..") eqn:E2.
  - destruct acc as [|x acc]; [done|]. inversion Hacc; subst.
    destruct (String.eqb x "..") eqn:E3; [|done].
    apply String.eqb_eq in E3. subst. done.
  - constructor; [|done]. unfold is_name. by rewrite Hs, E1, E2.
Qed.

(** Normalising first, with or without [allowAboveRoot], does not change
    where a list of components leads. *)
Lemma foldl_ns_step_normalized a acc0 acc2 segs :
  Forall (fun s => s <> ".") acc2 ->
  (a = false -> acc0 = [] /\ Forall (fun s => s <> "..") acc2) ->
  foldl (ns_step false) acc0 (rev (foldl (ns_step a) acc2 segs))
  = foldl (ns_step false) acc0 (rev acc2 ++ segs).
Proof.
  revert acc2. induction segs as [|s segs IH]; intros acc2 Hdot Hdd.
  - by rewrite app_nil_r.
  - cbn [foldl]. replace (rev acc2 ++ s :: segs) with ((rev acc2 ++ [s]) ++ segs)
      by (by rewrite <- app_assoc).
    rewrite foldl_app. cbn [foldl].
    assert (foldl (ns_step false) acc0 (rev (ns_step a acc2 s))
            = ns_step false (foldl (ns_step false) acc0 (rev acc2)) s) as Hstep.
    { unfold ns_step at 2 3.
      destruct (String.eqb s ".") eqn:E1; [done|].
      destruct (String.eqb s "..") eqn:E2.
      - apply String.eqb_eq in E2. subst s.
        destruct acc2 as [|x acc2].
        + destruct a; simpl; [done|].
          by destruct (Hdd eq_refl) as [-> _].
        + inversion Hdot as [|? ? Hx Hdot']; subst.
          destruct (String.eqb x "..") eqn:E3.
          * apply String.eqb_eq in E3. subst x.
            destruct a; [|by destruct (Hdd eq_refl) as [_ Hdd']; inversion Hdd'].
            simpl. rewrite !foldl_app. simpl. done.
          * simpl. rewrite foldl_app. simpl.
            set (X := foldl (ns_step false) acc0 (rev acc2)).
            apply String.eqb_neq in Hx. unfold ns_step. rewrite Hx, E3.
            simpl. by rewrite E3.
      - simpl. rewrite foldl_app. simpl. unfold ns_step at 1. by rewrite E1, E2. }
    rewrite IH.
    { rewrite !foldl_app. simpl. by rewrite Hstep. }
    + unfold ns_step. destruct (String.eqb s ".") eqn:E1; [done|].
      destruct (String.eqb s "..") eqn:E2.
      * destruct acc2 as [|x acc2]; [by destruct a; repeat constructor|].
        inversion Hdot; subst.
        destruct (String.eqb x ".."); [by repeat constructor|done].
      * constructor; [|done]. by apply String.eqb_neq.
    + intros ->. destruct (Hdd eq_refl) as [-> Hdd']. split; [done|].
      unfold ns_step.
      destruct (String.eqb s ".") eqn:E1; [done|].
      destruct (String.eqb s "..") eqn:E2.
      * destruct acc2 as [|x acc2]; [done|]. inversion Hdd'; subst.
        destruct (String.eqb x "..") eqn:E3; [|done].
        by apply String.eqb_eq in E3.
      * constructor; [|done]. by apply String.eqb_neq.
Qed.

Lemma ns_step_plain a acc s :
  Forall (fun x => plain x = true) acc -> plain s = true ->
  Forall (fun x => plain x = true) (ns_step a acc s).
Proof.
  intros Hacc Hs. unfold ns_step.
  destruct (String.eqb s "."); [done|].
  destruct (String.eqb s "..").
  - destruct acc as [|x acc]; [by destruct a; repeat constructor|].
    inversion Hacc; subst. destruct (String.eqb x ".."); [|done].
    by repeat constructor.
  - by constructor.
Qed.

Lemma foldl_ns_step_plain a acc segs :
  Forall (fun x => plain x = true) acc ->
  Forall (fun x => plain x = true) segs ->
  Forall (fun x => plain x = true) (foldl (ns_step a) acc segs).
Proof.
  intros Hacc Hsegs. revert acc Hacc.
  induction Hsegs as [|s segs Hs Hsegs IH]; intros acc Hacc; [done|].
  simpl. apply IH. by apply ns_step_plain.
Qed.

Lemma join_empty xs :
  Forall (fun x => plain x = true) xs ->
  Str.nonempty (Str.join "/" xs) = false -> xs = [].
Proof.
  intros H. destruct H as [|x xs Hx Hxs]; [done|].
  intros Hn. exfalso. apply andb_prop in Hx as [Hx _].
  destruct xs as [|y ys]; simpl in Hn; [congruence|].
  destruct x; simpl in *; congruence.
Qed.

(** What [path.normalize] returns: the normalised components, between the
    leading and the trailing separator of the argument. *)
Lemma normalize_shape p :
  Str.nonempty p = true ->
  let ns := Path.normalizeString (negb (Path.isAbsolute p)) [] (Path.segments p) in
  (ns = [] /\
   Path.normalize p = (if Path.isAbsolute p then "/"
                       else if Str.endsWith p "/" then "./" else ".")) \/
  (ns <> [] /\ Path.segments (Path.normalize p) = ns /\
   Path.isAbsolute (Path.normalize p) = Path.isAbsolute p).
Proof.
  intros Hp ns. unfold Path.normalize. rewrite Hp. cbn [negb]. fold ns.
  assert (Forall (fun x => plain x = true) ns) as Hns.
  { subst ns. rewrite normalizeString_fold. apply Forall_rev.
    apply foldl_ns_step_plain; [done|apply segments_all_plain]. }
  destruct (Str.nonempty (Str.join "/" ns)) eqn:Hbody; cbn [negb].
  - right. assert (ns <> []) as Hne by (intros E; by rewrite E in Hbody).
    split; [done|].
    destruct (Str.endsWith p "/"), (Path.isAbsolute p);
      rewrite ?segments_slash_first, ?segments_slash_last, segments_join by done;
      (split; [done|]); try done.
    + rewrite isAbsolute_app by done. by apply isAbsolute_join.
    + by apply isAbsolute_join.
  - left. split; [by apply join_empty|done].
Qed.

Lemma resolve_eq fs p :
  resolve fs p =
  rev (foldl (ns_step false)
         (foldl (ns_step false) [] (if Path.isAbsolute p then [] else cwd fs))
         (Path.segments p)).
Proof. unfold resolve. by rewrite normalizeString_fold, foldl_app. Qed.

(** The file system resolves a path and its normal form to the same entry. *)
Lemma resolve_normalize fs p : resolve fs (Path.normalize p) = resolve fs p.
Proof.
  destruct (Str.nonempty p) eqn:Hp.
  - destruct (normalize_shape p Hp) as [[Hns Hn]|(Hne & Hseg & Habs)].
    + rewrite normalizeString_fold in Hns.
      apply (f_equal (@rev string)) in Hns. rewrite rev_involutive in Hns.
      simpl in Hns.
      rewrite Hn, (resolve_eq fs p).
      destruct (Path.isAbsolute p) eqn:Habs; cbn [negb] in Hns.
      * cbn [foldl]. rewrite Hns. reflexivity.
      * pose proof (foldl_ns_step_normalized true
                      (foldl (ns_step false) [] (cwd fs)) [] (Path.segments p)
                      ltac:(done) ltac:(done)) as H.
        rewrite Hns in H. simpl in H. rewrite <- H.
        destruct (Str.endsWith p "/"); rewrite resolve_eq; simpl;
          by rewrite ?foldl_app.
    + rewrite (resolve_eq fs (Path.normalize p)), Hseg, Habs, (resolve_eq fs p).
      f_equal. rewrite normalizeString_fold.
      destruct (Path.isAbsolute p) eqn:E; cbn [negb].
      * by rewrite (foldl_ns_step_normalized false [] []) by done.
      * by rewrite (foldl_ns_step_normalized true _ []) by done.
  - destruct p; [|done]. unfold Path.normalize. simpl.
    rewrite !resolve_eq. simpl. done.
Qed.

Lemma resolve_child fs dir e :
  Str.nonempty dir = true -> is_name e = true ->
  resolve fs (dir +:+ "/" +:+ e) = resolve fs dir ++ [e].
Proof.
  intros Hd He. rewrite !resolve_eq, segments_app_slash, isAbsolute_app by done.
  destruct (is_name_spec e He) as (Hpl & _).
  rewrite (segments_plain e), foldl_app by done. simpl.
  by rewrite ns_step_name by done.
Qed.

Lemma is_name_nonempty e : is_name e = true -> Str.nonempty e = true.
Proof. intros (Hpl & _)%is_name_spec. by apply andb_prop in Hpl as [? _]. Qed.

(** [path.join(dir, entry)] names the entry [entry] of [dir]. *)
Lemma resolve_join fs dir e :
  is_name e = true ->
  resolve fs (Path.join dir e) = resolve fs dir ++ [e].
Proof.
  intros He. unfold Path.join. rewrite (is_name_nonempty e He).
  destruct (Str.nonempty dir) eqn:Hd.
  - by rewrite resolve_normalize, resolve_child.
  - destruct dir; [|done]. rewrite resolve_normalize, !resolve_eq.
    destruct (is_name_spec e He) as (Hpl & _).
    assert (Path.isAbsolute e = false) as ->.
    { pose proof (isAbsolute_join [e]) as H. simpl in H. apply H.
      by repeat constructor. }
    simpl. rewrite segments_plain by done. simpl.
    by rewrite ns_step_name by done.
Qed.

(** The string [path.join(dir, entry)] is never one that [removeDirectory]
    holds back. *)
Lemma join_not_guarded dir e : is_name e = true -> guarded (Path.join dir e) = false.
Proof.
  intros He.
  assert (exists xs, Path.segments (Path.join dir e) = xs ++ [e]) as [xs Hxs].
  { destruct (is_name_spec e He) as (Hpl & _).
    assert (forall p ys, Str.nonempty p = true -> Path.segments p = ys ++ [e] ->
                         exists xs, Path.segments (Path.normalize p) = xs ++ [e]) as Hnorm.
    { intros p ys Hp Hseg.
      destruct (normalize_shape p Hp) as [[Hns _]|(_ & -> & _)].
      - exfalso. rewrite Hseg, normalizeString_fold, foldl_app in Hns.
        simpl in Hns. rewrite ns_step_name in Hns by done.
        simpl in Hns. by destruct (rev _).
      - rewrite Hseg, normalizeString_fold, foldl_app. simpl.
        rewrite ns_step_name by done. simpl. eauto. }
    unfold Path.join. rewrite (is_name_nonempty e He).
    destruct (Str.nonempty dir) eqn:Hd.
    - apply (Hnorm _ (Path.segments dir)).
      + by destruct dir.
      + by rewrite segments_app_slash, (segments_plain e).
    - apply (Hnorm _ []); [by apply is_name_nonempty|by apply segments_plain]. }
  unfold guarded.
  destruct (String.eqb_spec (Path.join dir e) "/") as [E|_].
  { rewrite E in Hxs. by destruct xs. }
  destruct (String.eqb_spec (Path.join dir e) "./") as [E|_]; [|done].
  rewrite E in Hxs. destruct xs as [|x [|y xs]]; try done.
  injection Hxs as <-. done.
Qed.

(** ** Well-formed disks and the operations of [fs] *)

Lemma resolve_names fs p :
  Forall (fun s => is_name s = true) (cwd fs) ->
  Forall (fun s => is_name s = true) (resolve fs p).
Proof.
  intros Hcwd. rewrite resolve_eq. apply Forall_rev.
  apply foldl_ns_step_false_names; [|apply segments_all_plain].
  apply foldl_ns_step_false_names; [done|].
  destruct (Path.isAbsolute p); [done|].
  eapply Forall_impl; [exact Hcwd|]. intros s Hs. by apply is_name_spec in Hs as [? _].
Qed.

Lemma snoc_inv {A} (k : list A) :
  k <> [] -> exists P n, k = P ++ [n] /\ removelast k = P /\ last k = Some n.
Proof.
  intros Hk. destruct (proj2 (last_is_Some k) Hk) as [n Hn].
  destruct (proj1 (last_Some k n) Hn) as [P ->].
  exists P, n. by rewrite removelast_last.
Qed.

Lemma elem_of_children fs P n :
  n ∈ children fs P <-> is_Some (nodes fs !! (P ++ [n])).
Proof.
  unfold children. rewrite list_elem_of_omap. split.
  - intros (k & Hk & Hf). apply list_elem_of_fmap in Hk as ([k' v] & -> & Hkv).
    apply elem_of_map_to_list in Hkv. simpl in Hf.
    destruct (decide (removelast k' = P)) as [<-|]; [|done].
    apply last_Some in Hf as [P' ->]. rewrite removelast_last. eauto.
  - intros [v Hv]. exists (P ++ [n]). split.
    + apply list_elem_of_fmap. exists (P ++ [n], v). split; [done|].
      by apply elem_of_map_to_list.
    + rewrite removelast_last, decide_True by done. apply last_snoc.
Qed.

Lemma children_nil fs P :
  children fs P = [] <-> forall n, nodes fs !! (P ++ [n]) = None.
Proof.
  split.
  - intros H n. destruct (nodes fs !! (P ++ [n])) eqn:E; [|done].
    assert (n ∈ children fs P) as Hn by (apply elem_of_children; eauto).
    rewrite H in Hn. by apply not_elem_of_nil in Hn.
  - intros H. destruct (children fs P) as [|n l] eqn:E; [done|].
    assert (n ∈ children fs P) as Hn by (rewrite E; left).
    apply elem_of_children in Hn as [v Hv]. by rewrite H in Hv.
Qed.

Lemma node_at_lookup fs k : k <> [] -> node_at fs k = nodes fs !! k.
Proof. by destruct k. Qed.

(** Putting an entry where there was none, or a file over a file. *)
Lemma wf_insert fs k kind :
  wf fs -> k <> [] -> Forall (fun s => is_name s = true) k ->
  node_at fs (removelast k) = Some Dir ->
  (kind = Dir \/ node_at fs k <> Some Dir) ->
  wf (with_nodes fs (<[k := kind]> (nodes fs))).
Proof.
  intros [Hcwd Hwf] Hk Hnames Hparent Hkind. split; [done|].
  intros k' Hk'. simpl in Hk'.
  assert (forall q, q <> k -> node_at (with_nodes fs (<[k:=kind]> (nodes fs))) q
                               = node_at fs q) as Hother.
  { intros q Hq. destruct q; [done|]. simpl. by rewrite lookup_insert_ne. }
  destruct (decide (k' = k)) as [->|Hne].
  - split; [done|]. split; [done|]. rewrite Hother; [done|].
    destruct (snoc_inv k Hk) as (P & n & -> & -> & _).
    intros E. apply (f_equal length) in E. rewrite length_app in E. simpl in E. lia.
  - simpl in Hk'. rewrite lookup_insert_ne in Hk' by done.
    destruct (Hwf k' Hk') as (H1 & H2 & H3). split; [done|]. split; [done|].
    destruct (decide (removelast k' = k)) as [E|E]; [|by rewrite Hother].
    rewrite E in *. rewrite node_at_lookup by done. simpl.
    rewrite lookup_insert_eq. destruct Hkind as [->|Hc]; [done|]. by rewrite H3 in Hc.
Qed.

(** Taking away entries, each with all that lies below it. *)
Lemma wf_remove (fs fs' : FS) (R : list string -> Prop)
  `{forall k, Decision (R k)} :
  wf fs -> cwd fs' = cwd fs ->
  (forall k, nodes fs' !! k = if decide (R k) then None else nodes fs !! k) ->
  (forall k, k <> [] -> R (removelast k) -> R k) ->
  wf fs'.
Proof.
  intros [Hcwd Hwf] Hc Hm Hup. split; [by rewrite Hc|].
  intros k [v Hk]. rewrite Hm in Hk.
  destruct (decide (R k)) as [|HR]; [done|].
  destruct (Hwf k) as (H1 & H2 & H3); [eauto|].
  split; [done|]. split; [done|].
  destruct (removelast k) as [|x P] eqn:EP; [done|].
  simpl in *. rewrite Hm. rewrite <- EP in *.
  destruct (decide (R (removelast k))) as [HRP|]; [|done].
  exfalso. apply HR. by apply Hup.
Qed.

Lemma mkdir_walk_wf todo : forall fs seen,
  wf fs -> node_at fs seen = Some Dir ->
  Forall (fun s => is_name s = true) (seen ++ todo) ->
  wf (mkdir_walk fs seen todo).1 /\ cwd (mkdir_walk fs seen todo).1 = cwd fs.
Proof.
  induction todo as [|name todo IH]; intros fs seen Hwf Hseen Hnames; [done|].
  cbn [mkdir_walk].
  assert (Forall (fun s => is_name s = true) (seen ++ [name])) as Hhere.
  { rewrite Forall_app in Hnames |- *. destruct Hnames as [? Hn].
    inversion Hn; subst. split; [done|]. by repeat constructor. }
  assert (Forall (fun s => is_name s = true) ((seen ++ [name]) ++ todo)) as Hrest
    by (by rewrite <- app_assoc).
  destruct (node_at fs (seen ++ [name])) as [[|]|] eqn:E.
  - done.
  - by apply IH.
  - destruct (IH (with_nodes fs (<[seen ++ [name] := Dir]> (nodes fs))) (seen ++ [name]))
      as [H1 H2]; try done.
    + apply wf_insert; try done.
      * by destruct seen.
      * by rewrite removelast_last.
      * by left.
    + rewrite node_at_lookup by (by destruct seen). simpl. by rewrite lookup_insert_eq.
Qed.

Lemma mkdirSync_wf fs p :
  wf fs -> wf (mkdirSync fs p).1 /\ cwd (mkdirSync fs p).1 = cwd fs.
Proof.
  intros Hwf. unfold mkdirSync. destruct (negb (Str.nonempty p)); [done|].
  apply (mkdir_walk_wf (resolve fs p) fs [] Hwf eq_refl).
  simpl. apply resolve_names. exact (proj1 Hwf).
Qed.

Lemma createWriteStream_wf fs p :
  wf fs -> wf (createWriteStream fs p).1 /\ cwd (createWriteStream fs p).1 = cwd fs.
Proof.
  intros Hwf. unfold createWriteStream.
  destruct (negb (names_a_file p)); [done|].
  destruct (node_at fs (removelast (resolve fs p))) as [[|]|] eqn:E1; try done.
  destruct (node_at fs (resolve fs p)) as [[|]|] eqn:E2; try done; simpl;
    (split; [|done]); apply wf_insert; try done;
    try (by intros E; rewrite E in E2);
    try (apply resolve_names; exact (proj1 Hwf)); try (right; congruence).
Qed.

Lemma foldl_createWriteStream_wf fs paths :
  wf fs ->
  wf (foldl (fun fs p => (createWriteStream fs p).1) fs paths) /\
  cwd (foldl (fun fs p => (createWriteStream fs p).1) fs paths) = cwd fs.
Proof.
  revert fs. induction paths as [|p paths IH]; intros fs Hwf; [done|].
  simpl. destruct (createWriteStream_wf fs p Hwf) as [H1 H2].
  destruct (IH _ H1) as [H3 H4]. split; [done|congruence].
Qed.

(** ** [removeDirectory] removes the directory *)

Lemma resolve_cwd fs fs' p : cwd fs = cwd fs' -> resolve fs p = resolve fs' p.
Proof. unfold resolve. by intros ->. Qed.

Lemma prefix_removelast (P k : list string) :
  k <> [] -> P `prefix_of` removelast k -> P `prefix_of` k.
Proof.
  intros Hk [s Hs]. destruct (snoc_inv k Hk) as (Q & n & -> & HQ & _).
  rewrite HQ in Hs. exists (s ++ [n]). by rewrite Hs, app_assoc.
Qed.

(** In a well-formed disk every entry above an entry is a directory. *)
Lemma wf_ancestors fs k q :
  wf fs -> is_Some (nodes fs !! k) ->
  q `prefix_of` k -> q <> [] -> q <> k -> nodes fs !! q = Some Dir.
Proof.
  intros Hwf Hk [s Hs]. revert k Hk Hs.
  induction s as [|x s IH] using rev_ind; intros k Hk Hs Hq Hne.
  - rewrite app_nil_r in Hs. congruence.
  - destruct (proj2 Hwf k Hk) as (_ & _ & Hparent).
    rewrite Hs, app_assoc, removelast_last in Hparent.
    destruct (decide (s = [])) as [->|Hs'].
    + rewrite app_nil_r in Hparent. by rewrite node_at_lookup in Hparent.
    + apply (IH (q ++ s)); try done.
      * rewrite node_at_lookup in Hparent by (by destruct q). rewrite Hparent. eauto.
      * intros E. apply (f_equal length) in E. rewrite length_app in E.
        destruct s; [done|]. simpl in E. lia.
Qed.

Lemma wf_self_or_ancestor fs k q :
  wf fs -> is_Some (nodes fs !! k) -> q `prefix_of` k -> q <> [] ->
  is_Some (nodes fs !! q).
Proof.
  intros Hwf Hk Hq Hne. destruct (decide (q = k)) as [->|Hneq]; [done|].
  rewrite (wf_ancestors fs k q); eauto.
Qed.

Lemma removeDirectory_S fuel d dir :
  removeDirectory (S fuel) d dir =
  if guarded dir then (d, Ok tt)
  else if existsSync (disk d) dir then
    match readdirSync (disk d) dir with
    | Ok entries =>
        match forEach (rd_body fuel dir) d entries with
        | (d', Ok _) =>
            match rmdirSync (disk d') dir with
            | (fs', Ok _) => ({| disk := fs'; console := console d' |}, Ok tt)
            | (fs', Throw e) =>
                ({| disk := fs'; console := console d' ++ [e] |}, Ok tt)
            | (fs', Never) => ({| disk := fs'; console := console d' |}, Never)
            end
        | (d', r) => (d', r)
        end
    | Throw e => (d, Throw e)
    | Never => (d, Never)
    end
  else (d, Ok tt).
Proof. reflexivity. Qed.


(** ** What a path string names *)

Lemma endsWith_slash_cons c s :
  Str.nonempty s = true -> Str.endsWith (String c s) "/" = Str.endsWith s "/".
Proof.
  intros Hs. unfold Str.endsWith. change (String.length "/") with 1%nat.
  destruct s as [|d s]; [done|]. cbn [String.length].
  replace (S (S (String.length s)) - 1)%nat with (S (String.length s)) by lia.
  replace (S (String.length s) - 1)%nat with (String.length s) by lia.
  done.
Qed.

Lemma endsWith_slash_app a b :
  Str.nonempty b = true -> Str.endsWith (a +:+ b) "/" = Str.endsWith b "/".
Proof.
  intros Hb. induction a as [|c a IH]; [done|].
  change (String c a +:+ b) with (String c (a +:+ b)).
  rewrite endsWith_slash_cons; [done|]. destruct a; [done|done].
Qed.

Lemma endsWith_slash_free e : slash_free e = true -> Str.endsWith e "/" = false.
Proof.
  induction e as [|c e IH]; [done|]. simpl. intros [Hc He]%andb_prop.
  destruct e as [|d e].
  - unfold Str.endsWith. simpl. apply negb_true_iff in Hc.
    unfold Path.slash in Hc. destruct c as [b0 b1 b2 b3 b4 b5 b6 b7].
    simpl in *. destruct b0, b1, b2, b3, b4, b5, b6, b7; simpl in *; congruence.
  - rewrite endsWith_slash_cons by done. by apply IH.
Qed.

Lemma append_assoc a b c : (a +:+ b) +:+ c = a +:+ b +:+ c.
Proof.
  induction a as [|x a IH]; [done|].
  change (String x ((a +:+ b) +:+ c) = String x (a +:+ b +:+ c)). by f_equal.
Qed.

Lemma join_last xs e : exists t, Str.join "/" (xs ++ [e]) = t +:+ e.
Proof.
  induction xs as [|x xs [t IH]]; [by exists EmptyString|].
  destruct (xs ++ [e]) as [|y ys] eqn:E; [by destruct xs|].
  change (Str.join "/" ((x :: xs) ++ [e])) with (Str.join "/" (x :: xs ++ [e])).
  rewrite E. change (Str.join "/" (x :: y :: ys)) with (x +:+ "/" +:+ Str.join "/" (y :: ys)).
  rewrite IH. exists (x +:+ "/" +:+ t).
  by rewrite !append_assoc.
Qed.

Lemma ends_in_child dir e : is_name e = true -> ends_in (dir +:+ "/" +:+ e) e.
Proof.
  intros He. destruct (is_name_spec e He) as (Hpl & _).
  pose proof Hpl as [Hne Hsf]%andb_prop.
  split; [by destruct dir|]. split.
  - rewrite endsWith_slash_app by done.
    change ("/" +:+ e) with (String Path.slash e).
    rewrite endsWith_slash_cons by done. by apply endsWith_slash_free.
  - unfold last_segment. rewrite segments_app_slash, (segments_plain e) by done.
    by rewrite last_snoc.
Qed.

Lemma ends_in_normalize p xs e :
  is_name e = true -> Str.nonempty p = true -> Str.endsWith p "/" = false ->
  Path.segments p = xs ++ [e] -> ends_in (Path.normalize p) e.
Proof.
  intros He Hp Hend Hseg. destruct (is_name_spec e He) as (Hpl & _).
  pose proof Hpl as [Hne Hsf]%andb_prop.
  assert (exists ys, Path.normalizeString (negb (Path.isAbsolute p)) []
                       (Path.segments p) = ys ++ [e]) as [ys Hys].
  { rewrite Hseg, normalizeString_fold, foldl_app. simpl.
    rewrite ns_step_name by done. simpl. eauto. }
  unfold Path.normalize. rewrite Hp, Hend, Hys. cbn [negb].
  rewrite (join_nonempty ys e Hne). cbn [negb].
  destruct (join_last ys e) as [t Ht].
  assert (Forall (fun x => plain x = true) (ys ++ [e])) as Hall.
  { rewrite <- Hys, normalizeString_fold. apply Forall_rev.
    apply foldl_ns_step_plain; [done|apply segments_all_plain]. }
  split; [destruct (Path.isAbsolute p); [done|by apply join_nonempty]|].
  split.
  - rewrite Ht. destruct (Path.isAbsolute p).
    + rewrite <- append_assoc, endsWith_slash_app by done.
      by apply endsWith_slash_free.
    + rewrite endsWith_slash_app by done. by apply endsWith_slash_free.
  - unfold last_segment.
    destruct (Path.isAbsolute p);
      rewrite ?segments_slash_first, segments_join, last_snoc by done; done.
Qed.

(** [path.join(dir, entry)] ends in [entry]. *)
Lemma ends_in_join dir e : is_name e = true -> ends_in (Path.join dir e) e.
Proof.
  intros He. destruct (is_name_spec e He) as (Hpl & _).
  pose proof Hpl as [Hne Hsf]%andb_prop.
  unfold Path.join. rewrite Hne. destruct (Str.nonempty dir) eqn:Hd.
  - apply (ends_in_normalize _ (Path.segments dir)); try done.
    + by destruct dir.
    + rewrite endsWith_slash_app by done.
      change ("/" +:+ e) with (String Path.slash e).
      rewrite endsWith_slash_cons by done. by apply endsWith_slash_free.
    + by rewrite segments_app_slash, (segments_plain e).
  - apply (ends_in_normalize _ []); try done.
    + by apply endsWith_slash_free.
    + by apply segments_plain.
Qed.

Lemma ends_in_names_a_file p e :
  ends_in p e -> is_name e = true -> names_a_file p = true.
Proof.
  intros (Hp & Hend & Hlast) He. unfold names_a_file. rewrite Hend, Hlast.
  destruct (is_name_spec e He) as (Hpl & H1 & H2).
  apply andb_prop in Hpl as [-> _]. apply String.eqb_neq in H1, H2.
  by rewrite H1, H2.
Qed.

Lemma lookup_Ok fs p P k :
  lookup fs p = Ok (P, k) ->
  Str.nonempty p = true /\ P = resolve fs p /\ node_at fs P = Some k.
Proof.
  unfold lookup. destruct (Str.nonempty p); [|done]. cbn [negb].
  destruct (node_at fs (resolve fs p)) as [[|]|] eqn:E; [| |done].
  - destruct (Str.endsWith p "/"); [done|]. by intros [= <- <-].
  - by intros [= <- <-].
Qed.

Lemma lookup_not_never fs p : lookup fs p <> Never.
Proof.
  unfold lookup. destruct (negb (Str.nonempty p)); [done|].
  destruct (node_at fs (resolve fs p)) as [[|]|]; [|done|done].
  by destruct (Str.endsWith p "/").
Qed.

Lemma lookup_dir fs p :
  Str.nonempty p = true -> node_at fs (resolve fs p) = Some Dir ->
  lookup fs p = Ok (resolve fs p, Dir).
Proof. intros Hp H. unfold lookup. by rewrite Hp, H. Qed.

Lemma lookup_file fs p :
  Str.nonempty p = true -> Str.endsWith p "/" = false ->
  node_at fs (resolve fs p) = Some File ->
  lookup fs p = Ok (resolve fs p, File).
Proof. intros Hp He H. unfold lookup. by rewrite Hp, H, He. Qed.

Lemma lookup_none fs p :
  node_at fs (resolve fs p) = None -> exists e, lookup fs p = Throw e.
Proof.
  intros H. unfold lookup. destruct (negb (Str.nonempty p)); [eauto|].
  rewrite H. eauto.
Qed.

(** What is at a path that ends in a name. *)
Lemma lookup_ends_in fs p e :
  ends_in p e ->
  lookup fs p =
  match node_at fs (resolve fs p) with
  | Some k => Ok (resolve fs p, k)
  | None => Throw (missing fs (resolve fs p))
  end.
Proof.
  intros (Hp & Hend & _). unfold lookup. rewrite Hp, Hend. cbn [negb].
  by destruct (node_at fs (resolve fs p)) as [[|]|].
Qed.

Lemma existsSync_ends_in fs p e :
  ends_in p e ->
  existsSync fs p = bool_decide (is_Some (node_at fs (resolve fs p))).
Proof.
  intros H. unfold existsSync. rewrite (lookup_ends_in fs p e H).
  destruct (node_at fs (resolve fs p)).
  - by rewrite bool_decide_eq_true_2.
  - rewrite bool_decide_eq_false_2; [done|]. by intros [? ?].
Qed.

(** Sorting a listing changes neither its names nor their number. *)
Lemma sorted_elem_of (l : list string) x : x ∈ merge_sort Str.le l <-> x ∈ l.
Proof. by rewrite merge_sort_Permutation. Qed.

Lemma sorted_nil (l : list string) : merge_sort Str.le l = [] <-> l = [].
Proof.
  split; [|by intros ->].
  intros H. apply Permutation_nil_r. rewrite <- H. symmetry.
  apply merge_sort_Permutation.
Qed.
Lemma snoc_not_nil {A} (P : list A) e : P ++ [e] <> [].
Proof. by destruct P. Qed.

Lemma unlinkSync_file fs p e :
  ends_in p e ->
  node_at fs (resolve fs p) = Some File ->
  unlinkSync fs p = (with_nodes fs (delete (resolve fs p) (nodes fs)), Ok tt).
Proof.
  intros He H. unfold unlinkSync. by rewrite (lookup_ends_in fs p e He), H.
Qed.

Lemma segments_none_absolute dir :
  Str.nonempty dir = true -> Path.segments dir = [] -> Path.isAbsolute dir = true.
Proof.
  destruct dir as [|c s]; [done|]. intros _ H. simpl.
  destruct (Ascii.eqb c Path.slash) eqn:E; [done|]. exfalso.
  unfold Path.segments in H. simpl in H. rewrite E in H.
  pose proof (split_nonempty Path.slash s) as Hne.
  destruct (Str.split Path.slash s) as [|h t]; [done|].
  by rewrite filter_cons_True in H.
Qed.

Lemma last_segment_plain dir :
  Path.segments dir <> [] -> plain (last_segment dir) = true.
Proof.
  intros H. unfold last_segment.
  destruct (snoc_inv _ H) as (xs & e & Hx & _ & Hl). rewrite Hl. simpl.
  pose proof (segments_all_plain dir) as Hall. rewrite Hx in Hall.
  apply Forall_app in Hall as [_ Hall]. by inversion Hall.
Qed.

(** A path that resolves below the root and does not end in [.] or [..]
    ends in a name. *)
Lemma last_segment_name fs dir :
  Str.nonempty dir = true -> resolve fs dir <> [] ->
  String.eqb (last_segment dir) "." = false ->
  String.eqb (last_segment dir) ".." = false ->
  is_name (last_segment dir) = true.
Proof.
  intros Hne HP H1 H2. unfold is_name. rewrite H1, H2.
  destruct (Path.segments dir) as [|x xs] eqn:E.
  - exfalso. apply HP. rewrite resolve_eq, E.
    by rewrite (segments_none_absolute dir Hne E).
  - rewrite last_segment_plain; [done|]. by rewrite E.
Qed.

Lemma ends_in_not_guarded p e : ends_in p e -> is_name e = true -> guarded p = false.
Proof.
  intros (Hp & Hend & Hlast) He. unfold guarded.
  destruct (String.eqb_spec p "/") as [->|_]; [done|].
  destruct (String.eqb_spec p "./") as [->|_]; [done|]. done.
Qed.

Lemma forEach_removes fuel dir :
  (forall d sub d', wf (disk d) -> removeDirectory fuel d sub = (d', Ok tt) ->
                    removed d sub d') ->
  forall es d0 d1,
    wf (disk d0) ->
    Forall (fun e => is_name e = true) es ->
    forEach (rd_body fuel dir) d0 es = (d1, Ok tt) ->
    wf (disk d1) /\ cwd (disk d1) = cwd (disk d0) /\
    forall k, nodes (disk d1) !! k =
              if decide (Exists (fun e => (resolve (disk d0) dir ++ [e]) `prefix_of` k) es)
              then None else nodes (disk d0) !! k.
Proof.
  intros IH es. induction es as [|e es IHes]; intros d0 d1 Hwf Hes Hrun.
  - simpl in Hrun. injection Hrun as <-. split; [done|]. split; [done|].
    intros k. rewrite decide_False; [done|]. intros Hex. inversion Hex.
  - inversion Hes as [|? ? He Hes']; subst. cbn [forEach] in Hrun.
    set (P := resolve (disk d0) dir) in *.
    destruct (rd_body fuel dir d0 e) as [dm [[]|err|]] eqn:Hbody; try done.
    assert (wf (disk dm) /\ cwd (disk dm) = cwd (disk d0) /\
            forall k, nodes (disk dm) !! k =
                      if decide ((P ++ [e]) `prefix_of` k) then None
                      else nodes (disk d0) !! k) as (Hwfm & Hcwd & Hm).
    { clear Hrun IHes. unfold rd_body, lstatSync_isDirectory in Hbody.
      pose proof (ends_in_join dir e He) as Hends.
      rewrite (lookup_ends_in _ _ _ Hends) in Hbody.
      rewrite (resolve_join (disk d0) dir e He) in Hbody. fold P in Hbody.
      rewrite node_at_lookup in Hbody by apply snoc_not_nil.
      destruct (nodes (disk d0) !! (P ++ [e])) as [[|]|] eqn:E; [| |done].
      - (* a file: [unlinkSync] *)
        rewrite (unlinkSync_file _ _ e) in Hbody;
          [|done|rewrite (resolve_join (disk d0) dir e He); fold P;
                 by rewrite node_at_lookup by apply snoc_not_nil].
        rewrite (resolve_join (disk d0) dir e He) in Hbody. fold P in Hbody.
        injection Hbody as <-. simpl.
        assert (forall k, delete (P ++ [e]) (nodes (disk d0)) !! k =
                          if decide ((P ++ [e]) `prefix_of` k) then None
                          else nodes (disk d0) !! k) as Hdel.
        { intros k. destruct (decide ((P ++ [e]) `prefix_of` k)) as [Hpre|Hpre].
          - destruct (decide (k = P ++ [e])) as [->|Hne];
              [by rewrite lookup_delete_eq|].
            rewrite lookup_delete_ne by done.
            destruct (nodes (disk d0) !! k) eqn:Ek; [|done].
            assert (nodes (disk d0) !! (P ++ [e]) = Some Dir) as E'.
            { apply (wf_ancestors (disk d0) k); eauto using snoc_not_nil. }
            congruence.
          - rewrite lookup_delete_ne; [done|]. intros E'. apply Hpre.
            by rewrite <- E'. }
        split; [|split; [done|exact Hdel]].
        apply (wf_remove (disk d0) _ (fun k => (P ++ [e]) `prefix_of` k));
          [done|done|exact Hdel|]. intros k. apply prefix_removelast.
      - (* a directory: the recursive call *)
        destruct (IH _ _ _ Hwf Hbody) as (Hwfm & Hcwd & _ & _ & Hg).
        specialize (Hg (join_not_guarded dir e He)).
        rewrite (existsSync_ends_in _ _ _ Hends),
          (resolve_join (disk d0) dir e He) in Hg. fold P in Hg.
        rewrite node_at_lookup, E in Hg by apply snoc_not_nil.
        specialize (Hg ltac:(by apply bool_decide_eq_true_2)).
        split; [done|]. split; [done|]. intros k. rewrite Hg.
        destruct Hends as (_ & _ & ->).
        destruct (decide ((P ++ [e]) `prefix_of` k)) as [Hp|Hp].
        + by rewrite decide_True.
        + rewrite decide_False; [done|]. tauto. }
    destruct (IHes dm d1 Hwfm Hes' Hrun) as (Hwf1 & Hcwd1 & H1).
    split; [done|]. split; [congruence|].
    intros k. rewrite H1, Hm, <- (resolve_cwd (disk d0) (disk dm)) by done. fold P.
    destruct (decide (Exists _ es)) as [Hex|Hex].
    + rewrite decide_True; [done|]. by right.
    + destruct (decide ((P ++ [e]) `prefix_of` k)) as [Hp|Hp].
      * rewrite decide_True; [done|]. by left.
      * rewrite decide_False; [done|]. rewrite Exists_cons. tauto.
Qed.

Lemma children_names fs P e :
  wf fs -> e ∈ children fs P -> is_name e = true.
Proof.
  intros Hwf He%elem_of_children.
  destruct (proj2 Hwf _ He) as (_ & Hn & _).
  apply Forall_app in Hn as [_ Hn]. by inversion Hn.
Qed.

Lemma removeDirectory_removed fuel : forall d dir d',
  wf (disk d) -> removeDirectory fuel d dir = (d', Ok tt) -> removed d dir d'.
Proof.
  induction fuel as [|fuel IH]; intros d dir d' Hwf Hrun; [done|].
  rewrite removeDirectory_S in Hrun. unfold removed.
  destruct (guarded dir) eqn:Hguard.
  { injection Hrun as <-. done. }
  destruct (existsSync (disk d) dir) eqn:Hex.
  2:{ injection Hrun as <-. done. }
  unfold existsSync in Hex. unfold readdirSync in Hrun.
  destruct (lookup (disk d) dir) as [[P kind]|err|] eqn:Hlook; try done.
  destruct (lookup_Ok _ _ _ _ Hlook) as (Hne & HeqP & HP).
  destruct kind; [done|].
  (* the directory is there *)
  assert (Forall (fun e => is_name e = true) (merge_sort Str.le (children (disk d) P)))
    as Hnames.
  { apply Forall_forall. intros e He. rewrite sorted_elem_of in He.
    by apply (children_names (disk d) P). }
  destruct (forEach (rd_body fuel dir) d (merge_sort Str.le (children (disk d) P)))
    as [d1 [[]|err|]] eqn:Hloop; try done.
  destruct (forEach_removes fuel dir IH _ _ _ Hwf Hnames Hloop)
    as (Hwf1 & Hcwd1 & H1). rewrite <- HeqP in H1.
  (* every entry below [P] is gone after the loop *)
  assert (forall k, nodes (disk d1) !! k =
                    if decide (P `prefix_of` k /\ k <> P) then None
                    else nodes (disk d) !! k) as H1'.
  { intros k. rewrite H1.
    destruct (decide (Exists _ _)) as [Hx|Hx].
    - apply Exists_exists in Hx as (e & _ & [s Hs]).
      destruct (decide (P `prefix_of` k /\ k <> P)) as [|Hn]; [done|].
      exfalso. apply Hn. split; [exists ([e] ++ s); by rewrite Hs, <- app_assoc|].
      intros E. rewrite E in Hs. apply (f_equal length) in Hs.
      rewrite !length_app in Hs. simpl in Hs. lia.
    - destruct (decide (P `prefix_of` k /\ k <> P)) as [[[s Hs] Hnp]|]; [|done].
      destruct (nodes (disk d) !! k) eqn:Ek; [|done]. exfalso. apply Hx.
      destruct s as [|e s]; [by rewrite app_nil_r in Hs|].
      apply Exists_exists. exists e. split.
      + rewrite sorted_elem_of. apply elem_of_children.
        apply (wf_self_or_ancestor (disk d) k); eauto.
        * exists s. by rewrite Hs, <- app_assoc.
        * apply snoc_not_nil.
      + exists s. by rewrite Hs, <- app_assoc. }
  assert (lookup (disk d1) dir = Ok (P, Dir)) as Hlook1.
  { rewrite HeqP, (resolve_cwd (disk d) (disk d1)) by done.
    apply lookup_dir; [done|].
    rewrite <- (resolve_cwd (disk d) (disk d1)), <- HeqP by done.
    destruct P as [|x P']; [done|]. simpl.
    rewrite H1', decide_False by tauto. exact HP. }
  unfold rmdirSync in Hrun. rewrite Hlook1 in Hrun.
  rewrite <- HeqP.
  (* the cases where [rmdirSync] throws: the exception is printed *)
  assert (is_name (last_segment dir) = false \/ P = [] ->
          forall k, nodes (disk d1) !! k =
                    if decide (P `prefix_of` k /\
                               (k = P -> is_name (last_segment dir) = true))
                    then None else nodes (disk d) !! k) as Hkept.
  { intros Hcase k. rewrite H1'.
    destruct (decide (P `prefix_of` k /\ k <> P)) as [[Hp Hk]|Hn].
    - rewrite decide_True; [done|]. split; [done|]. by intros ->.
    - destruct (decide (P `prefix_of` k /\ _)) as [[Hp Hk]|]; [|done].
      destruct (decide (k = P)) as [->|]; [|tauto].
      destruct Hcase as [Hcase| ->]; [by rewrite Hk in Hcase|].
      destruct (nodes (disk d) !! []) eqn:E; [|done].
      by destruct (proj2 Hwf [] ltac:(eauto)) as (? & _). }
  destruct (String.eqb (last_segment dir) ".") eqn:Hdot.
  { injection Hrun as <-. simpl. split; [done|]. split; [done|].
    split; [done|]. split; [done|]. intros _ _. apply Hkept. left.
    apply String.eqb_eq in Hdot. by rewrite Hdot. }
  destruct (String.eqb (last_segment dir) "..") eqn:Hdd.
  { injection Hrun as <-. simpl. split; [done|]. split; [done|].
    split; [done|]. split; [done|]. intros _ _. apply Hkept. left.
    apply String.eqb_eq in Hdd. by rewrite Hdd. }
  destruct (decide (P = [])) as [->|HPne].
  + (* the root cannot be removed *)
    injection Hrun as <-. simpl. split; [done|]. split; [done|].
    split; [done|]. split; [done|]. intros _ _. apply Hkept. by right.
  + assert (is_name (last_segment dir) = true) as Hname.
    { apply (last_segment_name (disk d)); try done. by rewrite <- HeqP. }
    assert (children (disk d1) P = []) as Hempty.
    { apply children_nil. intros n. rewrite H1', decide_True; [done|].
      split; [by exists [n]|]. intros E. apply (f_equal length) in E.
      rewrite length_app in E. simpl in E. lia. }
    destruct P as [|x P'] eqn:EP; [done|]. rewrite <- EP in *.
    rewrite Hempty in Hrun. injection Hrun as <-. simpl.
    assert (forall k, delete P (nodes (disk d1)) !! k =
                      if decide (P `prefix_of` k /\
                                 (k = P -> is_name (last_segment dir) = true))
                      then None else nodes (disk d) !! k) as Hfinal.
    { intros k. destruct (decide (k = P)) as [->|Hnk].
      - by rewrite lookup_delete_eq, decide_True.
      - rewrite lookup_delete_ne, H1' by done.
        destruct (decide (P `prefix_of` k /\ k <> P)) as [[Hp _]|Hp].
        + by rewrite decide_True.
        + rewrite decide_False; [done|]. tauto. }
    split; [|split; [done|split; [done|split; [done|intros _ _; exact Hfinal]]]].
    apply (wf_remove (disk d) _
             (fun k => P `prefix_of` k /\
                       (k = P -> is_name (last_segment dir) = true)));
      [done|done|exact Hfinal|].
    intros k Hk [Hp _]. split; [by apply prefix_removelast|done].
Qed.

(** A call on a path that ends in a name, when it returns: the entry and
    all below it are gone. *)
Lemma removeDirectory_removed_at fuel d dir e d' :
  wf (disk d) -> ends_in dir e -> is_name e = true ->
  removeDirectory fuel d dir = (d', Ok tt) ->
  wf (disk d') /\ cwd (disk d') = cwd (disk d) /\
  forall k, nodes (disk d') !! k =
            if decide (resolve (disk d) dir `prefix_of` k) then None
            else nodes (disk d) !! k.
Proof.
  intros Hwf Hends He Hrun.
  destruct (removeDirectory_removed _ _ _ _ Hwf Hrun) as (Hwf' & Hcwd & _ & Hno & Hk).
  split; [done|]. split; [done|].
  specialize (Hk (ends_in_not_guarded _ _ Hends He)).
  set (P := resolve (disk d) dir) in *.
  destruct (existsSync (disk d) dir) eqn:Hex.
  - intros k. rewrite (Hk eq_refl). destruct Hends as (_ & _ & ->).
    destruct (decide (P `prefix_of` k)) as [Hp|Hp].
    + by rewrite decide_True.
    + rewrite decide_False; [done|]. tauto.
  - rewrite (Hno eq_refl). intros k.
    destruct (decide (P `prefix_of` k)) as [Hp|]; [|done].
    destruct (nodes (disk d) !! k) eqn:Ek; [|done]. exfalso.
    rewrite (existsSync_ends_in _ _ _ Hends) in Hex.
    apply bool_decide_eq_false in Hex. apply Hex. fold P.
    assert (P <> []) as HPne.
    { intros E. apply Hex. fold P. by rewrite E. }
    rewrite node_at_lookup by done.
    apply (wf_self_or_ancestor (disk d) k P Hwf); eauto.
Qed.

(** What a walk of [mkdirSync] that goes through has made. *)
Lemma mkdir_walk_spec todo : forall fs seen fs',
  mkdir_walk fs seen todo = (fs', Ok tt) -> node_at fs seen = Some Dir ->
  node_at fs' (seen ++ todo) = Some Dir /\
  forall k v, nodes fs' !! k = Some v ->
    nodes fs !! k = Some v \/ (v = Dir /\ k `prefix_of` (seen ++ todo)).
Proof.
  induction todo as [|name todo IH]; intros fs seen fs' Hrun Hseen.
  - injection Hrun as <-. rewrite app_nil_r. split; [done|]. by left.
  - cbn [mkdir_walk] in Hrun.
    replace (seen ++ name :: todo) with ((seen ++ [name]) ++ todo)
      by (by rewrite <- app_assoc).
    destruct (node_at fs (seen ++ [name])) as [[|]|] eqn:E; [done| |].
    + by apply IH.
    + destruct (IH _ _ _ Hrun) as [Hdir Hnew].
      { rewrite node_at_lookup by apply snoc_not_nil. simpl.
        by rewrite lookup_insert_eq. }
      split; [done|]. intros k v Hk.
      destruct (Hnew k v Hk) as [Hold|Hpre]; [|by right].
      simpl in Hold. destruct (decide (k = seen ++ [name])) as [->|Hne].
      * rewrite lookup_insert_eq in Hold. injection Hold as <-.
        right. split; [done|]. by apply prefix_app_r.
      * rewrite lookup_insert_ne in Hold by done. by left.
Qed.


(** ** The workspace path *)

Lemma name_with_suffix z :
  slash_free z = true -> is_name (z +:+ "Frames") = true.
Proof.
  intros Hz. unfold is_name, plain. rewrite slash_free_app, Hz.
  assert (Str.nonempty (z +:+ "Frames") = true) as -> by (by destruct z).
  simpl. apply andb_true_intro. split; apply negb_true_iff, String.eqb_neq.
  - destruct z as [|c [|c' z]]; cbn; intros [=].
  - destruct z as [|c [|c' [|c'' z]]]; cbn; intros [=].
Qed.

Lemma frameDest_segments folder source :
  exists xs n, Path.segments (frameDest_of folder source) = xs ++ [n] /\
               is_name n = true.
Proof.
  unfold frameDest_of. rewrite segments_app_slash.
  destruct (split_suffix (Path.basename_ext source (Path.extname source)) "Frames")
    as (init & z & Hsplit & Hz); [done|].
  unfold Path.segments at 2. rewrite Hsplit, filter_app.
  pose proof (name_with_suffix z Hz) as Hname.
  rewrite (filter_cons_True _ (z +:+ "Frames")) by (by apply is_name_nonempty).
  rewrite filter_nil, app_assoc. eauto.
Qed.

Lemma frameDest_resolves fs folder source :
  resolve fs (frameDest_of folder source) <> [].
Proof.
  destruct (frameDest_segments folder source) as (xs & n & Hseg & Hn).
  rewrite resolve_eq, Hseg, foldl_app. simpl. rewrite ns_step_name by done.
  simpl. apply snoc_not_nil.
Qed.

Lemma frameDest_not_guarded folder source :
  guarded (frameDest_of folder source) = false.
Proof.
  destruct (frameDest_segments folder source) as (xs & n & Hseg & Hn).
  unfold guarded.
  destruct (String.eqb_spec (frameDest_of folder source) "/") as [E|_].
  { rewrite E in Hseg. by destruct xs. }
  destruct (String.eqb_spec (frameDest_of folder source) "./") as [E|_]; [|done].
  rewrite E in Hseg. destruct xs as [|x [|y xs]]; try done.
  injection Hseg as <-. done.
Qed.

Lemma frameDest_ends_in folder source :
  exists n, ends_in (frameDest_of folder source) n /\ is_name n = true.
Proof.
  destruct (frameDest_segments folder source) as (xs & n & Hseg & Hn).
  exists n. split; [|done]. split; [|split].
  - unfold frameDest_of. by destruct folder.
  - unfold frameDest_of.
    rewrite <- (append_assoc "/"), <- (append_assoc folder).
    by rewrite endsWith_slash_app.
  - unfold last_segment. by rewrite Hseg, last_snoc.
Qed.

(** A path that ends in a name resolves to an entry of that name. *)
Lemma ends_in_resolve fs p e :
  ends_in p e -> is_name e = true -> exists Q, resolve fs p = Q ++ [e].
Proof.
  intros (Hp & _ & Hlast) He. unfold last_segment in Hlast.
  destruct (Path.segments p) as [|x xs] eqn:E.
  { simpl in Hlast. subst e. done. }
  destruct (snoc_inv (x :: xs) ltac:(done)) as (ys & n & Hx & _ & Hl).
  rewrite Hl in Hlast. simpl in Hlast. subst n.
  rewrite resolve_eq, E, Hx, foldl_app. simpl. rewrite ns_step_name by done.
  simpl. eauto.
Qed.

(** A release that returns leaves nothing at the path. *)
Lemma release_removes dir e j j' :
  wf (disk (j_disk j)) -> ends_in dir e -> is_name e = true ->
  release dir j = (j', Ok tt) ->
  wf (disk (j_disk j')) /\ existsSync (disk (j_disk j')) dir = false.
Proof.
  intros Hwf Hends He Hrun. unfold release, removeDirectory' in Hrun.
  destruct (removeDirectory _ (j_disk j) dir) as [d r] eqn:Hrd.
  injection Hrun as <- ->. simpl.
  destruct (removeDirectory_removed_at _ _ _ _ _ Hwf Hends He Hrd)
    as (Hwf' & Hcwd & Hk).
  split; [done|]. rewrite (existsSync_ends_in _ _ _ Hends).
  rewrite (resolve_cwd (disk d) (disk (j_disk j))) by done.
  destruct (ends_in_resolve (disk (j_disk j)) dir e Hends He) as [Q HQ].
  rewrite node_at_lookup by (rewrite HQ; apply snoc_not_nil).
  rewrite Hk, decide_True by done.
  apply bool_decide_eq_false_2. by intros [? ?].
Qed.

(** ** The disk stays well-formed along a job *)

Lemma keeps_wf_bind {A B} (m : M A) (k : A -> M B) :
  keeps_wf m -> (forall a, keeps_wf (k a)) -> keeps_wf (bind m k).
Proof.
  intros Hm Hk j j' b Hwf Hrun. apply bind_Ok in Hrun as (j1 & a & H1 & H2).
  eapply Hk; [|exact H2]. eapply Hm; eauto.
Qed.

Lemma keeps_wf_if {A} (c : bool) (m1 m2 : M A) :
  keeps_wf m1 -> keeps_wf m2 -> keeps_wf (if c then m1 else m2).
Proof. by destruct c. Qed.

Lemma keeps_wf_ret {A} (a : A) : keeps_wf (ret a).
Proof. intros j j' b Hwf [= <- _]. done. Qed.

Lemma keeps_wf_never {A} : keeps_wf (@never A).
Proof. intros j j' b Hwf [=]. Qed.

Lemma keeps_wf_lift {A} (r : Res A) : keeps_wf (lift r).
Proof. intros j j' b Hwf [= <- _]. done. Qed.

Lemma keeps_wf_the_options : keeps_wf the_options.
Proof. intros j j' b Hwf [= <- _]. done. Qed.

Lemma keeps_wf_write_options f : keeps_wf (write_options f).
Proof. intros j j' b Hwf [= <- _]. done. Qed.

Lemma keeps_wf_exists p : keeps_wf (exists_ p).
Proof. intros j j' b Hwf [= <- _]. done. Qed.

Lemma keeps_wf_run_ffmpeg ext run : keeps_wf (run_ffmpeg ext run).
Proof. intros j j' b Hwf [= <- _]. done. Qed.

Lemma keeps_wf_on_fs {A} (f : FS -> FS * Res A) :
  (forall fs, wf fs -> wf (f fs).1) -> keeps_wf (on_fs f).
Proof.
  intros Hf j j' b Hwf Hrun. unfold on_fs in Hrun.
  specialize (Hf _ Hwf). destruct (f (disk (j_disk j))) as [fs' r].
  by injection Hrun as <- _.
Qed.

Lemma keeps_wf_release dir : keeps_wf (release dir).
Proof.
  intros j j' [] Hwf Hrun. unfold release, removeDirectory' in Hrun.
  destruct (removeDirectory _ (j_disk j) dir) as [d r] eqn:Hrd.
  injection Hrun as <- ->. simpl.
  by destruct (removeDirectory_removed _ _ _ _ Hwf Hrd) as (Hwf' & _).
Qed.

Lemma keeps_wf_write_frames paths : keeps_wf (write_frames paths).
Proof.
  intros j j' b Hwf Hrun. unfold write_frames in Hrun.
  assert (forall acc : FS * bool, wf acc.1 ->
            wf (foldl (fun acc p =>
                         let '(fs1, ok1) := createWriteStream acc.1 p in
                         (fs1, acc.2 && ok1)) acc paths).1) as H.
  { clear Hrun. induction paths as [|p paths IH]; intros acc Hacc; [done|].
    simpl. apply IH. pose proof (createWriteStream_wf acc.1 p Hacc) as [H _].
    by destruct (createWriteStream acc.1 p). }
  specialize (H (disk (j_disk j), true) Hwf).
  destruct (foldl _ _ paths) as [fs' ok]. by injection Hrun as <- _.
Qed.

Lemma keeps_wf_encodeGIF files delays dest quality :
  keeps_wf (encodeGIF files delays dest quality).
Proof.
  intros j j' b Hwf Hrun. unfold encodeGIF in Hrun.
  destruct files as [|f files]; [done|].
  destruct (negb (is_file _ f)); [done|].
  destruct (forallb _ _); [|done]. injection Hrun as <- _. simpl.
  by apply createWriteStream_wf.
Qed.

Lemma line126_wf fs folder : wf fs -> wf (line126 fs folder).1.
Proof.
  intros Hwf. unfold line126. destruct (existsSync fs folder); [done|].
  by apply mkdirSync_wf.
Qed.

Lemma start_all_io_wf env u x g : wf x.2 -> wf (start_all_io (frames_start_io env u) x g).1.2.
Proof.
  revert x. induction g as [|f g IH]; intros x Hwf; [done|]. simpl.
  assert (wf (frames_start_io env u x f).1.2) as H1.
  { destruct x as [st fs]. unfold frames_start_io.
    destruct (upscaleImage env f _ (options st)) as [o sp].
    pose proof (line126_wf fs (sp_folder sp) Hwf) as H.
    destruct (line126 fs (sp_folder sp)) as [fs' [[]|e|]]; try done.
    by destruct (frames_start env u st f). }
  destruct (frames_start_io env u x f) as [x1 r]. specialize (IH x1 H1).
  by destruct (start_all_io (frames_start_io env u) x1 g).
Qed.

Lemma run_queue_io_wf env ext u progress total x q :
  wf x.2 -> wf (run_queue_io env ext (frames_start_io env u) progress total x q).1.2.
Proof.
  revert x. induction q as [|g q IH]; intros x Hwf; [done|].
  cbn [run_queue_io].
  assert (wf (run_group_io env ext (frames_start_io env u) progress total x g).1.2) as Hg.
  { unfold run_group_io. pose proof (start_all_io_wf env u x g Hwf) as H.
    destruct (start_all_io (frames_start_io env u) x g) as [[st1 fs1] rs].
    destruct (all_started rs) as [started|e|]; try done. simpl in *.
    clear -H. revert fs1 H.
    induction (map fst started) as [|sp sps IHs]; intros fs1 H; [done|].
    simpl. apply IHs. unfold converter_exit.
    destruct (converts ext sp); [|done]. by apply createWriteStream_wf. }
  destruct (run_group_io env ext (frames_start_io env u) progress total x g) as [x' [[]|e|]]; try done.
  destruct (cancel x'.1); [done|]. by apply IH.
Qed.

Lemma keeps_wf_schedule env ext u frameArray progress :
  keeps_wf (schedule_frames_io env ext u frameArray progress).
Proof.
  intros j j' b Hwf Hrun. unfold schedule_frames_io in Hrun.
  destruct (scale_is_not_1 (j_options j)); [|by injection Hrun as <- _].
  destruct (frames_init frameArray (j_options j) progress) as [o1 [[st q]|]];
    [|done].
  pose proof (run_queue_io_wf env ext u progress (length frameArray)
                (st, disk (j_disk j)) q Hwf) as H.
  destruct (run_queue_io _ _ _ _ _ _ _) as [[st' fs'] [[]|e|]]; try done.
  by injection Hrun as <- _.
Qed.

Create HintDb wfdb discriminated.

#[local] Hint Resolve keeps_wf_ret keeps_wf_never keeps_wf_lift
  keeps_wf_the_options keeps_wf_write_options keeps_wf_exists
  keeps_wf_run_ffmpeg keeps_wf_release keeps_wf_write_frames
  keeps_wf_encodeGIF keeps_wf_schedule : wfdb.

Lemma keeps_wf_acquire frameDest : keeps_wf (acquire frameDest).
Proof.
  unfold acquire. apply keeps_wf_bind; [auto with wfdb|intros there].
  apply keeps_wf_bind; [destruct there; auto with wfdb|intros _].
  apply keeps_wf_on_fs. intros fs. apply mkdirSync_wf.
Qed.

Lemma keeps_wf_make_upscaled upScaleDest : keeps_wf (make_upscaled upScaleDest).
Proof.
  unfold make_upscaled. apply keeps_wf_bind; [auto with wfdb|intros there].
  destruct there; [auto with wfdb|].
  apply keeps_wf_on_fs. intros fs. apply mkdirSync_wf.
Qed.

Lemma keeps_wf_await_ffmpeg ext run : keeps_wf (await_ffmpeg ext run).
Proof.
  unfold await_ffmpeg. apply keeps_wf_bind; [auto with wfdb|intros ended].
  destruct ended; [|auto with wfdb].
  apply keeps_wf_on_fs. intros fs Hwf.
  pose proof (createWriteStream_wf fs (ff_save run) Hwf) as [H _].
  by destruct (createWriteStream fs (ff_save run)).
Qed.

Lemma keeps_wf_extract_frames ext source frameDest fr :
  keeps_wf (extract_frames ext source frameDest fr).
Proof.
  unfold extract_frames. apply keeps_wf_bind; [auto with wfdb|intros ended].
  destruct ended; [|auto with wfdb].
  apply keeps_wf_on_fs. intros fs Hwf. by apply foldl_createWriteStream_wf.
Qed.

Lemma keeps_wf_extract_audio ext source frameDest :
  keeps_wf (extract_audio ext source frameDest).
Proof.
  unfold extract_audio. apply keeps_wf_bind; [auto with wfdb|intros ended].
  destruct ended; [|auto with wfdb].
  apply keeps_wf_bind; [|auto with wfdb].
  apply keeps_wf_on_fs. intros fs Hwf. by apply createWriteStream_wf.
Qed.

Lemma keeps_wf_list_frames ext frameDest : keeps_wf (list_frames ext frameDest).
Proof.
  unfold list_frames. apply keeps_wf_bind; [|auto with wfdb].
  by apply keeps_wf_on_fs.
Qed.

#[local] Hint Resolve keeps_wf_acquire keeps_wf_make_upscaled
  keeps_wf_await_ffmpeg keeps_wf_extract_frames keeps_wf_extract_audio
  keeps_wf_list_frames : wfdb.

Lemma keeps_wf_step {A} (m : M A) j j' a :
  keeps_wf m -> wf (disk (j_disk j)) -> m j = (j', Ok a) ->
  wf (disk (j_disk j')).
Proof. intros Hm. apply Hm. Qed.

#[local] Hint Resolve keeps_wf_bind keeps_wf_if : wfdb.

(** Carries well-formedness along the steps of an unfolded job. *)
Ltac carry_wf :=
  repeat match goal with
  | Hw : wf (disk (j_disk ?j)), Hm : ?m ?j = (?j', Ok _) |- _ =>
      lazymatch goal with
      | _ : wf (disk (j_disk j')) |- _ => fail
      | _ => assert (wf (disk (j_disk j')))
               by (eapply (keeps_wf_step m); [|exact Hw|exact Hm];
                   auto 10 with wfdb)
      end
  end.

Lemma upscaleGIF_removes_workspace env ext source dest progress j j' out :
  wf (disk (j_disk j)) ->
  upscaleGIF env ext source dest progress j = (j', Ok out) ->
  wf (disk (j_disk j')) /\
  existsSync (disk (j_disk j')) (gif_workspace env source dest) = false.
Proof.
  unfold upscaleGIF, gif_workspace. intros Hwf H.
  destruct (job_folder env source _) as [folder image]. cbn [fst].
  repeat unbind H.
  destruct (select_frames _ _ _) as [[frameArray delayArray]|]; [|done].
  repeat unbind H.
  destruct (reverse_step _ _ _) as [scaled delays].
  repeat unbind H. inversion H; subst. carry_wf.
  match goal with
  | Hr : release (frameDest_of ?f ?s) ?j1 = (_, Ok ?u) |- _ =>
      destruct u; destruct (frameDest_ends_in f s) as (n & Hends & Hn);
      by apply (release_removes _ n j1)
  end.
Qed.

Lemma upscaleVideo_removes_workspace env ext source dest progress j j' out :
  wf (disk (j_disk j)) ->
  upscaleVideo env ext source dest progress j = (j', Ok out) ->
  wf (disk (j_disk j')) /\
  existsSync (disk (j_disk j')) (video_workspace env source dest) = false.
Proof.
  unfold upscaleVideo, video_workspace. intros Hwf H.
  destruct (job_folder env source _) as [folder image]. cbn [fst].
  repeat unbind H. inversion H; subst. carry_wf.
  match goal with
  | Hr : release (frameDest_of ?f ?s) ?j1 = (_, Ok ?u) |- _ =>
      destruct u; destruct (frameDest_ends_in f s) as (n & Hends & Hn);
      by apply (release_removes _ n j1)
  end.
Qed.

(** ** The recursion of [removeDirectory] is covered by its fuel *)

Lemma depth_bound fs n :
  (depth fs <= n)%nat <-> forall k, is_Some (nodes fs !! k) -> (length k <= n)%nat.
Proof.
  unfold depth.
  assert (forall l : list (list string * Kind),
            (foldr (fun kv m => Nat.max (length kv.1) m) 0%nat l <= n)%nat <->
            Forall (fun kv => (length kv.1 <= n)%nat) l) as Hfold.
  { induction l as [|kv l IH]; simpl.
    - split; [constructor|lia].
    - rewrite Forall_cons, <- IH. lia. }
  rewrite Hfold, Forall_forall. split.
  - intros H k [v Hv]. apply (H (k, v)). by apply elem_of_map_to_list.
  - intros H [k v] Hkv%elem_of_map_to_list. apply H. eauto.
Qed.

Lemma depth_shrinks fs fs' :
  (forall k, is_Some (nodes fs' !! k) -> is_Some (nodes fs !! k)) ->
  (depth fs' <= depth fs)%nat.
Proof.
  intros H. apply depth_bound. intros k Hk%H. by apply (depth_bound fs (depth fs)).
Qed.





Lemma wf_check_sound fs : wf_check fs = true -> wf fs.
Proof.
  unfold wf_check, wf. intros [Hcwd Hall]%andb_true_iff. split.
  - apply Forall_forall. intros s Hs%list_elem_of_In.
    by apply (proj1 (forallb_forall _ _) Hcwd).
  - intros k [v Hv]. apply elem_of_map_to_list, list_elem_of_In in Hv.
    apply (proj1 (forallb_forall _ _) Hall) in Hv. simpl in Hv.
    apply andb_true_iff in Hv as [[Hne Hnames]%andb_true_iff Hdir].
    split; [by destruct k|]. split.
    + apply Forall_forall. intros s Hs%list_elem_of_In.
      by apply (proj1 (forallb_forall _ _) Hnames).
    + by destruct (node_at fs (removelast k)) as [[|]|].
Qed.

(** ** The scheduler of a job is the scheduler of the loop *)

Lemma start_all_io_refines env u : forall g st fs st1 fs1 rs started,
  start_all_io (frames_start_io env u) (st, fs) g = ((st1, fs1), rs) ->
  all_started rs = Ok started ->
  start_all (frames_start env u) st g = (st1, map snd started).
Proof.
  induction g as [|f g IH]; intros st fs st1 fs1 rs started Hrun Hall.
  - injection Hrun as <- <- <-. by injection Hall as <-.
  - cbn [start_all_io] in Hrun. cbn [start_all].
    destruct (frames_start_io env u (st, fs) f) as [[st' fs'] r] eqn:Hf.
    destruct (start_all_io (frames_start_io env u) (st', fs') g) as [[st2 fs2] rs'] eqn:Hg.
    injection Hrun as <- <- <-.
    unfold frames_start_io in Hf.
    destruct (upscaleImage env f _ (options st)) as [o sp].
    destruct (line126 fs (sp_folder sp)) as [fs0 [[]|e|]];
      [|by injection Hf as <- <- <-..].
    destruct (frames_start env u st f) as [st0 ret] eqn:Hstart.
    injection Hf as <- <- <-. cbn [all_started] in Hall.
    destruct (all_started rs') as [l| |] eqn:Hl; try done.
    injection Hall as <-. by rewrite (IH _ _ _ _ _ _ Hg Hl).
Qed.

Lemma run_queue_io_refines env ext u progress total : forall q st fs st' fs',
  run_queue_io env ext (frames_start_io env u) progress total (st, fs) q = ((st', fs'), Ok tt) ->
  run_queue env (frames_start env u) progress total st q = st'.
Proof.
  induction q as [|g q IH]; intros st fs st' fs' Hrun.
  - by injection Hrun as <- <-.
  - cbn [run_queue_io] in Hrun. cbn [run_queue].
    destruct (run_group_io env ext (frames_start_io env u) progress total (st, fs) g)
      as [[st1 fs1] [[]|e|]] eqn:Hg; try done.
    assert (run_group env (frames_start env u) progress total st g = st1) as ->.
    { unfold run_group_io in Hg. unfold run_group.
      destruct (start_all_io (frames_start_io env u) (st, fs) g) as [[st0 fs0] rs] eqn:Hs.
      destruct (all_started rs) as [started| |] eqn:Hall; try done.
      rewrite (start_all_io_refines _ _ _ _ _ _ _ _ _ Hs Hall).
      by injection Hg as <- <-. }
    simpl in Hrun. destruct (cancel st1); [by injection Hrun as <- <-|].
    by apply (IH _ fs1 _ fs').
Qed.

(** A scheduling block that returns in a job has done what
    [schedule_frames] says, on the options of the job. *)
Lemma schedule_frames_io_refines env ext u frameArray progress j j' sc :
  schedule_frames_io env ext u frameArray progress j = (j', Ok sc) ->
  schedule_frames env u frameArray (j_options j) progress = Some sc /\
  j_options j' = sc_options sc /\
  j_calls j' = j_calls j ++ sc_calls sc /\
  j_spawned j' = j_spawned j ++ sc_spawned sc.
Proof.
  unfold schedule_frames_io, schedule_frames. intros Hrun.
  destruct (scale_is_not_1 (j_options j)).
  - destruct (frames_init frameArray (j_options j) progress) as [o1 [[st q]|]];
      [|done]. cbn [snd mbind option_bind].
    destruct (run_queue_io _ _ _ _ _ _ _) as [[st' fs'] [[]|e|]] eqn:Hq; try done.
    injection Hrun as <- <-. by rewrite (run_queue_io_refines _ _ _ _ _ _ _ _ _ _ Hq).
  - injection Hrun as <- <-. simpl. by rewrite !app_nil_r.
Qed.

(** ** The claims about jobs *)

(** C6, as the code has it.  [removeDirectory(frameDest)] is the last
    statement of [upscaleGIF] and of [upscaleVideo] before their [return]:
    a job that returns has released its workspace as its last step, and on
    a well-formed disk nothing is left at the path of the workspace.  (A
    job that throws or never settles has not released it: see the
    counterexample.) *)
Theorem C6_release_is_the_last_step_of_a_job_that_returns
  env ext source dest progress j j' out :
  (upscaleGIF env ext source dest progress j = (j', Ok out) ->
   (exists j1, release (gif_workspace env source dest) j1 = (j', Ok tt)) /\
   (wf (disk (j_disk j)) ->
    wf (disk (j_disk j')) /\
    existsSync (disk (j_disk j')) (gif_workspace env source dest) = false)) /\
  (upscaleVideo env ext source dest progress j = (j', Ok out) ->
   (exists j1, release (video_workspace env source dest) j1 = (j', Ok tt)) /\
   (wf (disk (j_disk j)) ->
    wf (disk (j_disk j')) /\
    existsSync (disk (j_disk j')) (video_workspace env source dest) = false)).
Proof.
  split; intros Hrun.
  - split; [by eapply upscaleGIF_ends_with_release|].
    intros Hwf. by eapply upscaleGIF_removes_workspace.
  - split; [by eapply upscaleVideo_ends_with_release|].
    intros Hwf. by eapply upscaleVideo_removes_workspace.
Qed.

(** C7, as the code has it.  The guard is [dir === "/" || dir === "./"]: for
    these two path strings [removeDirectory] returns at once; the disk is as
    before, nothing is printed, nothing is thrown. *)
Theorem C7_removeDirectory_refuses_root_and_current_directory d dir :
  dir = "/" \/ dir = "./" ->
  removeDirectory' d dir = (d, Ok tt) /\
  (forall fuel, removeDirectory (S fuel) d dir = (d, Ok tt)) /\
  (forall j, j_disk j = d ->
     (release dir j).2 = Ok tt /\ j_disk (release dir j).1 = d).
Proof.
  intros [-> | ->].
  - split; [done|]. split; [done|]. intros j <-. done.
  - split; [done|]. split; [done|]. intros j <-. done.
Qed.

(** C8, as the code has it.  With [options.scale === 1] the scheduling block
    of [upscaleGIF] and [upscaleVideo] is skipped: [scaledFrames] is
    [frameArray], no converter is started, [progress] is not called and the
    options object is not written; a whole job starts no converter and
    makes no progress call, however it ends. *)
Theorem C8_scale_1_skips_the_scheduler env ext upScaleDest frameArray o progress
  source dest j :
  scale_is_not_1 o = false ->
  j_options j = o ->
  schedule_frames env upScaleDest frameArray o progress
    = Some (frames_skipped frameArray o) /\
  sc_scaledFrames (frames_skipped frameArray o) = frameArray /\
  sc_spawned (frames_skipped frameArray o) = [] /\
  sc_calls (frames_skipped frameArray o) = [] /\
  schedule_frames_io env ext upScaleDest frameArray progress j
    = (j, Ok (frames_skipped frameArray o)) /\
  (let j' := (upscaleGIF env ext source dest progress j).1 in
   j_spawned j' = j_spawned j /\ j_calls j' = j_calls j) /\
  (let j' := (upscaleVideo env ext source dest progress j).1 in
   j_spawned j' = j_spawned j /\ j_calls j' = j_calls j).
Proof.
  intros Hscale Ho.
  assert (scale_1 (obs_work (view j))) as Hgood.
  { unfold scale_1, obs_work, view. simpl. rewrite Ho.
    unfold scale_is_not_1 in Hscale. destruct (Opt.scale o) as [q|]; [|done].
    by destruct (Num.eqb q Num.one). }
  assert (forall o o' c s, settings o' = settings o ->
                           obs_work (o', c, s) = obs_work (o, c, s)) as Hobs.
  { intros o1 o2 c s H. unfold obs_work. simpl. rewrite H.
    assert (Opt.scale o2 = Opt.scale o1) as -> by (unfold settings in H; congruence).
    done. }
  split; [unfold schedule_frames; by rewrite Hscale|]. do 3 (split; [done|]).
  split; [unfold schedule_frames_io; by rewrite Ho, Hscale|].
  split.
  - pose proof (preserves_upscaleGIF obs_work scale_1 env ext source dest progress
                  Hobs (fun u fa => preserves_schedule_skipped env ext u fa progress)
                  j Hgood) as H.
    unfold obs_work, view in H. simpl in H. by injection H.
  - pose proof (preserves_upscaleVideo obs_work scale_1 env ext source dest progress
                  Hobs (fun u fa => preserves_schedule_skipped env ext u fa progress)
                  j Hgood) as H.
    unfold obs_work, view in H. simpl in H. by injection H.
Qed.

(** C9, as the code has it.  The functions write into the options object
    they are given, but only into [limit], [parallelFrames], [rename],
    [modelDir], [cumulative], [framerate], [speed] and [reverse]: every
    other field is, after the call, what it was before, whether the call
    returns, throws or never settles. *)
Theorem C9_the_settings_of_the_options_are_kept env ext files source dest o
  progress j :
  match upscaleImages env files dest o progress with
  | Some st => settings (options st) = settings o
  | None => True
  end /\
  settings (j_options (upscaleGIF env ext source dest progress j).1)
    = settings (j_options j) /\
  settings (j_options (upscaleVideo env ext source dest progress j).1)
    = settings (j_options j).
Proof.
  assert (forall o o' (c : list (nat * nat)) (s : list Spawn),
            settings o' = settings o ->
            obs_settings (o', c, s) = obs_settings (o, c, s)) as Hobs by done.
  split; [apply upscaleImages_settings|]. split.
  - apply (preserves_upscaleGIF obs_settings always env ext source dest progress
             Hobs (fun u fa => preserves_schedule_settings env ext u fa progress) j).
    done.
  - apply (preserves_upscaleVideo obs_settings always env ext source dest progress
             Hobs (fun u fa => preserves_schedule_settings env ext u fa progress) j).
    done.
Qed.

(** * Further properties of the code *)

(** ** The scheduling loops, whatever the callback answers *)


(** One call of the callback for each result pushed, numbered from
    [counter] on. *)
Lemma run_queue_calls env start cb total : forall q st,
  start_ok start -> exits_all env ->
  let fin := run_queue env start (Some cb) total st q in
  let n := (length (results fin) - length (results st))%nat in
  (length (results st) <= length (results fin))%nat /\
  counter fin = (counter st + n)%nat /\
  calls fin = calls st ++ reports (counter st) total n.
Proof.
  induction q as [|g q IH]; intros st Hok Hex.
  - simpl. rewrite Nat.sub_diag, Nat.add_0_r, app_nil_r. done.
  - cbn [run_queue].
    destruct (run_group_spec env start (Some cb) total st g Hok Hex)
      as (_ & _ & Hl & _ & Hcb).
    destruct (Hcb cb eq_refl) as (Hc & Hk & _).
    destruct (cancel (run_group env start (Some cb) total st g)) eqn:E.
    + cbv zeta. rewrite Hl.
      replace (length (results st) + length g - length (results st))%nat
        with (length g) by lia.
      split; [lia|]. done.
    + destruct (IH (run_group env start (Some cb) total st g) Hok Hex)
        as (Hle & Hc' & Hk'). cbv zeta in *.
      set (fin := run_queue env start (Some cb) total
                    (run_group env start (Some cb) total st g) q) in *.
      rewrite Hl in Hle, Hc', Hk'. rewrite Hc in Hc', Hk'. rewrite Hk in Hk'.
      replace (length (results fin) - length (results st))%nat
        with (length g + (length (results fin) - (length (results st) + length g)))%nat
        by lia.
      rewrite reports_app, app_assoc, <- Hk'. split; [lia|]. split; [lia|done].
Qed.

(** X1.  With a progress callback the calls are numbered without a gap,
    whatever the callback answers and in whatever order the frames of a
    group finish: [progress(0, total)] first, then [progress(i, total)] when
    the [i]-th result is pushed.  This holds for [upscaleImages] and for the
    scheduling block of [upscaleGIF] and [upscaleVideo]. *)
Theorem progress_calls_are_numbered_without_a_gap env files dest u o cb :
  exits_all env ->
  (forall st, upscaleImages env files dest o (Some cb) = Some st ->
     calls st = reports 0 (length files) (S (length (results st)))) /\
  (forall s, schedule_frames env u files o (Some cb) = Some s ->
     sc_ran s = true ->
     sc_calls s = reports 0 (length files) (S (length (sc_scaledFrames s)))).
Proof.
  intros Hex. split.
  - intros st. unfold upscaleImages.
    destruct (build_queue _ files) as [q|]; [|done].
    cbn [mbind option_bind]. intros [= <-].
    match goal with
    | |- context [run_queue env ?start (Some cb) ?total ?st0 q] =>
        destruct (run_queue_calls env start cb total q st0
                    (images_start_ok env dest) Hex) as (_ & _ & Hk)
    end.
    cbv zeta in Hk. cbn [results calls counter length] in Hk.
    rewrite Nat.sub_0_r in Hk. rewrite Hk. by rewrite reports_S.
  - intros s. unfold schedule_frames.
    destruct (scale_is_not_1 o); [|by intros [= <-]].
    unfold frames_init. cbn [snd].
    destruct (build_queue _ files) as [q|]; [|done].
    cbn [mbind option_bind]. intros [= <-] _. unfold frames_done.
    cbn [sc_calls sc_scaledFrames].
    match goal with
    | |- context [run_queue env ?start (Some cb) ?total ?st0 q] =>
        destruct (run_queue_calls env start cb total q st0
                    (frames_start_ok env u) Hex) as (_ & _ & Hk)
    end.
    cbv zeta in Hk. cbn [results calls counter length] in Hk.
    rewrite Nat.sub_0_r in Hk. rewrite Hk. by rewrite reports_S.
Qed.

Lemma upscaleImages_eq env files dest o progress :
  upscaleImages env files dest o progress =
  (q ← build_queue (parallel o) files;
   Some (run_queue env (images_start env dest) progress (length files)
           (images_init files o progress) q)).
Proof.
  unfold upscaleImages, images_init, parallel.
  destruct (truthyZ (Opt.limit o)) eqn:El;
    destruct (truthyZ (Opt.parallelFrames o)) eqn:Ep; cbn [negb].
  all: cbn [Opt.set_limit Opt.parallelFrames Opt.limit]; rewrite ?Ep; cbn [negb].
  all: reflexivity.
Qed.


Lemma frames_init_eq frameArray o progress :
  (frames_init frameArray o progress).2 =
  (q ← build_queue (parallel o) frameArray;
   Some (block_init frameArray o progress, q)).
Proof.
  unfold frames_init, block_init, parallel. cbn [snd].
  destruct (truthyZ (Opt.parallelFrames o)) eqn:Ep; cbn [negb]; reflexivity.
Qed.

Lemma schedule_frames_eq env u frameArray o progress :
  scale_is_not_1 o = true ->
  schedule_frames env u frameArray o progress =
  (q ← build_queue (parallel o) frameArray;
   Some (frames_done
           (run_queue env (frames_start env u) progress (length frameArray)
              (block_init frameArray o progress) q))).
Proof.
  intros Hs. unfold schedule_frames. rewrite Hs, frames_init_eq.
  by destruct (build_queue _ frameArray).
Qed.

(** ** Whole groups, and every frame started is finished *)


(** Without a callback nothing sets [cancel] in the block of [upscaleGIF]
    and [upscaleVideo]. *)
Lemma frames_run_None env u total : forall q st,
  cancel st = false ->
  cancel (run_queue env (frames_start env u) None total st q) = false.
Proof.
  induction q as [|g q IH]; intros st Hc; [done|]. cbn [run_queue].
  assert (cancel (run_group env (frames_start env u) None total st g) = false) as E.
  { unfold run_group. pose proof (proj1 (frames_start_all env u st g)) as H.
    destruct (start_all (frames_start env u) st g) as [st1 rets].
    rewrite foldl_resume_None. simpl in *. congruence. }
  rewrite E. by apply IH.
Qed.


(** ** The limit without a callback *)



(** ** One frame at a time *)

Lemma run_group_single env start progress total st f :
  exits_all env ->
  run_group env start progress total st [f] =
  resume progress total (start st f).1 (start st f).2.
Proof.
  intros Hex. unfold run_group. cbn [start_all].
  destruct (start st f) as [st1 ret]. cbn [fst snd].
  pose proof (Hex [ret]) as Hperm. apply Permutation_singleton_r in Hperm.
  by rewrite Hperm.
Qed.

Lemma resume_results progress total st ret :
  results (resume progress total st ret) = results st ++ [ret] /\
  spawned (resume progress total st ret) = spawned st.
Proof. unfold resume, report. by destruct progress. Qed.

Lemma frames_run_in_order env u progress total : forall q st,
  exits_all env -> Forall (fun g => length g = 1%nat) q ->
  let fin := run_queue env (frames_start env u) progress total st q in
  exists k, (k <= length q)%nat /\
    map sp_source (spawned fin) = map sp_source (spawned st) ++ concat (take k q) /\
    results fin = results st ++ map (scaled_path u) (concat (take k q)) /\
    (cancel fin = false -> k = length q).
Proof.
  induction q as [|g q IH]; intros st Hex Hone.
  - exists 0%nat. simpl. rewrite !app_nil_r. done.
  - inversion Hone as [|? ? Hg Hq]; subst.
    destruct g as [|f [|? ?]]; try done. cbn [run_queue].
    rewrite (run_group_single env _ progress total st f Hex).
    set (st1 := resume progress total _ _).
    assert (results st1 = results st ++ [scaled_path u f] /\
            map sp_source (spawned st1) = map sp_source (spawned st) ++ [f])
      as [Hr Hs].
    { unfold st1. destruct (resume_results progress total
                              (frames_start env u st f).1 (frames_start env u st f).2)
        as [-> ->].
      destruct (frames_start_ok env u st f) as (_ & _ & Hres & _ & sp & Hsp & Hsrc).
      rewrite Hres, Hsp, map_app. simpl. rewrite Hsrc. split; [|done].
      unfold frames_start. by destruct (upscaleImage env f _ (options st)). }
    destruct (cancel st1) eqn:E.
    + exists 1%nat. cbn [take concat length]. rewrite ?take_0. cbn [concat].
      rewrite app_nil_r. split; [lia|]. split; [done|]. split; [done|congruence].
    + destruct (IH st1 Hex Hq) as (k & Hk & Hs' & Hr' & Hall).
      exists (S k). cbn [take concat length].
      rewrite Hs', Hr', Hs, Hr, <- !app_assoc.
      split; [lia|]. split; [done|]. split; [done|].
      intros Hc. by rewrite (Hall Hc).
Qed.



(** ** A negative [parallelFrames] *)

(** X5.  [splice(0, n)] with a negative [n] removes nothing: with a
    negative [parallelFrames] and a listing that is not empty the loop that
    builds the queue never ends, in [upscaleImages] and in the block of
    [upscaleGIF] and [upscaleVideo]. *)
Theorem a_negative_parallelFrames_never_ends env files dest u o progress P :
  Opt.parallelFrames o = Some P -> (P < 0)%Z -> files <> [] ->
  (forall fuel, queue_loop fuel P files = None) /\
  upscaleImages env files dest o progress = None /\
  (scale_is_not_1 o = true -> schedule_frames env u files o progress = None).
Proof.
  intros HP Hneg Hne.
  assert (parallel o = P) as Hpar.
  { unfold parallel. rewrite HP. cbn [truthyZ].
    by rewrite (proj2 (Z.eqb_neq P 0)) by lia. }
  assert (build_queue P files = None) as Hq
    by (apply queue_loop_stuck; [lia|done]).
  split; [intros fuel; apply queue_loop_stuck; [lia|done]|]. split.
  - by rewrite upscaleImages_eq, Hpar, Hq.
  - intros Hs. by rewrite (schedule_frames_eq env u files o progress Hs), Hpar, Hq.
Qed.

(** ** [upscaleImages] on the disk *)

Lemma parseFilename_folder source dest rename :
  (parseFilename source dest rename).1 = (parseFilename EmptyString dest EmptyString).1.
Proof.
  unfold parseFilename.
  destruct (negb (Str.nonempty dest)); [done|].
  by destruct (Str.includes (Path.basename dest) ".").
Qed.

(** The folder of line 126 is the same for every file. *)
Lemma upscaleImage_folder env f d o :
  sp_folder (upscaleImage env f d o).2 = image_folder d.
Proof.
  unfold upscaleImage, image_folder.
  pose proof (parseFilename_folder f (if negb (Str.nonempty d) then "./" else d)
                (default EmptyString
                   (Opt.rename match Opt.rename o with
                               | Some _ => o
                               | None => Opt.set_rename (Some "2x") o
                               end))) as H.
  destruct (parseFilename f _ _) as [folder0 image]. simpl in H.
  by destruct (truthyS (Opt.modelDir _)).
Qed.














(** Without a destination the folder of line 126 is the empty string, which
    [mkdirSync] refuses. *)
Lemma image_folder_default : image_folder EmptyString = EmptyString.
Proof. reflexivity. Qed.

Lemma line126_empty fs : line126 fs EmptyString = (fs, Throw "ENOENT").
Proof. reflexivity. Qed.






(** Without a destination the folder of line 126 is the empty string:
    every callback of the first group throws, [upscaleImages] rejects with
    [ENOENT], and no converter has been started. *)
Lemma start_all_io_default env g : forall st fs,
  exists st1,
    start_all_io (images_start_io env EmptyString) (st, fs) g
      = ((st1, fs), map (fun _ => Throw "ENOENT") g) /\
    spawned st1 = spawned st /\ calls st1 = calls st /\ results st1 = results st.
Proof.
  induction g as [|f g IH]; intros st fs; [by exists st|].
  cbn [start_all_io]. unfold images_start_io at 1.
  rewrite (surjective_pairing (upscaleImage env f EmptyString (options st))).
  rewrite upscaleImage_folder, image_folder_default, line126_empty.
  destruct (IH (with_options (line123 (options st)) (limit_check st)) fs)
    as (st1 & -> & Hs & Hc & Hr).
  exists st1. done.
Qed.

(** X20.  [upscaleImages] without a destination: [dest] becomes ["./"],
    [parseFilename] takes its last component [.] for a file name and gives
    the folder [""], and [mkdirSync("")] throws.  So, as soon as there is a
    file to upscale, the call rejects with [ENOENT]; no converter has been
    started, nothing is pushed, and the disk is as it was. *)
Theorem upscaleImages_without_a_destination_throws env ext files progress j :
  files <> [] -> (1 <= parallel (j_options j))%Z ->
  image_folder EmptyString = EmptyString /\
  exists j',
    upscaleImages_io env ext files EmptyString progress j = (j', Throw "ENOENT") /\
    j_spawned j' = j_spawned j /\
    disk (j_disk j') = disk (j_disk j) /\
    j_gifs j' = j_gifs j /\
    j_calls j' = j_calls j ++ match progress with
                              | Some _ => [(0%nat, length files)]
                              | None => []
                              end.
Proof.
  intros Hne HP. split; [done|].
  destruct (build_queue_partition (parallel (j_options j)) files HP)
    as (q & Hq & Hc & Hg & _).
  unfold upscaleImages_io.
  assert (default 0%Z (Opt.parallelFrames
                         (options (images_init files (j_options j) progress)))
          = parallel (j_options j)) as ->.
  { unfold images_init, parallel. cbn [options].
    destruct (truthyZ (Opt.limit (j_options j))); cbn [negb];
      destruct (truthyZ (Opt.parallelFrames (j_options j))) eqn:Ep; cbn [negb];
      cbn [Opt.set_limit Opt.parallelFrames]; rewrite ?Ep; done. }
  rewrite Hq. destruct q as [|g q]; [by destruct files|].
  assert (g <> []) as Hg0.
  { destruct (Hg 0%nat g eq_refl) as [_ Hl]. intros ->. simpl in Hl. lia. }
  cbn [run_queue_io]. unfold run_group_io.
  destruct (start_all_io_default env g (images_init files (j_options j) progress)
              (disk (j_disk j))) as (st1 & -> & Hs & Hk & Hr).
  destruct g as [|f g]; [done|]. cbn [map all_started].
  eexists. split; [reflexivity|]. unfold set_sched. cbn [j_spawned j_disk disk j_gifs j_calls].
  rewrite Hs, Hk. unfold images_init. cbn [spawned calls].
  rewrite app_nil_r. done.
Qed.

(** ** The claims at work *)


Lemma exits_all_demo_rev : exits_all Demo.env_rev.
Proof. intros g. symmetry. apply Permutation_rev. Qed.



(** Without a progress callback [counter] is never incremented, and a limit
    of two or more ends nothing: all five files are processed. *)
Remark limit_without_progress_callback :
  map sp_source
    (j_spawned
       (upscaleImages_io Demo.env Demo.works (Demo.images 5) "/out" None
          (Demo.job (Opt.set_limit (Some 2%Z) Opt.empty))).1)
  = Demo.images 5.
Proof. vm_compute. reflexivity. Qed.

(** Without a destination the call throws before any converter is
    started. *)
Remark upscaleImages_without_a_destination :
  let r := upscaleImages_io Demo.env Demo.works (Demo.images 5) EmptyString None
             (Demo.job Opt.empty) in
  r.2 = Throw "ENOENT" /\ j_spawned r.1 = [].
Proof. vm_compute. done. Qed.

Lemma C2_stop_drains_group_and_ends_loop_witness :
  let env := Demo.env_rev in
  let start := frames_start env "/w/upscaled" in
  let cb := Demo.stop_at_fourth in
  let st0 := {| options := Opt.empty; cancel := false; counter := 1;
                results := []; calls := [(0, 5)]%nat; spawned := [] |} in
  let pre := [["/w/frame0.jpg"; "/w/frame1.jpg"]] in
  let g := ["/w/frame2.jpg"; "/w/frame3.jpg"] in
  let post := [["/w/frame4.jpg"]] in
  let st := run_queue env start (Some cb) 5 st0 pre in
  let fin := run_queue env start (Some cb) 5 st0 (pre ++ g :: post) in
  fin = run_group env start (Some cb) 5 st g /\
  cancel fin = true /\
  map sp_source (spawned fin) = map sp_source (spawned st0) ++ concat pre ++ g /\
  length (results fin) = (length (results st0) + length (concat pre ++ g))%nat /\
  calls fin = calls st ++ reports (counter st) 5 (length g).
Proof.
  apply (C2_stop_drains_group_and_ends_loop Demo.env_rev
           (frames_start Demo.env_rev "/w/upscaled") Demo.stop_at_fourth 5
           {| options := Opt.empty; cancel := false; counter := 1;
              results := []; calls := [(0, 5)]%nat; spawned := [] |}
           [["/w/frame0.jpg"; "/w/frame1.jpg"]]
           ["/w/frame2.jpg"; "/w/frame3.jpg"] [["/w/frame4.jpg"]]).
  - apply start_frames.
  - exact exits_all_demo_rev.
  - vm_compute. reflexivity.
  - exists 0%nat. split; [simpl; lia|]. vm_compute. reflexivity.
Defined.

Lemma C3_ten_frames_in_groups_of_three_witness :
  exists q s,
    build_queue 3 (Demo.images 10) = Some q /\
    map length q = [3; 3; 3; 1]%nat /\
    concat q = Demo.images 10 /\
    schedule_frames Demo.env_rev "/w/upscaled" (Demo.images 10)
      (Opt.set_parallelFrames (Some 3%Z) Opt.empty) (Some Demo.never_stop) = Some s /\
    sc_ran s = true /\
    map sp_source (sc_spawned s) = Demo.images 10 /\
    sc_scaledFrames s =
      concat (map (fun g => exitOrder Demo.env_rev (map (scaled_path "/w/upscaled") g)) q) /\
    sc_scaledFrames s ≡ₚ map (scaled_path "/w/upscaled") (Demo.images 10) /\
    sc_calls s = [(0, 10); (1, 10); (2, 10); (3, 10); (4, 10); (5, 10);
                  (6, 10); (7, 10); (8, 10); (9, 10); (10, 10)]%nat /\
    length (sc_calls s) = S (length (sc_scaledFrames s)) /\
    (forall st ret,
       let st' := resume (Some Demo.never_stop) 10 st ret in
       results st' = results st ++ [ret] /\
       calls st' = calls st ++ [(counter st, 10%nat)] /\
       counter st' = S (counter st)).
Proof.
  apply (C3_ten_frames_in_groups_of_three Demo.env_rev "/w/upscaled"
           (Demo.images 10) (Opt.set_parallelFrames (Some 3%Z) Opt.empty)
           Demo.never_stop).
  - exact exits_all_demo_rev.
  - intros h. reflexivity.
  - reflexivity.
  - reflexivity.
  - reflexivity.
Defined.

Lemma C4_speed_subsamples_or_stretches_witness :
  let o := Opt.set_speed (Some (Num.ofZ 2)) Opt.empty in
  let frames := Demo.gif 20 in
  let s := Num.ofZ 2 in
  let total := length frames in
  let stride := step o total in
  (Num.ltb Num.one s = true ->
     stride = Num.ceil (Num.div (Num.ofNat total) (Num.div (Num.ofNat total) s)) /\
     (forall k, is_Z stride k -> (1 <= k)%Z ->
        exists frameArray delayArray,
          select_frames o "/w" frames = Some (frameArray, delayArray) /\
          (forall j : nat,
             frameArray !! j =
             (fun _ => frame_path "/w" (Z.of_nat j * k)) <$>
               frames !! Z.to_nat (Z.of_nat j * k)) /\
          (forall j : nat,
             delayArray !! j =
             frameInfo_delay <$> frames !! Z.to_nat (Z.of_nat j * k))) /\
     (stride = S754_infinity false ->
        forall fr, frames !! 0%nat = Some fr ->
          select_frames o "/w" frames =
          Some ([frame_path "/w" 0], [frameInfo_delay fr]))) /\
  (s = Num.ofZ 2 -> total = 20%nat ->
     stride = Num.ofZ 2 /\
     exists frameArray delayArray,
       select_frames o "/w" frames = Some (frameArray, delayArray) /\
       length frameArray = 10%nat /\
       frameArray = map (fun j => frame_path "/w" (2 * Z.of_nat j)) (seq 0 10) /\
       map Some delayArray =
       map (fun j => frameInfo_delay <$> frames !! (2 * j)%nat) (seq 0 10)) /\
  (Num.ltb s Num.one = true -> (Z.of_nat total < 2 ^ 32)%Z ->
     (frames <> [] -> stride = Num.one) /\
     exists frameArray delayArray,
       select_frames o "/w" frames = Some (frameArray, delayArray) /\
       frameArray = imap (fun j _ => frame_path "/w" (Z.of_nat j)) frames /\
       delayArray = map (fun fr => Num.div (frameInfo_delay fr) s) frames).
Proof.
  apply (C4_speed_subsamples_or_stretches
           (Opt.set_speed (Some (Num.ofZ 2)) Opt.empty) "/w" (Demo.gif 20)
           (Num.ofZ 2)).
  reflexivity.
Defined.

(** The scenario of C4 evaluated: twenty frames at speed 2. *)
Example speed_2_on_twenty_frames :
  is_Z (step (Opt.set_speed (Some (Num.ofZ 2)) Opt.empty) 20) 2 /\
  select_frames (Opt.set_speed (Some (Num.ofZ 2)) Opt.empty) "/w" (Demo.gif 20)
  = Some (map (fun i => frame_path "/w" (Z.of_nat (2 * i))) (seq 0 10),
          map (fun i => Num.ofNat (10 + 2 * i)) (seq 0 10)).
Proof. vm_compute. split; reflexivity. Qed.

(** The quotients are rounded: seventeen frames at speed 7 have
    [17 / (17 / 7) = 7.000000000000001], the stride is 8, and the frames
    0, 8 and 16 are kept. *)
Example speed_7_on_seventeen_frames :
  let o := Opt.set_speed (Some (Num.ofZ 7)) Opt.empty in
  Num.ltb (Num.ofZ 7) (Num.div (Num.ofNat 17) (Num.div (Num.ofNat 17) (Num.ofZ 7)))
    = true /\
  is_Z (step o 17) 8 /\
  fst <$> select_frames o "/w" (Demo.gif 17)
  = Some ["/w/frame0.jpg"; "/w/frame8.jpg"; "/w/frame16.jpg"].
Proof. vm_compute. repeat split; reflexivity. Qed.

(** The slow case evaluated: four frames at speed 1/2, every delay
    doubled. *)
Example speed_half_on_four_frames :
  select_frames
    (Opt.set_speed (Some (Num.div Num.one (Num.ofZ 2))) Opt.empty) "/w" (Demo.gif 4)
  = Some (["/w/frame0.jpg"; "/w/frame1.jpg"; "/w/frame2.jpg"; "/w/frame3.jpg"],
          [Num.ofZ 20; Num.ofZ 22; Num.ofZ 24; Num.ofZ 26]).
Proof. vm_compute. reflexivity. Qed.

Lemma C6_release_is_the_last_step_of_a_job_that_returns_witness :
  let j := Demo.job (Opt.set_parallelFrames (Some 3%Z) Opt.empty) in
  let r := upscaleGIF Demo.env Demo.works "/in/a.gif" "/out" None j in
  r.2 = Ok "/out/a2x.gif" /\ wf (disk (j_disk j)) /\
  (exists j1, release (gif_workspace Demo.env "/in/a.gif" "/out") j1 = (r.1, Ok tt)) /\
  wf (disk (j_disk r.1)) /\
  existsSync (disk (j_disk r.1)) (gif_workspace Demo.env "/in/a.gif" "/out") = false.
Proof.
  assert (wf Demo.fs) as Hwf by (apply wf_check_sound; vm_compute; reflexivity).
  split; [vm_compute; reflexivity|]. split; [exact Hwf|].
  destruct (proj1 (C6_release_is_the_last_step_of_a_job_that_returns Demo.env
                     Demo.works "/in/a.gif" "/out" None
                     (Demo.job (Opt.set_parallelFrames (Some 3%Z) Opt.empty))
                     (upscaleGIF Demo.env Demo.works "/in/a.gif" "/out" None
                        (Demo.job (Opt.set_parallelFrames (Some 3%Z) Opt.empty))).1
                     "/out/a2x.gif")) as [Hlast Hgone].
  { vm_compute. reflexivity. }
  split; [exact Hlast|]. apply Hgone. exact Hwf.
Defined.

(** C6 as the spec states it fails.  A GIF job whose converter writes no
    output: [imageSize] throws on the missing first frame, [encodeGIF]
    rejects, [upscaleGIF] rejects, and [removeDirectory] is never reached:
    the workspace [/out/aFrames] and the frames in it are still on the disk.
    A video job for which ffmpeg prints no duration of the intermediate file
    ends the same way. *)
Lemma C6_counterexample :
  (let r := upscaleGIF Demo.env Demo.converter_fails "/in/a.gif" "/out" None
              (Demo.job Opt.empty) in
   r.2 = Throw "ENOENT" /\
   existsSync (disk (j_disk r.1)) (gif_workspace Demo.env "/in/a.gif" "/out") = true /\
   existsSync (disk (j_disk r.1)) "/out/aFrames/frame0.jpg" = true) /\
  (let r := upscaleVideo Demo.env Demo.no_duration "/in/a.mp4" "/out" None
              (Demo.job Opt.empty) in
   r.2 = Throw "TypeError" /\
   existsSync (disk (j_disk r.1)) (video_workspace Demo.env "/in/a.mp4" "/out") = true /\
   existsSync (disk (j_disk r.1)) "/out/aFrames/frame1.png" = true).
Proof. vm_compute. repeat split; reflexivity. Qed.

Lemma C7_removeDirectory_refuses_root_and_current_directory_witness :
  let d := {| disk := Demo.fs; console := [] |} in
  removeDirectory' d "/" = (d, Ok tt) /\
  (forall fuel, removeDirectory (S fuel) d "/" = (d, Ok tt)) /\
  (forall j, j_disk j = d ->
     (release "/" j).2 = Ok tt /\ j_disk (release "/" j).1 = d).
Proof.
  apply (C7_removeDirectory_refuses_root_and_current_directory
           {| disk := Demo.fs; console := [] |} "/").
  left. reflexivity.
Defined.

(** C7 as the spec states it fails.  The guard of [removeDirectory] compares
    the string it is given, before any resolution: the path ["/."] resolves
    to the root, is not held back, and everything below the root is deleted
    ([rmdirSync] then refuses the path, which ends in [.]; the exception is
    caught and printed). *)
Lemma C7_counterexample :
  let d := {| disk := Demo.fs; console := [] |} in
  resolve (disk d) "/." = resolve (disk d) "/" /\
  resolve (disk d) "/." = [] /\
  existsSync (disk d) "/in/a.gif" = true /\
  (removeDirectory' d "/.").2 = Ok tt /\
  existsSync (disk (removeDirectory' d "/.").1) "/in/a.gif" = false /\
  map_to_list (nodes (disk (removeDirectory' d "/.").1)) = [] /\
  console (removeDirectory' d "/.").1 = ["EINVAL"].
Proof. vm_compute. repeat split; reflexivity. Qed.

(** A directory that is not guarded is emptied and removed. *)
Remark removeDirectory_removes_a_folder :
  let d := {| disk := Demo.fs; console := [] |} in
  map fst (map_to_list (nodes (disk (removeDirectory' d "/in").1)))
    ≡ₚ [["home"]; ["out"]].
Proof.
  vm_compute. apply (Permutation_swap ["home"] ["out"] []).
Qed.

Lemma C8_scale_1_skips_the_scheduler_witness :
  let o := Opt.mk None (Some Num.one) None None None None None None None None None
             None None None None None None None None None None None in
  let j := Demo.job o in
  let frameArray := Demo.images 3 in
  schedule_frames Demo.env "/w/upscaled" frameArray o (Some Demo.never_stop)
    = Some (frames_skipped frameArray o) /\
  sc_scaledFrames (frames_skipped frameArray o) = frameArray /\
  sc_spawned (frames_skipped frameArray o) = [] /\
  sc_calls (frames_skipped frameArray o) = [] /\
  schedule_frames_io Demo.env Demo.works "/w/upscaled" frameArray
      (Some Demo.never_stop) j
    = (j, Ok (frames_skipped frameArray o)) /\
  (let j' := (upscaleGIF Demo.env Demo.works "/in/a.gif" "/out"
                (Some Demo.never_stop) j).1 in
   j_spawned j' = j_spawned j /\ j_calls j' = j_calls j) /\
  (let j' := (upscaleVideo Demo.env Demo.works "/in/a.gif" "/out"
                (Some Demo.never_stop) j).1 in
   j_spawned j' = j_spawned j /\ j_calls j' = j_calls j).
Proof.
  apply (C8_scale_1_skips_the_scheduler Demo.env Demo.works "/w/upscaled"
           (Demo.images 3)
           (Opt.mk None (Some Num.one) None None None None None None None None None
              None None None None None None None None None None None)
           (Some Demo.never_stop) "/in/a.gif" "/out").
  - reflexivity.
  - reflexivity.
Defined.

(** C8 as the spec states it fails.  A single image with [scale = 1]:
    [upscaleImage] has no branch on the scale; it builds the command with
    [--scale-ratio 1] and hands it to [child_process.exec], and the path it
    returns is the one the converter is told to write, not the input. *)
Lemma C8_counterexample :
  let o := Opt.mk None (Some Num.one) None None None None None None None None None
             None None None None None None None None None None None in
  let sp := (upscaleImage Demo.env "/in/a.png" "/out" o).2 in
  sp_command sp =
    "cd /opt/waifu2x/waifu2x/ && waifu2x-converter-cpp.exe -i " +:+ Str.dq +:+
    "/in/a.png" +:+ Str.dq +:+ " -o " +:+ Str.dq +:+ "/out/a2x.png" +:+ Str.dq +:+
    " -s --scale-ratio 1" /\
  sp_destPath sp = "/out/a2x.png" /\
  sp_destPath sp <> sp_source sp.
Proof. vm_compute. repeat split; congruence. Qed.

(** C9 as the spec states it fails.  [upscaleGIF] called with the options
    [{parallelFrames: 3}] returns, and the object then also holds
    [cumulative: false] and an empty [rename]; [upscaleImages] called with [{}]
    leaves [limit], [parallelFrames] and [rename] in it. *)
Lemma C9_counterexample :
  (let o := Opt.set_parallelFrames (Some 3%Z) Opt.empty in
   let r := upscaleGIF Demo.env Demo.works "/in/a.gif" "/out" None (Demo.job o) in
   r.2 = Ok "/out/a2x.gif" /\
   j_options r.1 <> o /\
   j_options r.1 =
     Opt.set_cumulative (Some false) (Opt.set_rename (Some EmptyString) o)) /\
  ((fun st => options st) <$>
     upscaleImages Demo.env (Demo.images 2) "/out" Opt.empty None
   = Some (Opt.set_rename (Some "2x")
             (Opt.set_parallelFrames (Some 1%Z)
                (Opt.set_limit (Some 2%Z) Opt.empty)))).
Proof. vm_compute. repeat split; congruence. Qed.

(** ** The scheduling loops at work *)

Lemma progress_calls_are_numbered_without_a_gap_witness :
  let o := Opt.set_parallelFrames (Some 2%Z) Opt.empty in
  match upscaleImages Demo.env_rev (Demo.images 5) "/out" o (Some Demo.stop_at_fourth) with
  | Some st => calls st = reports 0 5 (S (length (results st)))
  | None => False
  end /\
  match schedule_frames Demo.env_rev "/w/upscaled" (Demo.images 5) o
          (Some Demo.stop_at_fourth) with
  | Some s => sc_calls s = reports 0 5 (S (length (sc_scaledFrames s)))
  | None => False
  end.
Proof.
  destruct (progress_calls_are_numbered_without_a_gap Demo.env_rev (Demo.images 5)
              "/out" "/w/upscaled" (Opt.set_parallelFrames (Some 2%Z) Opt.empty)
              Demo.stop_at_fourth exits_all_demo_rev) as [H1 H2].
  split.
  - destruct (upscaleImages _ _ _ _ _) as [st|] eqn:E.
    + exact (H1 st eq_refl).
    + vm_compute in E. discriminate E.
  - destruct (schedule_frames _ _ _ _ _) as [s|] eqn:E.
    + apply (H2 s eq_refl). vm_compute in E. injection E as <-. reflexivity.
    + vm_compute in E. discriminate E.
Defined.




Lemma upscaleImages_without_a_destination_throws_witness :
  let j := Demo.job Opt.empty in
  image_folder EmptyString = EmptyString /\
  exists j',
    upscaleImages_io Demo.env Demo.works (Demo.images 5) EmptyString None j
      = (j', Throw "ENOENT") /\
    j_spawned j' = j_spawned j /\
    disk (j_disk j') = disk (j_disk j) /\
    j_gifs j' = j_gifs j /\
    j_calls j' = j_calls j ++ [].
Proof.
  apply (upscaleImages_without_a_destination_throws Demo.env Demo.works
           (Demo.images 5) None (Demo.job Opt.empty)).
  - vm_compute. discriminate.
  - vm_compute. discriminate.
Defined.

(** With three frames at a time and children that exit last started first,
    [scaledFrames] is not in the order of [frameArray]. *)
Remark three_frames_at_a_time_finish_out_of_order :
  sc_scaledFrames <$>
    schedule_frames Demo.env_rev "/w/upscaled" (Demo.images 4)
      (Opt.set_parallelFrames (Some 3%Z) Opt.empty) None
  = Some ["/w/upscaled/img2.png"; "/w/upscaled/img1.png"; "/w/upscaled/img0.png";
          "/w/upscaled/img3.png"].
Proof. vm_compute. reflexivity. Qed.

Lemma a_negative_parallelFrames_never_ends_witness :
  let o := Opt.set_parallelFrames (Some (-1)%Z) Opt.empty in
  (forall fuel, queue_loop fuel (-1) (Demo.images 2) = None) /\
  upscaleImages Demo.env (Demo.images 2) "/out" o None = None /\
  schedule_frames Demo.env "/w/upscaled" (Demo.images 2) o None = None.
Proof.
  destruct (a_negative_parallelFrames_never_ends Demo.env (Demo.images 2) "/out"
              "/w/upscaled" (Opt.set_parallelFrames (Some (-1)%Z) Opt.empty) None
              (-1) eq_refl) as (H1 & H2 & H3).
  - lia.
  - vm_compute. discriminate.
  - split; [exact H1|]. split; [exact H2|]. apply H3. reflexivity.
Defined.

(** ** [removeDirectory] on a well-formed disk *)

Lemma NoDup_omap_inj {A B} (f : A -> option B) (l : list A) :
  NoDup l ->
  (forall x y z, x ∈ l -> y ∈ l -> f x = Some z -> f y = Some z -> x = y) ->
  NoDup (omap f l).
Proof.
  induction 1 as [|x l Hx Hl IH]; intros Hinj; [constructor|].
  simpl. destruct (f x) as [z|] eqn:E.
  - constructor.
    + intros Hz. apply list_elem_of_omap in Hz as (y & Hy & Hfy).
      apply Hx. rewrite (Hinj x y z); [done|left|by right|done|done].
    + apply IH. intros a b c Ha Hb. apply Hinj; by right.
  - apply IH. intros a b c Ha Hb. apply Hinj; by right.
Qed.

Lemma NoDup_children fs P : NoDup (children fs P).
Proof.
  unfold children. apply NoDup_omap_inj; [apply NoDup_fst_map_to_list|].
  intros k1 k2 n _ _ H1 H2.
  destruct (decide (removelast k1 = P)) as [E1|]; [|done].
  destruct (decide (removelast k2 = P)) as [E2|]; [|done].
  apply last_Some in H1 as [P1 ->]. apply last_Some in H2 as [P2 ->].
  rewrite removelast_last in E1, E2. congruence.
Qed.

Lemma forEach_one body d e :
  forEach body d [e] = body d e.
Proof. cbn [forEach]. by destruct (body d e) as [d' [[]|?|]]. Qed.

(** The loop of [removeDirectory] over entries that are there: it goes
    through, and prints nothing. *)
Lemma forEach_goes_through fuel dir P :
  (forall dm sub e, wf (disk dm) -> ends_in sub e -> is_name e = true ->
     node_at (disk dm) (resolve (disk dm) sub) = Some Dir ->
     (depth (disk dm) < fuel + length (resolve (disk dm) sub))%nat ->
     exists d', removeDirectory fuel dm sub = (d', Ok tt) /\ console d' = console dm) ->
  forall es d0,
    wf (disk d0) -> resolve (disk d0) dir = P ->
    Forall (fun e => is_name e = true) es -> NoDup es ->
    (forall e, e ∈ es -> is_Some (nodes (disk d0) !! (P ++ [e]))) ->
    (depth (disk d0) <= fuel + length P)%nat ->
    exists d1, forEach (rd_body fuel dir) d0 es = (d1, Ok tt) /\
               console d1 = console d0.
Proof.
  intros Hrec es. induction es as [|e es IHes];
    intros d0 Hwf HP Hes Hnd Hthere Hfuel; [by exists d0|].
  inversion Hes as [|? ? He Hes']; subst.
  inversion Hnd as [|? ? Hnotin Hnd']; subst.
  assert (exists dm, rd_body fuel dir d0 e = (dm, Ok tt) /\ console dm = console d0)
    as (dm & Hbody & Hcons).
  { unfold rd_body, lstatSync_isDirectory.
    pose proof (resolve_join (disk d0) dir e He) as Hj.
    pose proof (ends_in_join dir e He) as Hends.
    rewrite (lookup_ends_in _ _ _ Hends), Hj.
    rewrite node_at_lookup by apply snoc_not_nil.
    destruct (Hthere e ltac:(left)) as [[|] Hv]; rewrite Hv.
    - rewrite (unlinkSync_file _ _ e)
        by (done || (rewrite Hj; by rewrite node_at_lookup by apply snoc_not_nil)).
      eexists. split; reflexivity.
    - apply (Hrec _ _ e); [done|done|done| |].
      + rewrite Hj. by rewrite node_at_lookup by apply snoc_not_nil.
      + rewrite Hj, length_app. simpl. lia. }
  cbn [forEach]. rewrite Hbody.
  destruct (forEach_removes fuel dir (removeDirectory_removed fuel) [e] d0 dm)
    as (Hwfm & Hcwd & Hkeys);
    [done|by constructor|by rewrite forEach_one|].
  destruct (IHes dm) as (d1 & Hd1 & Hc1); try done.
  - by rewrite (resolve_cwd (disk dm) (disk d0)).
  - intros e' He'. rewrite Hkeys. rewrite decide_False; [apply Hthere; by right|].
    intros Hex. apply Exists_cons in Hex as [[s Hs]|Hex]; [|by inversion Hex].
    rewrite <- app_assoc in Hs. apply app_inv_head in Hs. injection Hs as -> _.
    done.
  - etransitivity; [|exact Hfuel]. apply depth_shrinks. intros k Hk.
    rewrite Hkeys in Hk. by destruct (decide _); [destruct Hk|].
  - exists d1. split; [done|congruence].
Qed.

Lemma last_name_resolve fs p :
  is_name (last_segment p) = true -> exists Q, resolve fs p = Q ++ [last_segment p].
Proof.
  intros He. unfold last_segment in *.
  destruct (Path.segments p) as [|x xs] eqn:E; [done|].
  destruct (snoc_inv (x :: xs) ltac:(done)) as (ys & n & Hx & _ & Hl).
  rewrite Hl in *. simpl in *.
  rewrite resolve_eq, E, Hx, foldl_app. simpl. rewrite ns_step_name by done.
  simpl. eauto.
Qed.

Lemma NoDup_sorted fs P : NoDup (merge_sort Str.le (children fs P)).
Proof. rewrite merge_sort_Permutation. apply NoDup_children. Qed.

Lemma removeDirectory_S_goes_through fuel d dir :
  (forall dm sub e, wf (disk dm) -> ends_in sub e -> is_name e = true ->
     node_at (disk dm) (resolve (disk dm) sub) = Some Dir ->
     (depth (disk dm) < fuel + length (resolve (disk dm) sub))%nat ->
     exists d', removeDirectory fuel dm sub = (d', Ok tt) /\ console d' = console dm) ->
  wf (disk d) -> guarded dir = false -> Str.nonempty dir = true ->
  node_at (disk d) (resolve (disk d) dir) = Some Dir ->
  (depth (disk d) <= fuel + length (resolve (disk d) dir))%nat ->
  exists d', removeDirectory (S fuel) d dir = (d', Ok tt) /\
    (is_name (last_segment dir) = true -> console d' = console d) /\
    (Path.segments dir = [] -> console d' = console d ++ ["EBUSY"]).
Proof.
  intros Hrec Hwf Hg Hne HP Hfuel. rewrite removeDirectory_S, Hg.
  unfold existsSync, readdirSync. rewrite (lookup_dir _ _ Hne HP).
  set (P := resolve (disk d) dir) in *.
  assert (Forall (fun e => is_name e = true)
            (merge_sort Str.le (children (disk d) P))) as Hnames.
  { apply Forall_forall. intros e He. rewrite sorted_elem_of in He.
    by apply (children_names (disk d) P). }
  destruct (forEach_goes_through fuel dir P Hrec
              (merge_sort Str.le (children (disk d) P)) d)
    as (d1 & Hloop & Hcons);
    [done|done|done|apply NoDup_sorted| |done|].
  { intros e He. rewrite sorted_elem_of in He. by apply elem_of_children. }
  rewrite Hloop.
  destruct (forEach_removes fuel dir (removeDirectory_removed fuel) _ d d1
              Hwf Hnames Hloop) as (Hwf1 & Hcwd1 & H1). fold P in H1.
  assert (node_at (disk d1) P = Some Dir) as HP1.
  { destruct P as [|x P'] eqn:EP; [done|]. rewrite <- EP in *.
    rewrite node_at_lookup by (by rewrite EP).
    rewrite H1, decide_False; [by rewrite <- HP, node_at_lookup by (by rewrite EP)|].
    intros Hex. apply Exists_exists in Hex as (e & _ & [s Hs]).
    apply (f_equal length) in Hs. rewrite !length_app in Hs. simpl in Hs. lia. }
  unfold rmdirSync.
  rewrite (lookup_dir (disk d1) dir Hne)
    by (by rewrite (resolve_cwd (disk d1) (disk d))).
  rewrite (resolve_cwd (disk d1) (disk d)) by done. fold P.
  destruct (Path.segments dir) as [|x xs] eqn:Eseg.
  { (* only slashes: the root *)
    assert (P = []) as EP.
    { unfold P. by rewrite resolve_eq, Eseg, (segments_none_absolute dir Hne Eseg). }
    unfold last_segment. rewrite Eseg, EP. simpl.
    eexists. split; [reflexivity|]. split; [done|]. intros _. by rewrite Hcons. }
  destruct (is_name (last_segment dir)) eqn:Hname.
  2:{ (* the path ends in [.] or [..]: the directory stays *)
      destruct (String.eqb (last_segment dir) ".");
        [eexists; split; [reflexivity|done]|].
      destruct (String.eqb (last_segment dir) "..");
        [eexists; split; [reflexivity|done]|].
      destruct P as [|y P']; [eexists; split; [reflexivity|done]|].
      destruct (children (disk d1) (y :: P')); eexists; (split; [reflexivity|done]). }
  destruct (is_name_spec _ Hname) as (_ & Hd1 & Hd2).
  apply String.eqb_neq in Hd1, Hd2. rewrite Hd1, Hd2.
  destruct (last_name_resolve (disk d) dir Hname) as [Q HQ]. fold P in HQ.
  assert (children (disk d1) P = []) as Hempty.
  { apply children_nil. intros n. rewrite H1.
    destruct (decide (Exists _ _)) as [|Hex]; [done|].
    destruct (nodes (disk d) !! (P ++ [n])) eqn:En; [|done].
    exfalso. apply Hex, Exists_exists. exists n.
    split; [rewrite sorted_elem_of; apply elem_of_children; eauto|done]. }
  destruct P as [|y P'] eqn:EP; [by destruct Q|]. rewrite <- EP in *.
  rewrite Hempty. eexists. split; [reflexivity|].
  split; [by intros _|done].
Qed.

Lemma removeDirectory_goes_through fuel : forall d dir,
  wf (disk d) -> guarded dir = false -> Str.nonempty dir = true ->
  node_at (disk d) (resolve (disk d) dir) = Some Dir ->
  (depth (disk d) <= fuel + length (resolve (disk d) dir))%nat ->
  exists d', removeDirectory (S fuel) d dir = (d', Ok tt) /\
    (is_name (last_segment dir) = true -> console d' = console d) /\
    (Path.segments dir = [] -> console d' = console d ++ ["EBUSY"]).
Proof.
  induction fuel as [|fuel IH]; intros d dir Hwf Hg Hne HP Hfuel;
    apply removeDirectory_S_goes_through; try done.
  - intros dm sub e Hwfm Hends He Hsub Hdeep. exfalso.
    destruct (ends_in_resolve (disk dm) sub e Hends He) as [Q HQ].
    rewrite node_at_lookup in Hsub by (rewrite HQ; apply snoc_not_nil).
    assert (length (resolve (disk dm) sub) <= depth (disk dm))%nat
      by (apply (depth_bound (disk dm) (depth (disk dm))); [lia|eauto]).
    lia.
  - intros dm sub e Hwfm Hends He Hsub Hdeep.
    destruct (IH dm sub Hwfm (ends_in_not_guarded _ _ Hends He)
                (proj1 Hends) Hsub ltac:(lia)) as (d' & Hrun & Hc & _).
    exists d'. split; [done|]. apply Hc.
    destruct Hends as (_ & _ & ->). done.
Qed.

(** X6.  [removeDirectory(dir)] on a disk where every entry lies in a
    directory, for a path without [.] and [..] that is not held back by
    the guard, by what the file system finds at [dir].
    - Nothing there (also: the empty string, and a file followed by a
      slash): [existsSync] is false, it returns and changes nothing.
    - A file at [dir]: [readdirSync] throws [ENOTDIR], nothing is changed.
    - A directory at [dir]: it returns, and exactly the entries at and
      below [dir] are gone.  When [dir] is not the root nothing is printed
      and a second call changes nothing; for a path of slashes only, the
      root, everything is deleted, and the exception of [rmdirSync] is
      printed. *)
Theorem removeDirectory_by_what_is_at_the_path d dir :
  wf (disk d) -> names_only dir -> guarded dir = false ->
  match lookup (disk d) dir with
  | Throw _ => existsSync (disk d) dir = false /\ removeDirectory' d dir = (d, Ok tt)
  | Ok (_, File) => removeDirectory' d dir = (d, Throw "ENOTDIR")
  | Ok (P, Dir) =>
      exists d',
        removeDirectory' d dir = (d', Ok tt) /\
        wf (disk d') /\ cwd (disk d') = cwd (disk d) /\
        (forall k, nodes (disk d') !! k =
                   if decide (P `prefix_of` k) then None
                   else nodes (disk d) !! k) /\
        (P <> [] ->
           console d' = console d /\
           existsSync (disk d') dir = false /\
           removeDirectory' d' dir = (d', Ok tt)) /\
        (P = [] -> console d' = console d ++ ["EBUSY"])
  | Never => False
  end.
Proof.
  intros Hwf Hnames Hg.
  destruct (lookup (disk d) dir) as [[P [|]]|e|] eqn:Hlook.
  - unfold removeDirectory'. rewrite removeDirectory_S, Hg.
    unfold existsSync, readdirSync. by rewrite Hlook.
  - destruct (lookup_Ok _ _ _ _ Hlook) as (Hne & -> & HP).
    destruct (removeDirectory_goes_through (depth (disk d)) d dir Hwf Hg Hne HP
                ltac:(lia)) as (d' & Hrun & Hc & Hroot).
    destruct (removeDirectory_removed _ _ _ _ Hwf Hrun)
      as (Hwf' & Hcwd & _ & _ & Hk).
    assert (existsSync (disk d) dir = true) as Hex
      by (unfold existsSync; by rewrite Hlook).
    specialize (Hk Hg Hex).
    assert (resolve (disk d) dir <> [] -> is_name (last_segment dir) = true)
      as Hlast.
    { intros HPne. unfold last_segment.
      destruct (Path.segments dir) as [|x xs] eqn:Eseg.
      - exfalso. apply HPne.
        by rewrite resolve_eq, Eseg, (segments_none_absolute dir Hne Eseg).
      - destruct (snoc_inv (x :: xs) ltac:(done)) as (ys & n & Hx & _ & Hl).
        rewrite Hl. simpl. unfold names_only in Hnames. rewrite Eseg, Hx in Hnames.
        apply Forall_app in Hnames as [_ Hn]. by inversion Hn. }
    assert (resolve (disk d) dir = [] -> Path.segments dir = []) as Hslashes.
    { intros HP0. destruct (Path.segments dir) as [|x xs] eqn:Eseg; [done|].
      exfalso.
      destruct (snoc_inv (x :: xs) ltac:(done)) as (ys & n & Hx & _ & Hl).
      assert (is_name (last_segment dir) = true) as Hn.
      { unfold last_segment. rewrite Eseg, Hl. simpl.
        unfold names_only in Hnames. rewrite Eseg, Hx in Hnames.
        apply Forall_app in Hnames as [_ Hn]. by inversion Hn. }
      destruct (last_name_resolve (disk d) dir Hn) as [Q HQ].
      rewrite HP0 in HQ. by destruct Q. }
    exists d'. split; [done|]. split; [done|]. split; [done|]. split.
    { intros k. rewrite Hk.
      destruct (decide (resolve (disk d) dir `prefix_of` k)) as [Hpre|Hpre].
      - destruct (decide (k = resolve (disk d) dir)) as [->|Hkne].
        + destruct (resolve (disk d) dir) as [|x P'] eqn:EP.
          * destruct (decide _); [done|].
            destruct (nodes (disk d) !! []) eqn:E0; [|done].
            by destruct (proj2 Hwf [] ltac:(eauto)) as [? _].
          * rewrite decide_True; [done|]. split; [done|]. intros _.
            apply Hlast. done.
        + by rewrite decide_True by (split; done).
      - by rewrite decide_False by (intros [? _]; done). }
    split; [|by intros HP0; apply Hroot, Hslashes].
    intros HPne. split; [by apply Hc, Hlast|].
    assert (existsSync (disk d') dir = false) as Hgone.
    { unfold existsSync, lookup. rewrite Hne. simpl.
      rewrite (resolve_cwd (disk d') (disk d)) by done.
      rewrite node_at_lookup, Hk, decide_True; [done| |done].
      split; [done|]. intros _. by apply Hlast. }
    split; [done|]. unfold removeDirectory'.
    by rewrite removeDirectory_S, Hg, Hgone.
  - unfold removeDirectory'. rewrite removeDirectory_S, Hg.
    unfold existsSync. by rewrite Hlook.
  - by apply lookup_not_never in Hlook.
Qed.

Lemma demo_disk_wf : wf Demo.fs.
Proof. apply wf_check_sound. vm_compute. reflexivity. Qed.

Lemma removeDirectory_by_what_is_at_the_path_witness :
  let d := {| disk := Demo.fs; console := [] |} in
  exists d',
    removeDirectory' d "/in" = (d', Ok tt) /\
    wf (disk d') /\ cwd (disk d') = cwd (disk d) /\
    (forall k, nodes (disk d') !! k =
               if decide (["in"] `prefix_of` k) then None
               else nodes (disk d) !! k) /\
    console d' = console d /\
    existsSync (disk d') "/in" = false /\
    removeDirectory' d' "/in" = (d', Ok tt).
Proof.
  pose proof (removeDirectory_by_what_is_at_the_path
                {| disk := Demo.fs; console := [] |} "/in"
                demo_disk_wf
                ltac:(apply (bool_decide_unpack _); vm_compute; reflexivity)
                eq_refl) as H.
  vm_compute lookup in H.
  destruct H as (d' & Hrun & Hwf & Hcwd & Hk & Hin & _).
  exists d'. split; [exact Hrun|]. split; [exact Hwf|]. split; [exact Hcwd|].
  split; [exact Hk|]. apply Hin. discriminate.
Defined.

(** ** What a job leaves alone *)

Section Keeps.

Variable I : FS -> Prop.
Variable ws : string.
Hypothesis I_mkdirSync : forall fs p, I fs -> I (mkdirSync fs p).1.
Hypothesis I_createWriteStream : forall fs p, I fs -> I (createWriteStream fs p).1.
Hypothesis I_removeDirectory : forall d d',
  I (disk d) -> removeDirectory' d ws = (d', Ok tt) -> I (disk d').

Lemma keeps_bind {A B} (m : M A) (k : A -> M B) :
  keeps I m -> (forall a, keeps I (k a)) -> keeps I (bind m k).
Proof.
  intros Hm Hk j j' b HI Hrun. apply bind_Ok in Hrun as (j1 & a & H1 & H2).
  eapply Hk; [|exact H2]. eapply Hm; eauto.
Qed.

Lemma keeps_if {A} (c : bool) (m1 m2 : M A) :
  keeps I m1 -> keeps I m2 -> keeps I (if c then m1 else m2).
Proof. by destruct c. Qed.

Lemma keeps_ret {A} (a : A) : keeps I (ret a).
Proof. intros j j' b HI [= <- _]. done. Qed.

Lemma keeps_never {A} : keeps I (@never A).
Proof. intros j j' b HI [=]. Qed.

Lemma keeps_lift {A} (r : Res A) : keeps I (lift r).
Proof. intros j j' b HI [= <- _]. done. Qed.

Lemma keeps_the_options : keeps I the_options.
Proof. intros j j' b HI [= <- _]. done. Qed.

Lemma keeps_write_options f : keeps I (write_options f).
Proof. intros j j' b HI [= <- _]. done. Qed.

Lemma keeps_exists p : keeps I (exists_ p).
Proof. intros j j' b HI [= <- _]. done. Qed.

Lemma keeps_run_ffmpeg ext run : keeps I (run_ffmpeg ext run).
Proof. intros j j' b HI [= <- _]. done. Qed.

Lemma keeps_on_fs {A} (f : FS -> FS * Res A) :
  (forall fs, I fs -> I (f fs).1) -> keeps I (on_fs f).
Proof.
  intros Hf j j' b HI Hrun. unfold on_fs in Hrun.
  specialize (Hf _ HI). destruct (f (disk (j_disk j))) as [fs' r].
  by injection Hrun as <- _.
Qed.

Lemma keeps_release : keeps I (release ws).
Proof.
  intros j j' [] HI Hrun. unfold release in Hrun.
  destruct (removeDirectory' (j_disk j) ws) as [d r] eqn:Hrd.
  injection Hrun as <- ->. simpl. by apply (I_removeDirectory (j_disk j)).
Qed.

Lemma keeps_write_frames paths : keeps I (write_frames paths).
Proof.
  intros j j' b HI Hrun. unfold write_frames in Hrun.
  assert (forall acc : FS * bool, I acc.1 ->
            I (foldl (fun acc p =>
                        let '(fs1, ok1) := createWriteStream acc.1 p in
                        (fs1, acc.2 && ok1)) acc paths).1) as H.
  { clear Hrun. induction paths as [|p paths IH]; intros acc Hacc; [done|].
    simpl. apply IH. pose proof (I_createWriteStream acc.1 p Hacc) as H.
    by destruct (createWriteStream acc.1 p). }
  specialize (H (disk (j_disk j), true) HI).
  destruct (foldl _ _ paths) as [fs' ok]. by injection Hrun as <- _.
Qed.

Lemma keeps_encodeGIF files delays dest quality :
  keeps I (encodeGIF files delays dest quality).
Proof.
  intros j j' b HI Hrun. unfold encodeGIF in Hrun.
  destruct files as [|f files]; [done|].
  destruct (negb (is_file _ f)); [done|].
  destruct (forallb _ _); [|done]. injection Hrun as <- _. simpl.
  by apply I_createWriteStream.
Qed.

Lemma line126_keeps fs folder : I fs -> I (line126 fs folder).1.
Proof.
  intros HI. unfold line126. destruct (existsSync fs folder); [done|].
  by apply I_mkdirSync.
Qed.

Lemma start_all_io_keeps env u x g : I x.2 -> I (start_all_io (frames_start_io env u) x g).1.2.
Proof.
  revert x. induction g as [|f g IH]; intros x HI; [done|]. simpl.
  assert (I (frames_start_io env u x f).1.2) as H1.
  { destruct x as [st fs]. unfold frames_start_io.
    destruct (upscaleImage env f _ (options st)) as [o sp].
    pose proof (line126_keeps fs (sp_folder sp) HI) as H.
    destruct (line126 fs (sp_folder sp)) as [fs' [[]|e|]]; try done.
    by destruct (frames_start env u st f). }
  destruct (frames_start_io env u x f) as [x1 r]. specialize (IH x1 H1).
  by destruct (start_all_io (frames_start_io env u) x1 g).
Qed.

Lemma run_queue_io_keeps env ext u progress total x q :
  I x.2 -> I (run_queue_io env ext (frames_start_io env u) progress total x q).1.2.
Proof.
  revert x. induction q as [|g q IH]; intros x HI; [done|].
  cbn [run_queue_io].
  assert (I (run_group_io env ext (frames_start_io env u) progress total x g).1.2) as Hg.
  { unfold run_group_io. pose proof (start_all_io_keeps env u x g HI) as H.
    destruct (start_all_io (frames_start_io env u) x g) as [[st1 fs1] rs].
    destruct (all_started rs) as [started|e|]; try done. simpl in *.
    clear -H I_createWriteStream. revert fs1 H.
    induction (map fst started) as [|sp sps IHs]; intros fs1 H; [done|].
    simpl. apply IHs. unfold converter_exit.
    destruct (converts ext sp); [|done]. by apply I_createWriteStream. }
  destruct (run_group_io env ext (frames_start_io env u) progress total x g) as [x' [[]|e|]]; try done.
  destruct (cancel x'.1); [done|]. by apply IH.
Qed.

Lemma keeps_schedule env ext u frameArray progress :
  keeps I (schedule_frames_io env ext u frameArray progress).
Proof.
  intros j j' b HI Hrun. unfold schedule_frames_io in Hrun.
  destruct (scale_is_not_1 (j_options j)); [|by injection Hrun as <- _].
  destruct (frames_init frameArray (j_options j) progress) as [o1 [[st q]|]];
    [|done].
  pose proof (run_queue_io_keeps env ext u progress (length frameArray)
                (st, disk (j_disk j)) q HI) as H.
  destruct (run_queue_io _ _ _ _ _ _ _) as [[st' fs'] [[]|e|]]; try done.
  by injection Hrun as <- _.
Qed.

Lemma keeps_acquire : keeps I (acquire ws).
Proof.
  unfold acquire. apply keeps_bind; [apply keeps_exists|intros there].
  apply keeps_bind; [destruct there; [apply keeps_release|apply keeps_ret]|intros _].
  apply keeps_on_fs. intros fs. apply I_mkdirSync.
Qed.

Lemma keeps_make_upscaled upScaleDest : keeps I (make_upscaled upScaleDest).
Proof.
  unfold make_upscaled. apply keeps_bind; [apply keeps_exists|intros there].
  destruct there; [apply keeps_ret|].
  apply keeps_on_fs. intros fs. apply I_mkdirSync.
Qed.

Lemma keeps_await_ffmpeg ext run : keeps I (await_ffmpeg ext run).
Proof.
  unfold await_ffmpeg. apply keeps_bind; [apply keeps_run_ffmpeg|intros ended].
  destruct ended; [|apply keeps_never].
  apply keeps_on_fs. intros fs HI.
  pose proof (I_createWriteStream fs (ff_save run) HI) as H.
  by destruct (createWriteStream fs (ff_save run)).
Qed.

Lemma keeps_extract_frames ext source frameDest fr :
  keeps I (extract_frames ext source frameDest fr).
Proof.
  unfold extract_frames. apply keeps_bind; [apply keeps_run_ffmpeg|intros ended].
  destruct ended; [|apply keeps_never].
  apply keeps_on_fs. intros fs HI. simpl.
  generalize (extracted frameDest (video_frames ext source)). intros paths.
  revert fs HI. induction paths as [|p paths IH]; intros fs HI; [done|].
  simpl. apply IH. by apply I_createWriteStream.
Qed.

Lemma keeps_extract_audio ext source frameDest :
  keeps I (extract_audio ext source frameDest).
Proof.
  unfold extract_audio. apply keeps_bind; [apply keeps_run_ffmpeg|intros ended].
  destruct ended; [|apply keeps_ret].
  apply keeps_bind; [|intros _; apply keeps_ret].
  apply keeps_on_fs. intros fs HI. by apply I_createWriteStream.
Qed.

Lemma keeps_list_frames ext frameDest : keeps I (list_frames ext frameDest).
Proof.
  unfold list_frames. apply keeps_bind; [|intros names; apply keeps_ret].
  by apply keeps_on_fs.
Qed.

Lemma keeps_step {A} (m : M A) j j' a :
  keeps I m -> I (disk (j_disk j)) -> m j = (j', Ok a) -> I (disk (j_disk j')).
Proof. intros Hm. apply Hm. Qed.

(** The steps of a job, one after the other. *)
Ltac keeps_walk :=
  repeat first
    [ apply keeps_ret | apply keeps_never | apply keeps_lift
    | apply keeps_the_options | apply keeps_write_options | apply keeps_exists
    | apply keeps_release | apply keeps_acquire | apply keeps_make_upscaled
    | apply keeps_write_frames | apply keeps_encodeGIF | apply keeps_schedule
    | apply keeps_await_ffmpeg | apply keeps_extract_frames
    | apply keeps_extract_audio | apply keeps_list_frames
    | apply keeps_if
    | apply keeps_bind; [|intros ?] ].

Lemma keeps_upscaleGIF env ext source dest progress :
  ws = gif_workspace env source dest ->
  keeps I (upscaleGIF env ext source dest progress).
Proof.
  unfold upscaleGIF, gif_workspace. intros Hws.
  destruct (job_folder env source _) as [folder image]. cbn [fst] in Hws.
  rewrite <- Hws. keeps_walk.
  destruct (select_frames _ _ _) as [[frameArray delayArray]|]; keeps_walk.
  destruct (reverse_step _ _ _) as [scaled delays]. keeps_walk.
Qed.

Lemma keeps_upscaleVideo env ext source dest progress :
  ws = video_workspace env source dest ->
  keeps I (upscaleVideo env ext source dest progress).
Proof.
  unfold upscaleVideo, video_workspace. intros Hws.
  destruct (job_folder env source _) as [folder image]. cbn [fst] in Hws.
  rewrite <- Hws. keeps_walk.
Qed.

End Keeps.

Lemma mkdir_walk_grows todo : forall fs seen k v,
  nodes fs !! k = Some v -> nodes (mkdir_walk fs seen todo).1 !! k = Some v.
Proof.
  induction todo as [|name todo IH]; intros fs seen k v Hk; [done|].
  cbn [mkdir_walk].
  destruct (node_at fs (seen ++ [name])) as [[|]|] eqn:E; [done|by apply IH|].
  apply IH. simpl. rewrite lookup_insert_ne; [done|].
  intros <-. rewrite node_at_lookup in E by apply snoc_not_nil. congruence.
Qed.

Lemma createWriteStream_grows fs p k v :
  nodes fs !! k = Some v -> nodes (createWriteStream fs p).1 !! k = Some v.
Proof.
  intros Hk. unfold createWriteStream.
  destruct (negb (names_a_file p)); [done|].
  destruct (node_at fs (removelast (resolve fs p))) as [[|]|]; try done.
  destruct (node_at fs (resolve fs p)) as [[|]|] eqn:E; try done; simpl.
  - destruct (decide (k = resolve fs p)) as [->|Hne];
      [|by rewrite lookup_insert_ne].
    rewrite lookup_insert_eq.
    destruct (resolve fs p); [done|]. simpl in E. congruence.
  - destruct (decide (k = resolve fs p)) as [->|Hne];
      [|by rewrite lookup_insert_ne].
    destruct (resolve fs p); [done|]. simpl in E. congruence.
Qed.

(** What every step of a job keeps: the disk is well-formed, the working
    directory is the same, and the entries of the first disk outside the
    workspace are there. *)
Lemma job_invariant fs0 ws :
  guarded ws = false ->
  let I := fun fs => wf fs /\ cwd fs = cwd fs0 /\
                     kept_outside (resolve fs0 ws) fs0 fs in
  (forall fs p, I fs -> I (mkdirSync fs p).1) /\
  (forall fs p, I fs -> I (createWriteStream fs p).1) /\
  (forall d d', I (disk d) -> removeDirectory' d ws = (d', Ok tt) -> I (disk d')).
Proof.
  intros Hg I. split; [|split].
  - intros fs p (Hwf & Hcwd & Hkept).
    destruct (mkdirSync_wf fs p Hwf) as [Hwf' Hcwd'].
    split; [done|]. split; [congruence|].
    intros k v Hk Hout. unfold mkdirSync.
    destruct (negb (Str.nonempty p)); [by apply Hkept|].
    by apply mkdir_walk_grows, Hkept.
  - intros fs p (Hwf & Hcwd & Hkept).
    destruct (createWriteStream_wf fs p Hwf) as [Hwf' Hcwd'].
    split; [done|]. split; [congruence|].
    intros k v Hk Hout. by apply createWriteStream_grows, Hkept.
  - intros d d' (Hwf & Hcwd & Hkept) Hrun.
    destruct (removeDirectory_removed _ _ _ _ Hwf Hrun)
      as (Hwf' & Hcwd' & _ & Hsame & Hk).
    split; [done|]. split; [congruence|].
    intros k v Hkv Hout.
    destruct (existsSync (disk d) ws) eqn:Hex;
      [|rewrite (Hsame eq_refl); by apply Hkept].
    rewrite (Hk Hg eq_refl).
    rewrite (resolve_cwd (disk d) fs0) by done.
    rewrite decide_False by (by intros [? _]). by apply Hkept.
Qed.

(** X7.  A job that returns has deleted nothing outside its workspace:
    every file and directory that was on the disk before [upscaleGIF] or
    [upscaleVideo] and does not lie in the workspace directory is there
    afterwards, as the file or directory it was. *)
Theorem a_job_that_returns_deletes_nothing_outside_its_workspace
  env ext source dest progress j j' out :
  wf (disk (j_disk j)) ->
  (upscaleGIF env ext source dest progress j = (j', Ok out) ->
   kept_outside (resolve (disk (j_disk j)) (gif_workspace env source dest))
     (disk (j_disk j)) (disk (j_disk j'))) /\
  (upscaleVideo env ext source dest progress j = (j', Ok out) ->
   kept_outside (resolve (disk (j_disk j)) (video_workspace env source dest))
     (disk (j_disk j)) (disk (j_disk j'))).
Proof.
  intros Hwf. split; intros Hrun.
  - destruct (job_invariant (disk (j_disk j)) (gif_workspace env source dest))
      as (H1 & H2 & H3); [apply frameDest_not_guarded|].
    eapply (keeps_upscaleGIF _ _ H1 H2 H3 env ext source dest progress eq_refl);
      [|exact Hrun].
    split; [done|]. split; [done|]. by intros k v Hk _.
  - destruct (job_invariant (disk (j_disk j)) (video_workspace env source dest))
      as (H1 & H2 & H3); [apply frameDest_not_guarded|].
    eapply (keeps_upscaleVideo _ _ H1 H2 H3 env ext source dest progress eq_refl);
      [|exact Hrun].
    split; [done|]. split; [done|]. by intros k v Hk _.
Qed.

Lemma a_job_that_returns_deletes_nothing_outside_its_workspace_witness :
  let j := Demo.job (Opt.set_parallelFrames (Some 3%Z) Opt.empty) in
  let j' := (upscaleGIF Demo.env Demo.works "/in/a.gif" "/out" None j).1 in
  kept_outside (resolve (disk (j_disk j)) (gif_workspace Demo.env "/in/a.gif" "/out"))
    (disk (j_disk j)) (disk (j_disk j')).
Proof.
  apply (proj1 (a_job_that_returns_deletes_nothing_outside_its_workspace
                  Demo.env Demo.works "/in/a.gif" "/out" None
                  (Demo.job (Opt.set_parallelFrames (Some 3%Z) Opt.empty))
                  (upscaleGIF Demo.env Demo.works "/in/a.gif" "/out" None
                     (Demo.job (Opt.set_parallelFrames (Some 3%Z) Opt.empty))).1
                  "/out/a2x.gif" demo_disk_wf)).
  vm_compute. reflexivity.
Defined.

(** ** The workspace when a job starts *)

(** What [acquire] does to the workspace of a job. *)
Lemma acquire_spec folder source j :
  wf (disk (j_disk j)) ->
  let ws := frameDest_of folder source in
  let W := resolve (disk (j_disk j)) ws in
  (node_at (disk (j_disk j)) W = Some File ->
   acquire ws j = (j, Throw "ENOTDIR")) /\
  (forall j', acquire ws j = (j', Ok tt) ->
     wf (disk (j_disk j')) /\
     node_at (disk (j_disk j')) W = Some Dir /\
     children (disk (j_disk j')) W = [] /\
     kept_outside W (disk (j_disk j)) (disk (j_disk j')) /\
     cwd (disk (j_disk j')) = cwd (disk (j_disk j))).
Proof.
  intros Hwf ws W.
  pose proof (frameDest_not_guarded folder source) as Hg. fold ws in Hg.
  pose proof (frameDest_resolves (disk (j_disk j)) folder source) as Hne.
  fold ws in Hne. fold W in Hne.
  destruct (frameDest_ends_in folder source) as (n & Hends & Hn). fold ws in Hends.
  split.
  - intros Hfile. unfold acquire, bind, exists_, existsSync.
    rewrite (lookup_ends_in _ _ _ Hends). fold W.
    rewrite Hfile. unfold release, removeDirectory'.
    rewrite removeDirectory_S, Hg. unfold existsSync, readdirSync.
    rewrite (lookup_ends_in _ _ _ Hends). fold W.
    rewrite Hfile. by destruct j as [[? ?] ? ? ? ? ?].
  - intros j' Hrun. unfold acquire in Hrun.
    apply bind_Ok in Hrun as (j0 & there & Hex & Hrun).
    injection Hex as <- <-.
    apply bind_Ok in Hrun as (j1 & [] & Hrel & Hmk).
    (* after the release nothing is at or below the workspace *)
    assert (wf (disk (j_disk j1)) /\ cwd (disk (j_disk j1)) = cwd (disk (j_disk j)) /\
            kept_outside W (disk (j_disk j)) (disk (j_disk j1)) /\
            forall k, W `prefix_of` k -> nodes (disk (j_disk j1)) !! k = None)
      as (Hwf1 & Hcwd1 & Hkept1 & Hgone).
    { destruct (existsSync (disk (j_disk j)) ws) eqn:Hthere.
      - unfold release in Hrel.
        destruct (removeDirectory' (j_disk j) ws) as [d r] eqn:Hrd.
        injection Hrel as <- ->. simpl.
        destruct (removeDirectory_removed_at _ _ _ _ _ Hwf Hends Hn Hrd)
          as (Hwf' & Hcwd & Hk).
        fold W in Hk.
        split; [done|]. split; [done|]. split.
        + intros k v Hkv Hout. by rewrite Hk, decide_False.
        + intros k Hpre. by rewrite Hk, decide_True.
      - injection Hrel as <-. split; [done|]. split; [done|].
        split; [by intros k v Hk _|].
        intros k Hpre. rewrite (existsSync_ends_in _ _ _ Hends) in Hthere.
        fold W in Hthere. apply bool_decide_eq_false in Hthere.
        destruct (node_at (disk (j_disk j)) W) eqn:EW; [by destruct Hthere|].
        destruct (nodes (disk (j_disk j)) !! k) eqn:Ek; [|done]. exfalso.
        destruct (wf_self_or_ancestor (disk (j_disk j)) k W Hwf) as [v Hv]; eauto.
        rewrite node_at_lookup in EW by done. congruence. }
    unfold on_fs in Hmk.
    destruct (mkdirSync (disk (j_disk j1)) ws) as [fs' r] eqn:Hmkdir.
    injection Hmk as <- ->. simpl.
    pose proof (mkdirSync_wf (disk (j_disk j1)) ws Hwf1) as [Hwf' Hcwd'].
    rewrite Hmkdir in Hwf', Hcwd'. simpl in Hwf', Hcwd'.
    unfold mkdirSync in Hmkdir. rewrite (proj1 Hends) in Hmkdir. simpl in Hmkdir.
    rewrite (resolve_cwd (disk (j_disk j1)) (disk (j_disk j))) in Hmkdir by done.
    fold W in Hmkdir.
    destruct (mkdir_walk_spec W _ [] _ Hmkdir eq_refl) as [Hdir Hnew].
    simpl in Hdir, Hnew. split; [done|]. split; [done|]. split; [|split].
    + apply children_nil. intros n0.
      destruct (nodes fs' !! (W ++ [n0])) as [v|] eqn:E; [|done]. exfalso.
      destruct (Hnew _ _ E) as [Hold|[_ Hpre]].
      * rewrite Hgone in Hold; [done|]. by apply prefix_app_r.
      * apply prefix_length in Hpre. rewrite length_app in Hpre. simpl in Hpre. lia.
    + intros k v Hk Hout.
      pose proof (mkdir_walk_grows W (disk (j_disk j1)) [] k v (Hkept1 k v Hk Hout)) as H.
      by rewrite Hmkdir in H.
    + congruence.
Qed.

(** X8.  Lines 270-271 and 377-378, for a workspace path without [.] and
    [..] on a disk that has the working directory.  A job starts with an
    empty workspace: whatever an earlier job left in the workspace
    directory is deleted, the directory is made, and nothing outside it is
    deleted.  When a file stands where the workspace goes, the job ends
    there with the exception of [readdirSync], the disk as it was. *)
Theorem a_job_starts_with_an_empty_workspace folder source j :
  wf (disk (j_disk j)) ->
  let ws := frameDest_of folder source in
  let W := resolve (disk (j_disk j)) ws in
  names_only ws ->
  node_at (disk (j_disk j)) (cwd (disk (j_disk j))) = Some Dir ->
  (node_at (disk (j_disk j)) W = Some File ->
   acquire ws j = (j, Throw "ENOTDIR")) /\
  (forall j', acquire ws j = (j', Ok tt) ->
     wf (disk (j_disk j')) /\
     node_at (disk (j_disk j')) W = Some Dir /\
     children (disk (j_disk j')) W = [] /\
     kept_outside W (disk (j_disk j)) (disk (j_disk j'))).
Proof.
  intros Hwf ws W _ _.
  destruct (acquire_spec folder source j Hwf) as [Hfile Hdir].
  split; [exact Hfile|]. intros j' Hrun.
  destruct (Hdir j' Hrun) as (H1 & H2 & H3 & H4 & _). done.
Qed.

Lemma a_job_starts_with_an_empty_workspace_witness :
  let ws := frameDest_of "/in" "a.gif" in
  (let j := Demo2.job Demo2.blocked Opt.empty in
   acquire ws j = (j, Throw "ENOTDIR")) /\
  (let j := Demo2.job Demo2.leftover Opt.empty in
   let j' := (acquire ws j).1 in
   let W := resolve (disk (j_disk j)) ws in
   (acquire ws j).2 = Ok tt /\
   wf (disk (j_disk j')) /\
   node_at (disk (j_disk j')) W = Some Dir /\
   children (disk (j_disk j')) W = [] /\
   kept_outside W (disk (j_disk j)) (disk (j_disk j'))).
Proof.
  split.
  - apply (a_job_starts_with_an_empty_workspace "/in" "a.gif"
             (Demo2.job Demo2.blocked Opt.empty)).
    + apply wf_check_sound. vm_compute. reflexivity.
    + apply (bool_decide_unpack _). vm_compute. reflexivity.
    + vm_compute. reflexivity.
    + vm_compute. reflexivity.
  - split; [vm_compute; reflexivity|].
    apply (a_job_starts_with_an_empty_workspace "/in" "a.gif"
             (Demo2.job Demo2.leftover Opt.empty)).
    + apply wf_check_sound. vm_compute. reflexivity.
    + apply (bool_decide_unpack _). vm_compute. reflexivity.
    + vm_compute. reflexivity.
    + vm_compute. reflexivity.
Defined.

(** ** The image [upscaleGIF] puts together *)

Lemma run_queue_field {T} (f : Opt.t -> T) env start progress total : forall q st,
  (forall st x, f (options (start st x).1) = f (options st)) ->
  f (options (run_queue env start progress total st q)) = f (options st).
Proof.
  intros q st Hstart. revert st. induction q as [|g q IH]; intros st; [done|].
  cbn [run_queue].
  assert (f (options (run_group env start progress total st g)) = f (options st)) as Hg.
  { unfold run_group.
    assert (f (options (start_all start st g).1) = f (options st)) as Hs.
    { revert st. induction g as [|x g IHg]; intros st; [done|]. simpl.
      specialize (Hstart st x). destruct (start st x) as [st1 ret].
      specialize (IHg st1). destruct (start_all start st1 g) as [st2 rets].
      simpl in *. congruence. }
    destruct (start_all start st g) as [st1 rets].
    by rewrite foldl_resume_options. }
  destruct (cancel _); [done|]. by rewrite IH.
Qed.

Lemma frames_start_field {T} (f : Opt.t -> T) env u st x :
  (forall v o, f (Opt.set_rename v o) = f o) ->
  (forall v o, f (Opt.set_modelDir v o) = f o) ->
  f (options (frames_start env u st x).1) = f (options st).
Proof.
  intros Hr Hm. unfold frames_start.
  pose proof (upscaleImage_options env x (u +:+ "/" +:+ Path.basename x) (options st)) as Ho.
  destruct (upscaleImage env x _ (options st)) as [o sp]. simpl in *. subst o.
  destruct (truthyS _); rewrite ?Hm; by destruct (Opt.rename (options st)); rewrite ?Hr.
Qed.

Lemma imap_zip {A B C} (g : B -> C) (l : list A) : forall ds : list B,
  length l = length ds ->
  imap (fun i x => (x, g <$> (ds !! i))) l =
  map (fun p => (p.1, Some (g p.2))) (zip l ds).
Proof.
  induction l as [|x l IH]; intros [|d ds] Hlen; try done.
  simpl. f_equal. rewrite <- (IH ds) by (simpl in Hlen; lia).
  by apply imap_ext.
Qed.

Lemma zip_map_l {A A' B} (f : A -> A') (l : list A) : forall ds : list B,
  zip (map f l) ds = map (fun p => (f p.1, p.2)) (zip l ds).
Proof.
  induction l as [|x l IH]; intros [|d ds]; try done. simpl. by rewrite IH.
Qed.

Lemma select_frames_speed o o' frameDest frames :
  Opt.speed o' = Opt.speed o ->
  select_frames o' frameDest frames = select_frames o frameDest frames.
Proof.
  intros H. unfold select_frames, step, constraint, speed_gt_1, speed_lt_1, speed_of.
  by rewrite H.
Qed.

Lemma select_frames_lengths o frameDest frames frameArray delayArray :
  select_frames o frameDest frames = Some (frameArray, delayArray) ->
  length frameArray = length delayArray.
Proof.
  unfold select_frames. destruct (downloadFrames _ _ _ _ _) as [kept|]; [|done].
  cbn [mbind option_bind]. intros [= <- <-].
  destruct (speed_lt_1 o); by rewrite !length_map.
Qed.

(** The block with one frame at a time and nothing that stops it. *)
Lemma schedule_frames_all_in_order env u frameArray o progress :
  exits_all env -> parallel o = 1%Z -> scale_is_not_1 o = true ->
  match progress with Some cb => never_stops cb | None => True end ->
  exists s,
    schedule_frames env u frameArray o progress = Some s /\
    sc_scaledFrames s = map (scaled_path u) frameArray /\
    Opt.reverse (sc_options s) = Opt.reverse o /\
    Opt.quality (sc_options s) = Opt.quality o.
Proof.
  intros Hex HP Hscale Hnev.
  destruct (build_queue_partition (parallel o) frameArray ltac:(lia))
    as (q & Hq & Hc & Hg & _).
  assert (Forall (fun g : list string => length g = 1%nat) q) as Hone.
  { apply Forall_lookup. intros i g Hi. destruct (Hg i g Hi) as [_ Hl].
    rewrite HP in Hl. simpl in Hl. lia. }
  rewrite (schedule_frames_eq env u frameArray o progress Hscale), Hq.
  cbn [mbind option_bind].
  set (st0 := block_init frameArray o progress).
  destruct (frames_run_in_order env u progress (length frameArray) q st0 Hex Hone)
    as (k & _ & _ & Hr & Hall).
  assert (cancel (run_queue env (frames_start env u) progress
                    (length frameArray) st0 q) = false) as Hcancel.
  { destruct progress as [cb|].
    - by destruct (frames_run_never env u cb (length frameArray) st0 q Hex Hnev eq_refl).
    - by apply frames_run_None. }
  eexists. split; [reflexivity|]. unfold frames_done.
  cbn [sc_scaledFrames sc_options]. cbv zeta in Hr. rewrite Hr, (Hall Hcancel).
  rewrite firstn_all, Hc. split; [done|].
  rewrite (run_queue_field Opt.reverse), (run_queue_field Opt.quality);
    try (intros; by apply frames_start_field).
  unfold st0, block_init. cbn [options]. by destruct (negb _).
Qed.

Lemma same_gifs_step {A} (m : M A) j j' r :
  same_gifs m -> m j = (j', r) -> j_gifs j' = j_gifs j.
Proof. intros Hm Hrun. specialize (Hm j). by rewrite Hrun in Hm. Qed.

Lemma quiet_step {A} (m : M A) j j' r :
  quiet m -> m j = (j', r) -> j_options j' = j_options j.
Proof.
  intros Hm Hrun. specialize (Hm j). rewrite Hrun in Hm.
  unfold view in Hm. simpl in Hm. congruence.
Qed.

Lemma same_gifs_release dir : same_gifs (release dir).
Proof. intros j. unfold release. by destruct (removeDirectory' _ _). Qed.

Lemma same_gifs_acquire dir : same_gifs (acquire dir).
Proof.
  intros j. unfold acquire, bind, exists_, on_fs, ret.
  destruct (existsSync _ _).
  - pose proof (same_gifs_release dir j) as H.
    destruct (release dir j) as [j1 [[]|e|]]; try done.
    simpl in *. by destruct (mkdirSync _ _).
  - by destruct (mkdirSync _ _).
Qed.

Lemma same_gifs_write_frames paths : same_gifs (write_frames paths).
Proof. intros j. unfold write_frames. by destruct (foldl _ _ _). Qed.

Lemma same_gifs_make_upscaled u : same_gifs (make_upscaled u).
Proof.
  intros j. unfold make_upscaled, bind, exists_, on_fs, ret.
  destruct (existsSync _ _); [done|]. by destruct (mkdirSync _ _).
Qed.

Lemma same_gifs_schedule env ext u frameArray progress :
  same_gifs (schedule_frames_io env ext u frameArray progress).
Proof.
  intros j. unfold schedule_frames_io.
  destruct (scale_is_not_1 _); [|done].
  destruct (frames_init _ _ _) as [o1 [[st q]|]]; [|done].
  by destruct (run_queue_io _ _ _ _ _ _ _) as [[st' fs'] [[]|e|]].
Qed.

Lemma quiet_acquire dir : quiet (acquire dir).
Proof.
  intros j. apply (preserves_acquire (fun v => v) always dir j). done.
Qed.

Lemma quiet_make_upscaled u : quiet (make_upscaled u).
Proof.
  intros j. apply (preserves_make_upscaled (fun v => v) always u j). done.
Qed.

(** X9.  The image [upscaleGIF] puts together when it returns.  With one
    frame at a time and no stop from the callback, or with
    [options.scale === 1], the image has one frame for every frame kept by
    the frame selection, read from its upscaled copy (from the frame itself
    when the scale is 1), each with ten times its own delay, all in the
    order of the source, or all reversed when [options.reverse] is set. *)
Theorem the_image_pairs_every_frame_with_its_delay
  env ext source dest progress j j' out :
  let o := j_options j in
  let ws := gif_workspace env source dest in
  (scale_is_not_1 o = true ->
     exits_all env /\ parallel o = 1%Z /\
     match progress with Some cb => never_stops cb | None => True end) ->
  upscaleGIF env ext source dest progress j = (j', Ok out) ->
  exists frames frameArray delayArray,
    gifFrames ext source (truthyB (Opt.cumulative o)) = Ok frames /\
    select_frames o ws frames = Some (frameArray, delayArray) /\
    j_gifs j' = j_gifs j ++
      [{| gif_dest := out;
          gif_quality :=
            if negb (truthyZ (Opt.quality o)) then 10%Z
            else default 0%Z (Opt.quality o);
          gif_frames :=
            map (fun p => (encoded_frame o (ws +:+ "/upscaled") p.1,
                           Some (Num.mul ten p.2)))
                (if truthyB (Opt.reverse o) then rev (zip frameArray delayArray)
                 else zip frameArray delayArray) |}].
Proof.
  intros o ws Hsched. unfold upscaleGIF. intros H.
  assert (ws = frameDest_of
                 (job_folder env source
                    (if negb (Str.nonempty dest) then "./" else dest)).1 source)
    as Hws by done.
  destruct (job_folder env source _) as [folder image] eqn:Hjf.
  cbn [fst] in Hws. rewrite <- Hws in H.
  repeat unbind H.
  destruct (select_frames _ _ _) as [[frameArray delayArray]|] eqn:Hsel; [|done].
  repeat unbind H.
  destruct (reverse_step _ _ _) as [scaled delays] eqn:Hrev.
  repeat unbind H. injection H as <- <-.
  (* the options along the way *)
  unfold write_options in Hm. injection Hm as <- _.
  injection Hm0 as <- <-. unfold lift in Hm1. injection Hm1 as <- Hframes.
  set (o1 := if negb (truthyB (Opt.cumulative (j_options j)))
             then Opt.set_cumulative (Some false) (j_options j)
             else j_options j) in *.
  set (j0 := set_options o1 j) in *.
  assert (Opt.speed o1 = Opt.speed o /\ Opt.reverse o1 = Opt.reverse o /\
          Opt.quality o1 = Opt.quality o /\ Opt.scale o1 = Opt.scale o /\
          Opt.parallelFrames o1 = Opt.parallelFrames o /\
          truthyB (Opt.cumulative o1) = truthyB (Opt.cumulative o))
    as (Hspeed & Hreverse & Hquality & Hscale & Hpar & Hcum).
  { unfold o1, o. destruct (truthyB (Opt.cumulative (j_options j))) eqn:E; simpl;
      by rewrite ?E. }
  pose proof (quiet_step _ _ _ _ (quiet_acquire _) Hm2) as Ho3.
  pose proof (quiet_step _ _ _ _ (quiet_write_frames _) Hm3) as Ho4.
  pose proof (quiet_step _ _ _ _ (quiet_make_upscaled _) Hm4) as Ho5.
  unfold write_options in Hm5. injection Hm5 as <- _.
  destruct (schedule_frames_io_refines _ _ _ _ _ _ _ _ Hm6) as (Hsc & Ho7 & _).
  injection Hm7 as <- <-.
  (* the images along the way *)
  pose proof (same_gifs_step _ _ _ _ (same_gifs_acquire _) Hm2) as Hg3.
  pose proof (same_gifs_step _ _ _ _ (same_gifs_write_frames _) Hm3) as Hg4.
  pose proof (same_gifs_step _ _ _ _ (same_gifs_make_upscaled _) Hm4) as Hg5.
  pose proof (same_gifs_step _ _ _ _ (same_gifs_schedule _ _ _ _ _) Hm6) as Hg7.
  pose proof (same_gifs_step _ _ _ _ (same_gifs_release _) Hm9) as Hg9.
  cbn [set_options j_options j_gifs] in *.
  rewrite Ho5, Ho4, Ho3 in Hsc. cbn [j0 set_options j_options] in Hsc.
  set (o2 := Opt.set_rename (Some EmptyString) o1) in *.
  set (u := ws +:+ "/upscaled") in *.
  (* what the block hands over *)
  assert (sc_scaledFrames a6 = map (encoded_frame o u) frameArray /\
          Opt.reverse (sc_options a6) = Opt.reverse o /\
          Opt.quality (sc_options a6) = Opt.quality o) as (Hscaled & Hrev6 & Hq6).
  { assert (scale_is_not_1 o2 = scale_is_not_1 o) as Hs2
      by (unfold scale_is_not_1, o2; simpl; by rewrite Hscale).
    assert (parallel o2 = parallel o) as Hp2
      by (unfold parallel, o2; simpl; by rewrite Hpar).
    unfold encoded_frame. destruct (scale_is_not_1 o) eqn:Es.
    - destruct (Hsched eq_refl) as (Hex & HP & Hnev).
      destruct (schedule_frames_all_in_order env u frameArray o2 progress Hex)
        as (s & Hs & Hsf & Hr & Hq); [congruence|done|done|].
      rewrite Hs in Hsc. injection Hsc as <-.
      split; [done|]. unfold o2 in Hr, Hq. simpl in Hr, Hq. split; congruence.
    - unfold schedule_frames in Hsc. rewrite Hs2 in Hsc. injection Hsc as <-.
      unfold frames_skipped, o2. simpl. rewrite map_id. split; [done|].
      split; congruence. }
  exists a1, frameArray, delayArray.
  split; [by rewrite <- Hcum|].
  split; [by rewrite <- (select_frames_speed o o1)|].
  (* the encoder *)
  unfold encodeGIF in Hm8.
  destruct scaled as [|first rest] eqn:Escaled; [done|]. rewrite <- Escaled in *.
  destruct (negb (is_file _ first)); [done|].
  destruct (forallb _ _); [|done]. injection Hm8 as <- _.
  cbn [j_gifs set_fs] in Hg9. rewrite Hg9, Hg7, Hg5, Hg4, Hg3.
  cbn [j0 set_options j_gifs]. do 2 f_equal.
  rewrite Ho7, Hq6. f_equal.
  assert (length (sc_scaledFrames a6) = length delayArray) as Hlen.
  { rewrite Hscaled, length_map. by apply (select_frames_lengths o1 ws a1). }
  unfold reverse_step in Hrev. rewrite Ho7, Hrev6 in Hrev.
  destruct (truthyB (Opt.reverse o)); injection Hrev as <- <-.
  - rewrite imap_zip by (by rewrite !length_rev).
    rewrite zip_rev by done. rewrite Hscaled, zip_map_l, <- map_rev, map_map.
    done.
  - rewrite imap_zip by done. rewrite Hscaled, zip_map_l, map_map. done.
Qed.

Lemma the_image_pairs_every_frame_with_its_delay_witness :
  let j := Demo.job (Opt.set_reverse (Some true) Opt.empty) in
  let o := j_options j in
  let ws := gif_workspace Demo.env_rev "/in/a.gif" "/out" in
  let r := upscaleGIF Demo.env_rev Demo.works "/in/a.gif" "/out"
             (Some Demo.never_stop) j in
  r.2 = Ok "/out/a2x.gif" /\
  exists frames frameArray delayArray,
    gifFrames Demo.works "/in/a.gif" (truthyB (Opt.cumulative o)) = Ok frames /\
    select_frames o ws frames = Some (frameArray, delayArray) /\
    j_gifs r.1 = j_gifs j ++
      [{| gif_dest := "/out/a2x.gif";
          gif_quality :=
            if negb (truthyZ (Opt.quality o)) then 10%Z
            else default 0%Z (Opt.quality o);
          gif_frames :=
            map (fun p => (encoded_frame o (ws +:+ "/upscaled") p.1,
                           Some (Num.mul ten p.2)))
                (if truthyB (Opt.reverse o) then rev (zip frameArray delayArray)
                 else zip frameArray delayArray) |}].
Proof.
  split; [vm_compute; reflexivity|].
  apply (the_image_pairs_every_frame_with_its_delay Demo.env_rev Demo.works
           "/in/a.gif" "/out" (Some Demo.never_stop)
           (Demo.job (Opt.set_reverse (Some true) Opt.empty))).
  - intros _. split; [exact exits_all_demo_rev|].
    split; [reflexivity|]. intros h. reflexivity.
  - vm_compute. reflexivity.
Defined.

(** The image at work: four frames with the delays 10, 11, 12 and 13,
    reversed. *)
Example a_reversed_image :
  let j := Demo.job (Opt.set_reverse (Some true) Opt.empty) in
  map gif_frames
    (j_gifs (upscaleGIF Demo.env_rev Demo.works "/in/a.gif" "/out" None j).1)
  = [[("/out/aFrames/upscaled/frame3.jpg", Some (Num.mul ten (Num.ofZ 13)));
      ("/out/aFrames/upscaled/frame2.jpg", Some (Num.mul ten (Num.ofZ 12)));
      ("/out/aFrames/upscaled/frame1.jpg", Some (Num.mul ten (Num.ofZ 11)));
      ("/out/aFrames/upscaled/frame0.jpg", Some (Num.mul ten (Num.ofZ 10)))]].
Proof. reflexivity. Qed.

(** ** File names *)

Lemma substring_0_length s : String.substring 0 (String.length s) s = s.
Proof. induction s as [|c s IH]; [done|]. simpl. by rewrite IH. Qed.

Lemma substring_split s : forall i,
  (i <= String.length s)%nat ->
  String.substring 0 i s +:+ String.substring i (String.length s - i) s = s.
Proof.
  induction s as [|c s IH]; intros [|i] Hi; simpl in *; try done; try lia.
  - by rewrite substring_0_length.
  - change (String c (String.substring 0 i s +:+
                      String.substring i (String.length s - i) s) = String c s).
    f_equal. apply IH. lia.
Qed.

Lemma substring_length s : forall i n,
  (i + n <= String.length s)%nat ->
  String.length (String.substring i n s) = n.
Proof.
  induction s as [|c s IH]; intros [|i] [|n] Hi; simpl in *; try done; try lia.
  - rewrite (IH 0%nat n) by lia. done.
  - apply IH. lia.
  - apply IH. lia.
Qed.

Lemma lastIndexOf_from_bounds c s : forall i j,
  Str.lastIndexOf_from c s i = Some j -> (i <= j < i + String.length s)%nat.
Proof.
  induction s as [|d s IH]; intros i j H; [done|]. simpl in H.
  destruct (Str.lastIndexOf_from c s (S i)) as [k|] eqn:E.
  - injection H as <-. apply IH in E. simpl. lia.
  - destruct (Ascii.eqb c d); [|done]. injection H as <-. simpl. lia.
Qed.

Lemma append_empty_r s : s +:+ EmptyString = s.
Proof.
  induction s as [|c s IH]; [done|].
  change (String c (s +:+ EmptyString) = String c s). by f_equal.
Qed.

(** The name of a file is its stem followed by its extension. *)
Lemma stem_and_extension p :
  Path.basename_ext p (Path.extname p) +:+ Path.extname p = Path.basename p /\
  (Path.extname p <> EmptyString ->
   Path.basename_ext p (Path.extname p) <> EmptyString).
Proof.
  unfold Path.basename_ext, Path.extname.
  set (b := Path.basename p).
  destruct (String.eqb b "..").
  { simpl. split; [apply append_empty_r|done]. }
  destruct (Str.lastIndexOf Path.dot b) as [[|i]|] eqn:E.
  - simpl. split; [apply append_empty_r|done].
  - apply lastIndexOf_from_bounds in E. simpl in E.
    set (n := String.length b) in *.
    set (ext := String.substring (S i) (n - S i) b).
    assert (String.length ext = (n - S i)%nat) as Hlen
      by (apply substring_length; lia).
    assert (Str.nonempty ext = true) as ->.
    { destruct ext; [simpl in Hlen; lia|done]. }
    assert (Str.endsWith b ext = true) as ->.
    { unfold Str.endsWith. fold n. rewrite Hlen.
      replace (n - (n - S i))%nat with (S i) by lia. fold ext.
      rewrite String.eqb_refl. apply andb_true_intro. split; [|done].
      apply Nat.leb_le. lia. }
    assert (String.eqb b ext = false) as ->.
    { apply String.eqb_neq. intros Hb. apply (f_equal String.length) in Hb.
      fold n in Hb. lia. }
    cbn [andb negb]. rewrite Hlen.
    replace (n - (n - S i))%nat with (S i) by lia.
    split; [apply substring_split; lia|].
    intros _ Hstem. apply (f_equal String.length) in Hstem.
    rewrite substring_length in Hstem by lia. done.
  - simpl. split; [apply append_empty_r|done].
Qed.

(** X10.  [parseFilename] for a destination that names a folder (no dot in
    its last component): the name of the output is the name of the source
    with [rename] put in before the extension.  With an empty [rename], as
    [upscaleGIF] and [upscaleVideo] set it, the output has the name of the
    source. *)
Theorem the_output_is_named_after_the_source source dest rename :
  Str.includes (Path.basename dest) "." = false ->
  exists stem,
    Path.basename source = stem +:+ Path.extname source /\
    (parseFilename source dest rename).2 = stem +:+ rename +:+ Path.extname source /\
    (Path.extname source <> EmptyString -> stem <> EmptyString) /\
    (parseFilename source dest EmptyString).2 = Path.basename source.
Proof.
  intros Hdot. destruct (stem_and_extension source) as [Hname Hstem].
  exists (Path.basename_ext source (Path.extname source)).
  assert (forall r, (parseFilename source dest r).2 =
                    Path.basename_ext source (Path.extname source) +:+ r +:+
                    Path.extname source) as Himage.
  { intros r. unfold parseFilename.
    destruct (negb (Str.nonempty dest)); [done|]. by rewrite Hdot. }
  split; [done|]. split; [apply Himage|]. split; [done|].
  by rewrite Himage.
Qed.

Lemma the_output_is_named_after_the_source_witness :
  exists stem,
    Path.basename "/in/pic.v2.png" = stem +:+ Path.extname "/in/pic.v2.png" /\
    (parseFilename "/in/pic.v2.png" "/out/" "2x").2 =
      stem +:+ "2x" +:+ Path.extname "/in/pic.v2.png" /\
    (Path.extname "/in/pic.v2.png" <> EmptyString -> stem <> EmptyString) /\
    (parseFilename "/in/pic.v2.png" "/out/" EmptyString).2 =
      Path.basename "/in/pic.v2.png".
Proof.
  apply (the_output_is_named_after_the_source "/in/pic.v2.png" "/out/" "2x").
  reflexivity.
Defined.

Example a_name_with_two_dots :
  parseFilename "/in/pic.v2.png" "/out/" "2x" = ("/out", "pic.v22x.png").
Proof. reflexivity. Qed.

(** X11.  [parseDest] names the file [upscaleImage] writes: its result is
    the normalised form of the path [upscaleImage] hands to the converter
    and returns, it resolves to the same file, and both functions write the
    same default into [options.rename]. *)
Theorem parseDest_names_the_file_upscaleImage_writes env source dest o fs :
  let written := sp_destPath (upscaleImage env source dest o).2 in
  (parseDest env source dest o).2 = Path.normalize written /\
  resolve fs (parseDest env source dest o).2 = resolve fs written /\
  Opt.rename (parseDest env source dest o).1 = Opt.rename (upscaleImage env source dest o).1.
Proof.
  assert ((parseDest env source dest o).2 =
          Path.normalize (sp_destPath (upscaleImage env source dest o).2)) as H.
  { unfold parseDest, upscaleImage.
    destruct (parseFilename source _ _) as [folder image].
    by destruct (truthyS (Opt.modelDir _)). }
  cbv zeta. split; [done|]. split; [by rewrite H, resolve_normalize|].
  rewrite upscaleImage_options. unfold parseDest.
  destruct (parseFilename source _ _) as [folder image]. cbn [fst].
  by destruct (truthyS _), (Opt.rename o).
Qed.

(** ** What the jobs write into the options object, and nothing else *)

Section Field.

Context {T : Type} (f : Opt.t -> T).
Hypothesis f_rename : forall v o, f (Opt.set_rename v o) = f o.
Hypothesis f_modelDir : forall v o, f (Opt.set_modelDir v o) = f o.
Hypothesis f_cumulative : forall v o, f (Opt.set_cumulative v o) = f o.
Hypothesis f_parallelFrames : forall v o, f (Opt.set_parallelFrames v o) = f o.
Hypothesis f_framerate : forall v o, f (Opt.set_framerate v o) = f o.
Hypothesis f_speed : forall v o, f (Opt.set_speed v o) = f o.
Hypothesis f_reverse : forall v o, f (Opt.set_reverse v o) = f o.

Lemma upscaleImage_field env source dest o :
  f (upscaleImage env source dest o).1 = f o.
Proof.
  rewrite upscaleImage_options. cbv zeta.
  destruct (truthyS (Opt.modelDir o)); rewrite ?f_modelDir;
    by destruct (Opt.rename o); rewrite ?f_rename.
Qed.

Lemma frames_start_io_field env u x g :
  f (options (frames_start_io env u x g).1.1) = f (options x.1).
Proof.
  destruct x as [st fs]. unfold frames_start_io.
  pose proof (upscaleImage_field env g (scaled_path u g) (options st)) as H.
  unfold frames_start. unfold scaled_path in *.
  destruct (upscaleImage env g _ (options st)) as [o sp].
  destruct (line126 fs (sp_folder sp)) as [fs' [[]|e|]]; simpl; [done| |];
    unfold line123; by destruct (Opt.rename (options st)); rewrite ?f_rename.
Qed.

Lemma run_queue_io_field env ext u progress total x q :
  f (options (run_queue_io env ext (frames_start_io env u) progress total x q).1.1) = f (options x.1).
Proof.
  revert x. induction q as [|g q IH]; intros x; [done|].
  cbn [run_queue_io].
  assert (f (options (run_group_io env ext (frames_start_io env u) progress total x g).1.1)
          = f (options x.1)) as Hg.
  { unfold run_group_io.
    assert (f (options (start_all_io (frames_start_io env u) x g).1.1) = f (options x.1)) as Hs.
    { revert x. induction g as [|y g IHg]; intros x; [done|]. simpl.
      pose proof (frames_start_io_field env u x y) as H.
      destruct (frames_start_io env u x y) as [x1 r].
      specialize (IHg x1). destruct (start_all_io (frames_start_io env u) x1 g) as [x2 rs].
      simpl in *. congruence. }
    destruct (start_all_io (frames_start_io env u) x g) as [[st1 fs1] rs].
    destruct (all_started rs); simpl in *; try done.
    by rewrite foldl_resume_options. }
  destruct (run_group_io env ext (frames_start_io env u) progress total x g) as [x' [[]|e|]]; try done.
  destruct (cancel x'.1); [done|]. by rewrite IH.
Qed.

Lemma preserves_schedule_field env ext u frameArray progress :
  preserves (obs_field f) always (schedule_frames_io env ext u frameArray progress).
Proof.
  intros j _. unfold schedule_frames_io, obs_field, view.
  destruct (scale_is_not_1 (j_options j)); [|done].
  unfold frames_init.
  destruct (build_queue _ frameArray) as [q|]; cbn [mbind option_bind].
  - pose proof (run_queue_io_field env ext u progress (length frameArray)) as H.
    match goal with
    | |- context [run_queue_io _ _ _ _ _ ?x q] => specialize (H x q)
    end.
    destruct (run_queue_io _ _ _ _ _ _ _) as [[st' fs'] [[]|e|]]; simpl in *;
      rewrite H; by destruct (negb _); rewrite ?f_parallelFrames.
  - simpl. by destruct (negb _); rewrite ?f_parallelFrames.
Qed.

Lemma preserves_upscaleGIF_field env ext source dest progress :
  preserves (obs_field f) always (upscaleGIF env ext source dest progress).
Proof.
  unfold upscaleGIF.
  destruct (job_folder env source _) as [folder image].
  apply preserves_bind; [|intros _].
  { apply preserves_write_options. intros o c s. unfold obs_field. simpl.
    by destruct (negb (truthyB (Opt.cumulative o))); rewrite ?f_cumulative. }
  apply preserves_bind; [by apply quiet_preserves, quiet_the_options|intros o].
  apply preserves_bind; [by apply quiet_preserves, quiet_lift|intros frames].
  apply preserves_bind; [apply preserves_acquire|intros _].
  destruct (select_frames o _ frames) as [[frameArray delayArray]|];
    [|by apply quiet_preserves, quiet_never].
  apply preserves_bind; [by apply quiet_preserves, quiet_write_frames|intros _].
  apply preserves_bind; [apply preserves_make_upscaled|intros _].
  apply preserves_bind; [|intros _].
  { apply preserves_write_options. intros o1 c s. apply f_rename. }
  apply preserves_bind; [apply preserves_schedule_field|intros sc].
  apply preserves_bind; [by apply quiet_preserves, quiet_the_options|intros o1].
  destruct (reverse_step o1 (sc_scaledFrames sc) delayArray) as [scaled delays].
  walk.
Qed.

Lemma preserves_upscaleVideo_field env ext source dest progress :
  preserves (obs_field f) always (upscaleVideo env ext source dest progress).
Proof.
  unfold upscaleVideo.
  destruct (job_folder env source _) as [folder image].
  apply preserves_bind; [by apply quiet_preserves, quiet_lift|intros duration].
  apply preserves_bind; [by apply quiet_preserves, quiet_the_options|intros o].
  apply preserves_bind; [|intros _].
  { destruct (negb (truthyN (Opt.framerate o))); [|by apply quiet_preserves, quiet_ret].
    apply preserves_bind; [by apply quiet_preserves, quiet_lift|intros r].
    apply preserves_write_options. intros o1 c s. apply f_framerate. }
  apply preserves_bind; [apply preserves_acquire|intros _].
  apply preserves_bind; [by apply quiet_preserves, quiet_the_options|intros o1].
  apply preserves_bind; [apply preserves_extract_frames|intros _].
  apply preserves_bind; [apply preserves_extract_audio|intros audio].
  apply preserves_bind; [apply preserves_make_upscaled|intros _].
  apply preserves_bind; [|intros _].
  { apply preserves_write_options. intros o2 c s. apply f_rename. }
  apply preserves_bind; [apply preserves_list_frames|intros frameArray].
  apply preserves_bind; [apply preserves_schedule_field|intros sc].
  apply preserves_bind; [|intros _].
  { apply preserves_write_options. intros o2 c s. unfold obs_field. simpl.
    by destruct (negb (truthyN (Opt.speed o2))); rewrite ?f_speed. }
  apply preserves_bind; [|intros _].
  { apply preserves_write_options. intros o2 c s. unfold obs_field. simpl.
    by destruct (negb (truthyB (Opt.reverse o2))); rewrite ?f_reverse. }
  apply preserves_bind; [by apply quiet_preserves, quiet_the_options|intros o2].
  apply preserves_bind; [|intros _].
  { destruct (Str.nonempty audio).
    - apply preserves_bind; [apply preserves_await_ffmpeg|intros _].
      apply preserves_await_ffmpeg.
    - apply preserves_await_ffmpeg. }
  apply preserves_bind; [by apply quiet_preserves, quiet_lift|intros newDuration].
  apply preserves_bind; [apply preserves_await_ffmpeg|intros _].
  walk.
Qed.

End Field.

(** ** The batches *)

Lemma upscaleGIF_output env ext source dest progress j j' out :
  upscaleGIF env ext source dest progress j = (j', Ok out) ->
  out = job_output env source dest.
Proof.
  unfold upscaleGIF, job_output. intros H.
  destruct (job_folder env source _) as [folder image].
  repeat unbind H.
  destruct (select_frames _ _ _) as [[frameArray delayArray]|]; [|done].
  repeat unbind H.
  destruct (reverse_step _ _ _) as [scaled delays].
  repeat unbind H. by injection H as _ <-.
Qed.

Lemma upscaleVideo_output env ext source dest progress j j' out :
  upscaleVideo env ext source dest progress j = (j', Ok out) ->
  out = job_output env source dest.
Proof.
  unfold upscaleVideo, job_output. intros H.
  destruct (job_folder env source _) as [folder image].
  repeat unbind H. by injection H as _ <-.
Qed.

Lemma upscaleGIF_limit env ext source dest progress j :
  Opt.limit (j_options (upscaleGIF env ext source dest progress j).1)
  = Opt.limit (j_options j).
Proof.
  by apply (preserves_upscaleGIF_field Opt.limit ltac:(done) ltac:(done)
              ltac:(done) ltac:(done) env ext source dest progress j).
Qed.

Lemma upscaleVideo_limit env ext source dest progress j :
  Opt.limit (j_options (upscaleVideo env ext source dest progress j).1)
  = Opt.limit (j_options j).
Proof.
  by apply (preserves_upscaleVideo_field Opt.limit ltac:(done) ltac:(done)
              ltac:(done) ltac:(done) ltac:(done) ltac:(done)
              env ext source dest progress j).
Qed.

Section Batch.

Variable job : nat -> string -> M string.
Variable output : string -> string.
Variable totalProgress : option TotalProgress.
Hypothesis job_limit : forall i f j,
  Opt.limit (j_options (job i f j).1) = Opt.limit (j_options j).
Hypothesis job_output_eq : forall i f j j' out,
  job i f j = (j', Ok out) -> out = output f.

Lemma batch_loop_limit : forall rest i acc j,
  Opt.limit (j_options (batch_loop job totalProgress i rest acc j).1)
  = Opt.limit (j_options j).
Proof.
  induction rest as [|f rest IH]; intros i acc j; cbn [batch_loop].
  - by destruct (negb _).
  - destruct (negb (below_limit _ _)); [done|].
    destruct (negb (Str.nonempty f)); [done|].
    pose proof (job_limit i f j) as Hl.
    destruct (job i f j) as [j1 [ret|e|]]; simpl in Hl; [|by rewrite IH|done].
    cbv zeta. match goal with |- context [if ?c then _ else _] => destruct c end;
      [done|by rewrite IH].
Qed.

Lemma batch_nothing (P : nat -> Prop) (g : nat -> string) (L : Z) acc :
  increasing [] /\ Forall P [] /\
  b_ret acc = b_ret acc ++ map g [] /\
  b_calls acc = b_calls acc ++
                match totalProgress with
                | Some _ => map (fun k => (S k, L)) []
                | None => []
                end.
Proof.
  split; [done|]. split; [constructor|]. simpl. rewrite app_nil_r.
  split; [done|]. destruct totalProgress; by rewrite app_nil_r.
Qed.

Lemma nonempty_false s : Str.nonempty s = false -> s = EmptyString.
Proof. by destruct s. Qed.

Lemma batch_loop_spec : forall rest i acc j j' b,
  batch_loop job totalProgress i rest acc j = (j', Ok b) ->
  let L := default 0%Z (Opt.limit (j_options j)) in
  exists n,
    let runs := take n (job_runs job i rest j) in
    let done := returned i runs in
    (n <= length rest)%nat /\
    Forall (fun r : Job * Res string => r.2 <> Never) runs /\
    j' = last_state j runs /\
    increasing done /\
    Forall (fun k => (i <= k < i + length rest)%nat /\ (Z.of_nat k < L)%Z) done /\
    b_ret b = b_ret acc ++
              map (fun k => output (default EmptyString (rest !! (k - i)%nat))) done /\
    b_calls b = b_calls acc ++
                match totalProgress with
                | Some _ => map (fun k => (S k, L)) done
                | None => []
                end /\
    (n = length rest \/ (L <= Z.of_nat (i + n))%Z \/
     rest !! n = Some EmptyString \/
     exists cb jl out,
       totalProgress = Some cb /\ last runs = Some (jl, Ok out) /\
       cb (b_calls b) = true).
Proof.
  induction rest as [|f rest IH]; intros i acc j j' b Hrun L;
    cbn [batch_loop] in Hrun.
  { exists 0%nat. cbn [take job_runs returned last_state foldl length].
    split; [done|]. split; [constructor|].
    assert (j' = j /\ b = acc) as [-> ->]
      by (destruct (negb _); by injection Hrun as <- <-).
    split; [done|].
    destruct (batch_nothing (fun k => (i <= k < i + 0)%nat /\ (Z.of_nat k < L)%Z)
                (fun k => output (default EmptyString ([] !! (k - i)%nat))) L acc)
      as (H1 & H2 & H3 & H4).
    repeat (split; [done|]). by left. }
  destruct (below_limit i (j_options j)) eqn:Hbelow; cbn [negb] in Hrun.
  2:{ exists 0%nat. cbn [take job_runs returned last_state foldl].
      injection Hrun as <- <-. split; [lia|]. split; [constructor|].
      split; [done|].
      destruct (batch_nothing
                  (fun k => (i <= k < i + length (f :: rest))%nat /\ (Z.of_nat k < L)%Z)
                  (fun k => output (default EmptyString ((f :: rest) !! (k - i)%nat)))
                  L acc) as (H1 & H2 & H3 & H4).
      repeat (split; [done|]). right. left.
      unfold below_limit in Hbelow. unfold L.
      destruct (Opt.limit (j_options j)) as [l|]; simpl; [|lia].
      apply Z.ltb_ge in Hbelow. lia. }
  destruct (Str.nonempty f) eqn:Hf; cbn [negb] in Hrun.
  2:{ exists 0%nat. cbn [take job_runs returned last_state foldl].
      injection Hrun as <- <-. split; [lia|]. split; [constructor|].
      split; [done|].
      destruct (batch_nothing
                  (fun k => (i <= k < i + length (f :: rest))%nat /\ (Z.of_nat k < L)%Z)
                  (fun k => output (default EmptyString ((f :: rest) !! (k - i)%nat)))
                  L acc) as (H1 & H2 & H3 & H4).
      repeat (split; [done|]). right. right. left.
      by rewrite (nonempty_false f Hf). }
  assert (Z.of_nat i < L)%Z as HiL.
  { unfold below_limit in Hbelow. unfold L.
    destruct (Opt.limit (j_options j)); [|done]. by apply Z.ltb_lt. }
  pose proof (job_limit i f j) as Hl.
  destruct (job i f j) as [j1 [ret|e|]] eqn:Hjob; simpl in Hl; [| |done].
  - pose proof (job_output_eq _ _ _ _ _ Hjob) as ->. cbv zeta in Hrun.
    match type of Hrun with
    | (if ?c then _ else _) = _ => destruct c eqn:Hstop
    end.
    + injection Hrun as <- <-. exists 1%nat.
      cbn [take job_runs]. rewrite Hjob. rewrite take_0.
      cbn [returned last_state foldl fst b_ret b_calls map length].
      rewrite Nat.sub_diag. cbn [lookup list_lookup default].
      split; [lia|]. split; [by repeat constructor|]. split; [done|].
      split; [by repeat constructor|].
      split; [constructor; [|constructor]; simpl; split; [lia|done]|].
      split; [done|]. rewrite Hl. fold L. split.
      { destruct totalProgress; [done|by rewrite app_nil_r]. }
      right. right. right.
      destruct totalProgress as [cb|]; [|done].
      exists cb, j1, (output f). rewrite Hl in Hstop. by fold L in Hstop.
    + destruct (IH _ _ _ _ _ Hrun)
        as (n & Hn & Hnever & Hlast & Hsorted & Hin & Hret & Hcalls & Hend).
      rewrite Hl in Hin, Hcalls, Hend. fold L in Hin, Hcalls, Hend.
      exists (S n). cbn [take job_runs]. rewrite Hjob. cbn [fst returned].
      cbn [b_ret b_calls] in Hret, Hcalls.
      split; [simpl; lia|]. split; [by constructor|]. split; [done|].
      split.
      { split; [|done]. eapply Forall_impl; [exact Hin|].
        simpl. intros k [Hk _]. lia. }
      split.
      { constructor; [simpl; lia|]. eapply Forall_impl; [exact Hin|].
        simpl. intros k [Hk HkL]. split; [lia|done]. }
      split.
      { rewrite Hret, <- app_assoc. f_equal. cbn [map app].
        rewrite Nat.sub_diag. cbn [lookup list_lookup default]. f_equal.
        apply Forall_fmap_ext_1. eapply Forall_impl; [exact Hin|].
        simpl. intros k [Hk _].
        replace (k - i)%nat with (S (k - S i)) by lia. done. }
      split.
      { rewrite Hcalls, ?Hl. fold L.
        destruct totalProgress; [by rewrite <- app_assoc|done]. }
      destruct Hend as [->|[Hend|[Hend|(cb & jl & out & Hcb & Hl' & Hans)]]].
      * by left.
      * right. left. lia.
      * right. right. by left.
      * right. right. right. exists cb, jl, out. split; [done|]. split; [|done].
        destruct (take n (job_runs job (S i) rest j1)) as [|r rs]; [done|].
        by rewrite last_cons, Hl'.
  - destruct (IH _ _ _ _ _ Hrun)
      as (n & Hn & Hnever & Hlast & Hsorted & Hin & Hret & Hcalls & Hend).
    rewrite Hl in Hin, Hcalls, Hend. fold L in Hin, Hcalls, Hend.
    exists (S n). cbn [take job_runs]. rewrite Hjob. cbn [fst returned].
    split; [simpl; lia|]. split; [by constructor|]. split; [done|].
    split; [done|]. split.
    { eapply Forall_impl; [exact Hin|]. simpl. intros k [Hk HkL]. split; [lia|done]. }
    split.
    { rewrite Hret. f_equal.
      apply Forall_fmap_ext_1. eapply Forall_impl; [exact Hin|].
      simpl. intros k [Hk _].
      replace (k - i)%nat with (S (k - S i)) by lia. done. }
    split; [done|].
    destruct Hend as [->|[Hend|[Hend|(cb & jl & out & Hcb & Hl' & Hans)]]].
    * by left.
    * right. left. lia.
    * right. right. by left.
    * right. right. right. exists cb, jl, out. split; [done|]. split; [|done].
      destruct (take n (job_runs job (S i) rest j1)) as [|r rs]; [done|].
      by rewrite last_cons, Hl'.
Qed.

(** No exception of a job leaves the loop. *)
Lemma batch_loop_catches : forall rest i acc j e,
  (batch_loop job totalProgress i rest acc j).2 <> Throw e.
Proof.
  induction rest as [|f rest IH]; intros i acc j e; cbn [batch_loop].
  - by destruct (negb _).
  - destruct (negb (below_limit _ _)); [done|].
    destruct (negb (Str.nonempty f)); [done|].
    destruct (job i f j) as [j1 [ret|e'|]]; [|apply IH|done].
    cbv zeta. match goal with |- context [if ?c then _ else _] => destruct c end;
      [done|apply IH].
Qed.

Lemma set_fs_same j : set_fs (disk (j_disk j)) j = j.
Proof. by destruct j as [[? ?] ? ? ? ? ?]. Qed.

Lemma batch_spec sourceFolder j j' b :
  batch job sourceFolder totalProgress j = (j', Ok b) ->
  exists files n,
    readdirSync (disk (j_disk j)) sourceFolder = Ok files /\
    let fileMap := batch_files sourceFolder files in
    let L := batch_limit (j_options j) fileMap in
    let runs := take n (job_runs job 0 fileMap (batch_start fileMap j)) in
    (n <= length fileMap)%nat /\
    Forall (fun r : Job * Res string => r.2 <> Never) runs /\
    j' = last_state (batch_start fileMap j) runs /\
    batch_outcome output fileMap L totalProgress b (returned 0 runs) /\
    batch_ended fileMap L totalProgress b n runs.
Proof.
  unfold batch. intros H. unbind H. unfold on_fs in Hm.
  destruct (readdirSync (disk (j_disk j)) sourceFolder) as [files| |] eqn:Hls;
    try done.
  injection Hm as <- <-. rewrite set_fs_same in H.
  unbind H. unfold write_options in Hm.
  injection Hm as <- _. unbind H. injection Hm as <- <-.
  assert (default 0%Z
            (Opt.limit
               (if negb (truthyZ (Opt.limit (j_options j)))
                then Opt.set_limit
                       (Some (Z.of_nat (length (batch_files sourceFolder files))))
                       (j_options j)
                else j_options j))
          = batch_limit (j_options j) (batch_files sourceFolder files)) as HL.
  { unfold batch_limit. by destruct (truthyZ (Opt.limit (j_options j))). }
  destruct (batch_loop_spec _ _ _ _ _ _ H)
    as (n & Hn & Hnever & Hlast & Hsorted & Hin & Hret & Hcalls & Hend).
  exists files, n. split; [done|].
  cbv zeta in Hnever, Hlast, Hsorted, Hin, Hret, Hcalls, Hend.
  cbn [b_ret b_calls app j_options set_options] in Hin, Hret, Hcalls, Hend.
  rewrite HL in Hin, Hcalls, Hend.
  cbv zeta. unfold batch_start.
  split; [done|]. split; [exact Hnever|]. split; [exact Hlast|]. split.
  { split; [done|]. split.
    { eapply Forall_impl; [exact Hin|]. simpl. intros k [Hk HkL]. split; [lia|done]. }
    split.
    { rewrite Hret. apply Forall_fmap_ext_1, Forall_forall. intros k _.
      by rewrite Nat.sub_0_r. }
    rewrite Hcalls. by destruct totalProgress. }
  exact Hend.
Qed.

Lemma batch_throws sourceFolder j e :
  (batch job sourceFolder totalProgress j).2 = Throw e ->
  readdirSync (disk (j_disk j)) sourceFolder = Throw e /\
  (batch job sourceFolder totalProgress j).1 = j.
Proof.
  unfold batch, bind, on_fs, write_options, the_options.
  destruct (readdirSync (disk (j_disk j)) sourceFolder) as [files|e'|] eqn:Hls;
    simpl.
  - intros H. by apply batch_loop_catches in H.
  - intros [= ->]. split; [done|]. by destruct j as [[? ?] ? ? ? ? ?].
  - done.
Qed.

End Batch.

Section BatchField.

Context {T : Type} (f : Opt.t -> T).
Variable job : nat -> string -> M string.
Variable totalProgress : option TotalProgress.
Hypothesis f_limit : forall v o, f (Opt.set_limit v o) = f o.
Hypothesis job_field : forall i x j, f (j_options (job i x j).1) = f (j_options j).

Lemma batch_loop_field : forall rest i acc j,
  f (j_options (batch_loop job totalProgress i rest acc j).1) = f (j_options j).
Proof.
  induction rest as [|x rest IH]; intros i acc j; cbn [batch_loop].
  - by destruct (negb _).
  - destruct (negb (below_limit _ _)); [done|].
    destruct (negb (Str.nonempty x)); [done|].
    pose proof (job_field i x j) as Hl.
    destruct (job i x j) as [j1 [ret|e|]]; simpl in Hl; [|by rewrite IH|done].
    cbv zeta. match goal with |- context [if ?c then _ else _] => destruct c end;
      [done|by rewrite IH].
Qed.

Lemma batch_field sourceFolder j :
  f (j_options (batch job sourceFolder totalProgress j).1) = f (j_options j).
Proof.
  unfold batch, bind, on_fs, write_options, the_options.
  destruct (readdirSync (disk (j_disk j)) sourceFolder) as [files|e'|]; simpl;
    [|done|done].
  rewrite batch_loop_field. simpl. by destruct (negb _); rewrite ?f_limit.
Qed.

End BatchField.

(** X12.  What [upscaleGIFs] and [upscaleVideos] hand back when they
    return.  The jobs of the first [n] entries of the folder, in the sorted
    order of [readdirSync], were run one after the other, each in the state
    the one before left, and each returned or threw; [n] is where the loop
    ended: at the end of the folder, at [options.limit], at a falsy entry,
    or where [totalProgress] answered [true] after a job that returned.
    [retArray] lists, in that order, the outputs of exactly the jobs that
    returned; a job that threw is left out.  [totalProgress] is called with
    [(0, limit)] at the start and with [(k + 1, limit)] after each job that
    returned, [k] being the position of its file in the folder, not the
    number of jobs finished; it is not called for a job that threw. *)
Theorem a_batch_lists_the_jobs_that_returned
  env ext sourceFolder destFolder totalProgress progress j j' b :
  let outcome job run :=
    run = (j', Ok b) ->
    exists files n,
      readdirSync (disk (j_disk j)) sourceFolder = Ok files /\
      let fileMap := batch_files sourceFolder files in
      let L := batch_limit (j_options j) fileMap in
      let runs := take n (job_runs job 0 fileMap (batch_start fileMap j)) in
      (n <= length fileMap)%nat /\
      Forall (fun r : Job * Res string => r.2 <> Never) runs /\
      j' = last_state (batch_start fileMap j) runs /\
      batch_outcome (fun x => job_output env x destFolder) fileMap L
        totalProgress b (returned 0 runs) /\
      batch_ended fileMap L totalProgress b n runs in
  outcome (fun i f => upscaleGIF env ext f destFolder (progress_at progress i))
          (upscaleGIFs env ext sourceFolder destFolder totalProgress progress j) /\
  outcome (fun i f => upscaleVideo env ext f destFolder (progress_at progress i))
          (upscaleVideos env ext sourceFolder destFolder totalProgress progress j).
Proof.
  split.
  - apply batch_spec.
    + intros i x j0. apply upscaleGIF_limit.
    + intros i x j0 j1 out. apply upscaleGIF_output.
  - apply batch_spec.
    + intros i x j0. apply upscaleVideo_limit.
    + intros i x j0 j1 out. apply upscaleVideo_output.
Qed.

(** X13.  No exception of a job leaves a batch: [upscaleGIFs] and
    [upscaleVideos] throw only when the source folder cannot be listed, and
    then nothing has been written, neither to the disk nor to the options
    object. *)
Theorem no_exception_of_a_job_leaves_a_batch
  env ext sourceFolder destFolder totalProgress progress j e :
  let caught run :=
    run.2 = Throw e ->
    readdirSync (disk (j_disk j)) sourceFolder = Throw e /\ run.1 = j in
  caught (upscaleGIFs env ext sourceFolder destFolder totalProgress progress j) /\
  caught (upscaleVideos env ext sourceFolder destFolder totalProgress progress j).
Proof. split; apply batch_throws. Qed.

(** X14.  The batches write into the options object they are given, like
    the jobs they run, but only into [limit], [parallelFrames], [rename],
    [modelDir], [cumulative], [framerate], [speed] and [reverse]: every
    other field is what it was, however the batch ends; and a job leaves
    [limit] as it is. *)
Theorem a_batch_keeps_the_settings
  env ext sourceFolder destFolder totalProgress progress source p j :
  settings (j_options
              (upscaleGIFs env ext sourceFolder destFolder totalProgress progress j).1)
    = settings (j_options j) /\
  settings (j_options
              (upscaleVideos env ext sourceFolder destFolder totalProgress progress j).1)
    = settings (j_options j) /\
  Opt.limit (j_options (upscaleGIF env ext source destFolder p j).1)
    = Opt.limit (j_options j) /\
  Opt.limit (j_options (upscaleVideo env ext source destFolder p j).1)
    = Opt.limit (j_options j).
Proof.
  split; [|split; [|split]].
  - apply (batch_field settings); [done|]. intros i x j0.
    by apply (preserves_upscaleGIF_field settings ltac:(done) ltac:(done)
                ltac:(done) ltac:(done) env ext x destFolder _ j0).
  - apply (batch_field settings); [done|]. intros i x j0.
    by apply (preserves_upscaleVideo_field settings ltac:(done) ltac:(done)
                ltac:(done) ltac:(done) ltac:(done) ltac:(done)
                env ext x destFolder _ j0).
  - apply upscaleGIF_limit.
  - apply upscaleVideo_limit.
Qed.

Lemma a_batch_lists_the_jobs_that_returned_witness :
  let j := Demo2.job Demo3.mixed Opt.empty in
  let job := fun i f => upscaleGIF Demo.env Demo3.picky f "/out" (progress_at None i) in
  let run := upscaleGIFs Demo.env Demo3.picky "/in/" "/out" (Some Demo3.go_on) None j in
  let b := {| b_ret := ["/out/a2x.gif"; "/out/c2x.gif"];
              b_calls := [(0%nat, 3%Z); (1%nat, 3%Z); (3%nat, 3%Z)] |} in
  run.2 = Ok b /\
  exists files n,
    readdirSync (disk (j_disk j)) "/in/" = Ok files /\
    let fileMap := batch_files "/in/" files in
    let L := batch_limit (j_options j) fileMap in
    let runs := take n (job_runs job 0 fileMap (batch_start fileMap j)) in
    (n <= length fileMap)%nat /\
    Forall (fun r : Job * Res string => r.2 <> Never) runs /\
    run.1 = last_state (batch_start fileMap j) runs /\
    batch_outcome (fun x => job_output Demo.env x "/out") fileMap L
      (Some Demo3.go_on) b (returned 0 runs) /\
    batch_ended fileMap L (Some Demo3.go_on) b n runs.
Proof.
  split; [vm_compute; reflexivity|].
  apply (proj1 (a_batch_lists_the_jobs_that_returned Demo.env Demo3.picky
                  "/in/" "/out" (Some Demo3.go_on) None
                  (Demo2.job Demo3.mixed Opt.empty)
                  (upscaleGIFs Demo.env Demo3.picky "/in/" "/out"
                     (Some Demo3.go_on) None (Demo2.job Demo3.mixed Opt.empty)).1
                  _)).
  vm_compute. reflexivity.
Defined.

(** The folder of the example is read in sorted order, [b.txt] between the
    two images: its job throws, and the calls of [totalProgress] skip it. *)
Example a_batch_of_three_entries :
  let j := Demo2.job Demo3.mixed Opt.empty in
  let job := fun i f => upscaleGIF Demo.env Demo3.picky f "/out" (progress_at None i) in
  readdirSync (disk (j_disk j)) "/in/" = Ok ["a.gif"; "b.txt"; "c.gif"] /\
  map snd (job_runs job 0 (batch_files "/in/" ["a.gif"; "b.txt"; "c.gif"])
             (batch_start (batch_files "/in/" ["a.gif"; "b.txt"; "c.gif"]) j))
  = [Ok "/out/a2x.gif"; Throw "not a GIF"; Ok "/out/c2x.gif"] /\
  returned 0 (job_runs job 0 (batch_files "/in/" ["a.gif"; "b.txt"; "c.gif"])
                (batch_start (batch_files "/in/" ["a.gif"; "b.txt"; "c.gif"]) j))
  = [0%nat; 2%nat].
Proof. vm_compute. done. Qed.

Lemma no_exception_of_a_job_leaves_a_batch_witness :
  let j := Demo2.job Demo3.mixed Opt.empty in
  let run := upscaleGIFs Demo.env Demo3.picky "/nowhere" "/out" None None j in
  run.2 = Throw "ENOENT" /\
  readdirSync (disk (j_disk j)) "/nowhere" = Throw "ENOENT" /\ run.1 = j.
Proof.
  split; [vm_compute; reflexivity|].
  apply (proj1 (no_exception_of_a_job_leaves_a_batch Demo.env Demo3.picky
                  "/nowhere" "/out" None None
                  (Demo2.job Demo3.mixed Opt.empty) "ENOENT")).
  vm_compute. reflexivity.
Defined.

(** ** The files [upscaleImages] finds *)

Lemma filter_res_map pred (g : string -> string) (Q : string -> Prop)
  `{forall e, Decision (Q e)} es :
  (forall e, e ∈ es -> pred (g e) = Ok (bool_decide (Q e))) ->
  filter_res pred (map g es) = Ok (map g (filter Q es)).
Proof.
  induction es as [|e es IH]; intros Hpred; [done|].
  cbn [map filter_res]. rewrite (Hpred e) by left.
  rewrite IH by (intros e' He'; apply Hpred; by right).
  destruct (decide (Q e)) as [HQ|HQ].
  - by rewrite bool_decide_eq_true_2, filter_cons_True.
  - by rewrite bool_decide_eq_false_2, filter_cons_False.
Qed.

Lemma level_spec fs dir P es :
  wf fs ->
  (forall e, is_name e = true -> resolve fs (dir +:+ "/" +:+ e) = P ++ [e]) ->
  (forall e, e ∈ es -> e ∈ children fs P) ->
  level fs dir es =
  Ok (map (fun e => dir +:+ "/" +:+ e)
          (filter (fun e => nodes fs !! (P ++ [e]) = Some File) es),
      map (fun e => dir +:+ "/" +:+ e)
          (filter (fun e => nodes fs !! (P ++ [e]) = Some Dir) es)).
Proof.
  intros Hwf Hres Hes. unfold level.
  rewrite (filter_res_map _ _ (fun e => nodes fs !! (P ++ [e]) = Some File)).
  - rewrite (filter_res_map _ _ (fun e => nodes fs !! (P ++ [e]) = Some Dir)); [done|].
    intros e He%Hes. unfold lstatSync_isDirectory.
    pose proof (children_names fs P e Hwf He) as Hn.
    rewrite (lookup_ends_in _ _ _ (ends_in_child dir e Hn)), (Hres e Hn).
    rewrite node_at_lookup by apply snoc_not_nil.
    apply elem_of_children in He as [[|] Hv]; rewrite Hv; by case_bool_decide.
  - intros e He%Hes. unfold lstatSync_isFile.
    pose proof (children_names fs P e Hwf He) as Hn.
    rewrite (lookup_ends_in _ _ _ (ends_in_child dir e Hn)), (Hres e Hn).
    rewrite node_at_lookup by apply snoc_not_nil.
    apply elem_of_children in He as [[|] Hv]; rewrite Hv; by case_bool_decide.
Qed.

Lemma prefix_snoc_inj {A} (P k : list A) e e' :
  (P ++ [e]) `prefix_of` k -> (P ++ [e']) `prefix_of` k -> e = e'.
Proof.
  intros [s Hs] [s' Hs']. rewrite Hs, <- !app_assoc in Hs'.
  apply app_inv_head in Hs'. by injection Hs'.
Qed.

Lemma gather_spec fs search dir P :
  (forall e, is_name e = true -> resolve fs (dir +:+ "/" +:+ e) = P ++ [e]) ->
  forall es fm,
    NoDup es -> Forall (fun e => is_name e = true) es ->
    (forall e, e ∈ es ->
       exists l, search (dir +:+ "/" +:+ e) = Ok l /\ found fs (P ++ [e]) true l) ->
    exists l,
      gather search fm (map (fun e => dir +:+ "/" +:+ e) es) = Ok (fm ++ l) /\
      NoDup (map (resolve fs) l) /\
      forall k, k ∈ map (resolve fs) l <->
                exists e, e ∈ es /\ file_in fs (P ++ [e]) true k.
Proof.
  intros Hres es. induction es as [|e es IH]; intros fm Hnd Hnames Hsearch.
  - exists []. simpl. rewrite app_nil_r. split; [done|]. split; [constructor|].
    intros k. split; [by intros ?%elem_of_nil|]. by intros (e & ?%elem_of_nil & _).
  - inversion Hnd as [|? ? Hnotin Hnd']; subst.
    inversion Hnames as [|? ? He Hnames']; subst.
    destruct (Hsearch e ltac:(left)) as (le & Hle & Hnd_e & Hin_e).
    destruct (IH (fm ++ le) Hnd' Hnames') as (l & Hl & Hnd_l & Hin_l).
    { intros e' He'. apply Hsearch. by right. }
    exists (le ++ l). cbn [map gather]. rewrite Hle, Hl, <- app_assoc.
    split; [done|]. rewrite map_app. split.
    + apply NoDup_app. split; [done|]. split; [|done].
      intros k Hk1 Hk2. apply Hin_e in Hk1 as (_ & _ & Hp1).
      apply Hin_l in Hk2 as (e' & He' & _ & _ & Hp2).
      apply Hnotin. by rewrite (prefix_snoc_inj P k e e').
    + intros k. rewrite elem_of_app, Hin_e, Hin_l. split.
      * intros [Hk|(e' & He' & Hk)]; [exists e; split; [left|done]|].
        exists e'. split; [by right|done].
      * intros (e' & He' & Hk). apply elem_of_cons in He' as [->|He'];
          [by left|right; eauto].
Qed.

(** The files directly in a folder, and the files of its subfolders;
    [es] is the folder as [readdirSync] lists it. *)
Lemma folder_found fs P es (here : list string) (below : list string) g :
  wf fs -> node_at fs P = Some Dir ->
  NoDup es -> (forall e, e ∈ es <-> e ∈ children fs P) ->
  (forall e, is_name e = true -> resolve fs (g e) = P ++ [e]) ->
  here = map g (filter (fun e => nodes fs !! (P ++ [e]) = Some File) es) ->
  NoDup (map (resolve fs) below) ->
  (forall k, k ∈ map (resolve fs) below <->
             exists e, e ∈ filter (fun e => nodes fs !! (P ++ [e]) = Some Dir) es /\
                       file_in fs (P ++ [e]) true k) ->
  found fs P false here /\ found fs P true (here ++ below).
Proof.
  intros Hwf HP Hnd_es Hes Hres -> Hnd Hin.
  set (files := filter (fun e => nodes fs !! (P ++ [e]) = Some File) es).
  assert (map (resolve fs) (map g files) = map (fun e => P ++ [e]) files) as Hkeys.
  { rewrite map_map. apply Forall_fmap_ext_1, Forall_forall.
    intros e He%list_elem_of_filter. apply Hres.
    apply (children_names fs P e Hwf), Hes, He. }
  assert (NoDup (map (fun e => P ++ [e]) files)) as Hnd_files.
  { apply NoDup_fmap_2; [|by apply NoDup_filter].
    intros e e' E. apply app_inv_head in E. by injection E. }
  assert (forall k, k ∈ map (fun e => P ++ [e]) files <-> file_in fs P false k)
    as Hin_files.
  { intros k. rewrite list_elem_of_fmap. split.
    - intros (e & -> & [Hfile _]%list_elem_of_filter). split; [done|].
      split; [|by rewrite removelast_last].
      intros E. apply (f_equal length) in E. rewrite length_app in E.
      simpl in E. lia.
    - intros (Hfile & Hne & Hparent).
      assert (k <> []) as Hk by (intros ->; by rewrite lookup_empty_Some in Hfile
                                  || destruct (proj2 Hwf [] ltac:(eauto)) as [? _]).
      destruct (snoc_inv k Hk) as (Q & e & -> & HQ & _). rewrite HQ in Hparent.
      subst Q. exists e. split; [done|]. apply list_elem_of_filter.
      split; [done|]. apply Hes, elem_of_children. eauto. }
  split; [split; by rewrite Hkeys|].
  split.
  - rewrite map_app, Hkeys. apply NoDup_app. split; [done|]. split; [|done].
    intros k Hk1 Hk2. apply Hin_files in Hk1 as (_ & _ & Hparent).
    apply Hin in Hk2 as (e & _ & Hfile & Hne & [s Hs]).
    destruct s as [|x s]; [by rewrite app_nil_r in Hs|].
    rewrite removelast_firstn_len in Hparent.
    apply (f_equal length) in Hparent, Hs.
    rewrite length_take in Hparent. rewrite !length_app in Hs.
    simpl in Hs. lia.
  - intros k. rewrite map_app, elem_of_app, Hkeys, Hin_files, Hin. split.
    + intros [(Hfile & Hne & Hparent)|(e & _ & Hfile & Hne & [s Hs])].
      * split; [done|]. split; [done|].
        assert (k <> []) as Hk
          by (intros ->; destruct (proj2 Hwf [] ltac:(eauto)) as [? _]; done).
        destruct (snoc_inv k Hk) as (Q & e & -> & HQ & _). rewrite HQ in Hparent.
        subst Q. by exists [e].
      * split; [done|]. split.
        { intros ->. apply (f_equal length) in Hs. rewrite !length_app in Hs.
          simpl in Hs. lia. }
        exists ([e] ++ s). by rewrite Hs, <- app_assoc.
    + intros (Hfile & Hne & [s Hs]).
      destruct s as [|e s]; [by rewrite app_nil_r in Hs|].
      destruct (decide (s = [])) as [->|Hs'].
      * left. split; [done|]. split; [done|]. by rewrite Hs, removelast_last.
      * right. exists e.
        assert ((P ++ [e]) `prefix_of` k) as Hpre
          by (exists s; by rewrite Hs, <- app_assoc).
        assert (P ++ [e] <> k) as Hneq.
        { intros E. rewrite Hs in E. apply app_inv_head in E. by injection E. }
        split; [|done].
        apply list_elem_of_filter. split.
        -- apply (wf_ancestors fs k); eauto using snoc_not_nil.
        -- apply Hes, elem_of_children.
           apply (wf_self_or_ancestor fs k); eauto using snoc_not_nil.
Qed.

Lemma endsWith_slash s :
  Str.endsWith s "/" = true -> s = Str.slice_0_m1 s +:+ "/".
Proof.
  unfold Str.endsWith, Str.slice_0_m1.
  change (String.length "/") with 1%nat.
  intros [Hn Heq]%andb_true_iff. apply Nat.leb_le in Hn.
  apply String.eqb_eq in Heq.
  pose proof (substring_split s (String.length s - 1) ltac:(lia)) as H.
  replace (String.length s - (String.length s - 1))%nat with 1%nat in H by lia.
  by rewrite Heq in H.
Qed.

Lemma resolve_slash_last fs s :
  Str.nonempty s = true -> resolve fs (s +:+ "/") = resolve fs s.
Proof.
  intros Hs. by rewrite !resolve_eq, segments_slash_last, isAbsolute_app.
Qed.

Lemma stripped_child fs s e :
  Str.nonempty s = true -> is_name e = true ->
  resolve fs (stripped s +:+ "/" +:+ e) = resolve fs s ++ [e].
Proof.
  intros Hs He. unfold stripped.
  destruct (Str.endsWith s "/") eqn:E; [|by apply resolve_child].
  apply endsWith_slash in E. set (s' := Str.slice_0_m1 s) in *.
  destruct (Str.nonempty s') eqn:Hs'.
  - rewrite resolve_child by done. by rewrite E, resolve_slash_last.
  - destruct s'; [|done]. rewrite E.
    change (resolve fs ("/" +:+ e) = resolve fs "/" ++ [e]).
    rewrite !resolve_eq. cbn [Path.isAbsolute].
    rewrite segments_slash_first, segments_plain
      by (by apply is_name_spec).
    replace (Ascii.eqb "/" Path.slash) with true by done.
    simpl. by rewrite ns_step_name.
Qed.

Lemma nonempty_child dir e : Str.nonempty (dir +:+ "/" +:+ e) = true.
Proof. by destruct dir. Qed.

Lemma recursiveSearch_step fs fuel dir :
  wf fs ->
  (forall sub, Str.nonempty sub = true ->
     nodes fs !! resolve fs sub = Some Dir -> resolve fs sub <> [] ->
     (depth fs < fuel + length (resolve fs sub))%nat ->
     exists l, recursiveSearch fuel fs sub = Ok l /\ found fs (resolve fs sub) true l) ->
  Str.nonempty dir = true -> node_at fs (resolve fs dir) = Some Dir ->
  (depth fs <= fuel + length (resolve fs dir))%nat ->
  exists l, recursiveSearch (S fuel) fs dir = Ok l /\
            found fs (resolve fs dir) true l.
Proof.
  intros Hwf Hrec Hdir HP Hfuel. cbn [recursiveSearch].
  unfold readdirSync. rewrite (lookup_dir _ _ Hdir HP).
  set (P := resolve fs dir) in *.
  set (es := merge_sort Str.le (children fs P)).
  assert (forall e, e ∈ es <-> e ∈ children fs P) as Hes
    by (intros e; apply sorted_elem_of).
  rewrite (level_spec fs dir P es Hwf)
    by ((intros e He; by apply resolve_child) || (intros e He; by apply Hes)).
  destruct (gather_spec fs (recursiveSearch fuel fs) dir P) with
    (es := filter (fun e => nodes fs !! (P ++ [e]) = Some Dir) es)
    (fm := map (fun e => dir +:+ "/" +:+ e)
             (filter (fun e => nodes fs !! (P ++ [e]) = Some File) es))
    as (l & Hl & Hnd & Hin).
  - intros e He. by apply resolve_child.
  - apply NoDup_filter, NoDup_sorted.
  - apply Forall_forall. intros e [_ He%Hes]%list_elem_of_filter.
    by apply (children_names fs P).
  - intros e [He _]%list_elem_of_filter.
    pose proof (resolve_child fs dir e Hdir) as Hr. fold P in Hr.
    assert (is_name e = true) as Hname.
    { apply (children_names fs P e Hwf), elem_of_children. eauto. }
    rewrite <- (Hr Hname). apply Hrec.
    + apply nonempty_child.
    + by rewrite (Hr Hname).
    + rewrite (Hr Hname). apply snoc_not_nil.
    + rewrite (Hr Hname), length_app. simpl. fold P. lia.
  - exists (map (fun e => dir +:+ "/" +:+ e)
              (filter (fun e => nodes fs !! (P ++ [e]) = Some File) es)
            ++ l).
    split; [done|].
    apply (folder_found fs P es _ l (fun e => dir +:+ "/" +:+ e)); try done.
    + apply NoDup_sorted.
    + intros e He. by apply resolve_child.
Qed.

Lemma recursiveSearch_found fs fuel : forall dir,
  wf fs -> Str.nonempty dir = true -> node_at fs (resolve fs dir) = Some Dir ->
  (depth fs <= fuel + length (resolve fs dir))%nat ->
  exists l, recursiveSearch (S fuel) fs dir = Ok l /\
            found fs (resolve fs dir) true l.
Proof.
  induction fuel as [|fuel IH]; intros dir Hwf Hdir HP Hfuel;
    apply recursiveSearch_step; try done.
  - intros sub _ Hsub Hne Hdeep. exfalso.
    assert (length (resolve fs sub) <= depth fs)%nat
      by (apply (depth_bound fs (depth fs)); [lia|eauto]).
    lia.
  - intros sub Hs Hsub Hne Hdeep. apply IH; try done; [|lia].
    by rewrite node_at_lookup.
Qed.

Lemma the_listing_files fs sourceFolder recursive :
  wf fs -> Str.nonempty sourceFolder = true ->
  node_at fs (resolve fs sourceFolder) = Some Dir ->
  exists fileMap,
    listing fs sourceFolder recursive = Ok fileMap /\
    found fs (resolve fs sourceFolder) (truthyB recursive) fileMap.
Proof.
  intros Hwf Hs HP. unfold listing, readdirSync. rewrite (lookup_dir _ _ Hs HP).
  set (P := resolve fs sourceFolder) in *. fold (stripped sourceFolder).
  set (es := merge_sort Str.le (children fs P)).
  assert (forall e, e ∈ es <-> e ∈ children fs P) as Hes
    by (intros e; apply sorted_elem_of).
  assert (forall e, is_name e = true ->
                    resolve fs (stripped sourceFolder +:+ "/" +:+ e) = P ++ [e])
    as Hres by (intros e He; by apply stripped_child).
  rewrite (level_spec fs _ P es Hwf Hres) by (intros e He; by apply Hes).
  destruct (gather_spec fs (recursiveSearch (depth fs) fs) (stripped sourceFolder) P Hres)
    with
    (es := filter (fun e => nodes fs !! (P ++ [e]) = Some Dir) es)
    (fm := map (fun e => stripped sourceFolder +:+ "/" +:+ e)
             (filter (fun e => nodes fs !! (P ++ [e]) = Some File) es))
    as (l & Hl & Hnd & Hin).
  - apply NoDup_filter, NoDup_sorted.
  - apply Forall_forall. intros e [_ He%Hes]%list_elem_of_filter.
    by apply (children_names fs P).
  - intros e [He _]%list_elem_of_filter.
    assert (is_name e = true) as Hname.
    { apply (children_names fs P e Hwf), elem_of_children. eauto. }
    rewrite <- (Hres e Hname).
    assert (1 <= depth fs)%nat as Hdepth.
    { assert (length (P ++ [e]) <= depth fs)%nat
        by (apply (depth_bound fs (depth fs)); [lia|eauto]).
      rewrite length_app in H. simpl in H. lia. }
    destruct (depth fs) as [|fuel] eqn:Ed; [lia|].
    apply recursiveSearch_found; try done.
    + apply nonempty_child.
    + rewrite (Hres e Hname). by rewrite node_at_lookup by apply snoc_not_nil.
    + rewrite (Hres e Hname), length_app. simpl.
      assert (length (P ++ [e]) <= depth fs)%nat
        by (apply (depth_bound fs (depth fs)); [lia|eauto]).
      rewrite length_app in H. simpl in H. lia.
  - destruct (folder_found fs P es _ l (fun e => stripped sourceFolder +:+ "/" +:+ e)
                Hwf HP (NoDup_sorted fs P) Hes Hres eq_refl Hnd Hin)
      as [Hhere Hdeep].
    destruct (truthyB recursive); eauto.
Qed.

Lemma missing_spec fs P :
  missing fs P = "ENOENT" \/ missing fs P = "ENOTDIR" /\
  exists n, (n < length P)%nat /\ node_at fs (take n P) = Some File.
Proof.
  unfold missing.
  destruct (existsb _ _) eqn:E; [right|by left]. split; [done|].
  apply existsb_exists in E as (n & Hn & HF). exists n.
  apply in_seq in Hn. split; [lia|].
  by destruct (node_at fs (take n P)) as [[|]|].
Qed.

Lemma missing_ENOENT fs P :
  missing fs P = "ENOENT" ->
  forall n, (n < length P)%nat -> node_at fs (take n P) <> Some File.
Proof.
  unfold missing. destruct (existsb _ _) eqn:E; [done|]. intros _ n Hn HF.
  assert (existsb (fun n => match node_at fs (take n P) with
                            | Some File => true
                            | _ => false
                            end) (seq 0 (length P)) = true) as E'.
  { apply existsb_exists. exists n. split; [apply in_seq; lia|by rewrite HF]. }
  congruence.
Qed.

(** X15.  The files [upscaleImages] works on (lines 185-194, with
    [recursiveSearch]), on a disk where every entry lies in a directory,
    for a folder path without [.] and [..], by what the file system finds
    at [sourceFolder].
    - A directory: [fileMap] names every file that lies directly in the
      folder, each once, and no directory; with [options.recursive] it
      names every file anywhere below the folder, each once.
    - A file: [readdirSync] throws [ENOTDIR].
    - Nothing: [readdirSync] throws [ENOTDIR] when the path goes through a
      file (a path below a file, or a file followed by a slash), and
      [ENOENT] otherwise (also for the empty string). *)
Theorem the_listing_names_every_file_once fs sourceFolder recursive :
  wf fs -> names_only sourceFolder ->
  match lookup fs sourceFolder with
  | Ok (P, Dir) =>
      exists fileMap,
        listing fs sourceFolder recursive = Ok fileMap /\
        found fs P (truthyB recursive) fileMap
  | Ok (_, File) => listing fs sourceFolder recursive = Throw "ENOTDIR"
  | Throw e =>
      listing fs sourceFolder recursive = Throw e /\
      (e = "ENOENT" \/ e = "ENOTDIR") /\
      (e = "ENOTDIR" <->
       Str.nonempty sourceFolder = true /\
       exists n, node_at fs (take n (resolve fs sourceFolder)) = Some File)
  | Never => False
  end.
Proof.
  intros Hwf _.
  destruct (lookup fs sourceFolder) as [[P [|]]|e|] eqn:Hlook.
  - unfold listing, readdirSync. by rewrite Hlook.
  - destruct (lookup_Ok _ _ _ _ Hlook) as (Hs & -> & HP).
    by apply the_listing_files.
  - split; [unfold listing, readdirSync; by rewrite Hlook|].
    unfold lookup in Hlook.
    destruct (Str.nonempty sourceFolder) eqn:Hs; cbn [negb] in Hlook.
    2:{ injection Hlook as <-. split; [by left|]. split; [done|by intros [? _]]. }
    destruct (node_at fs (resolve fs sourceFolder)) as [[|]|] eqn:HP.
    + destruct (Str.endsWith sourceFolder "/"); [|done]. injection Hlook as <-.
      split; [by right|]. split; [|done]. intros _. split; [done|].
      exists (length (resolve fs sourceFolder)). by rewrite firstn_all.
    + done.
    + injection Hlook as <-.
      destruct (missing_spec fs (resolve fs sourceFolder)) as [E|[E (n & Hn & HF)]];
        rewrite E.
      * split; [by left|]. split; [done|]. intros [_ [n HF]]. exfalso.
        destruct (decide (n < length (resolve fs sourceFolder))%nat) as [Hn|Hn].
        -- by apply (missing_ENOENT _ _ E n Hn).
        -- rewrite take_ge in HF by lia. congruence.
      * split; [by right|]. split; [|done]. intros _. split; [done|]. by exists n.
  - by apply lookup_not_never in Hlook.
Qed.

Lemma the_listing_names_every_file_once_witness :
  exists fileMap,
    listing Demo2.leftover "/in/" (Some true) = Ok fileMap /\
    found Demo2.leftover ["in"] (truthyB (Some true)) fileMap.
Proof.
  assert (wf Demo2.leftover) as Hwf by (apply wf_check_sound; vm_compute; reflexivity).
  assert (names_only "/in/") as Hn by (apply (bool_decide_unpack _); vm_compute; reflexivity).
  exact (the_listing_names_every_file_once Demo2.leftover "/in/" (Some true)
           Hwf Hn).
Defined.

Example a_listing_of_a_tree :
  listing Demo2.leftover "/in/" (Some true)
    = Ok ["/in/a.gif"; "/in/aFrames/frame0.jpg"; "/in/aFrames/upscaled/frame0.jpg"] /\
  listing Demo2.leftover "/in/" None = Ok ["/in/a.gif"] /\
  listing Demo2.leftover "/in/a.gif/x" None = Throw "ENOTDIR" /\
  listing Demo2.leftover "/in/a.gif/" None = Throw "ENOTDIR" /\
  listing Demo2.leftover "/nowhere" None = Throw "ENOENT" /\
  listing Demo2.leftover "" None = Throw "ENOENT".
Proof. vm_compute. repeat split; reflexivity. Qed.

(** ** [upscaleImages] from its first line *)




(** ** More on what a job returns *)

(** X17.  [parseDest(source, dest)] names the output of a job: with
    [rename] left out, or ["2x"], its result is the normalised form of the
    path [upscaleGIF] and [upscaleVideo] return, and resolves to the same
    file. *)
Theorem parseDest_names_the_output_of_a_job
  env ext source dest o progress j j' out fs :
  Opt.rename o = None \/ Opt.rename o = Some "2x" ->
  (parseDest env source dest o).2 = Path.normalize (job_output env source dest) /\
  (upscaleGIF env ext source dest progress j = (j', Ok out) ->
   resolve fs (parseDest env source dest o).2 = resolve fs out) /\
  (upscaleVideo env ext source dest progress j = (j', Ok out) ->
   resolve fs (parseDest env source dest o).2 = resolve fs out).
Proof.
  intros Hrename.
  assert ((parseDest env source dest o).2
          = Path.normalize (job_output env source dest)) as H.
  { unfold parseDest, job_output, job_folder.
    assert (default EmptyString
              (Opt.rename match Opt.rename o with
                          | Some _ => o
                          | None => Opt.set_rename (Some "2x") o
                          end) = "2x") as ->
      by (destruct Hrename as [E|E]; rewrite E; simpl; by rewrite ?E).
    destruct (parseFilename source _ "2x") as [folder image].
    by destruct (negb (Path.isAbsolute source) && negb (Path.isAbsolute _)). }
  split; [done|]. split; intros Hrun.
  - by rewrite H, resolve_normalize, (upscaleGIF_output _ _ _ _ _ _ _ _ Hrun).
  - by rewrite H, resolve_normalize, (upscaleVideo_output _ _ _ _ _ _ _ _ Hrun).
Qed.

Lemma parseDest_names_the_output_of_a_job_witness :
  let j := Demo.job Opt.empty in
  let run := upscaleGIF Demo.env Demo.works "/in/a.gif" "/out/" None j in
  (parseDest Demo.env "/in/a.gif" "/out/" Opt.empty).2
    = Path.normalize (job_output Demo.env "/in/a.gif" "/out/") /\
  run.2 = Ok "/out/a2x.gif" /\
  resolve Demo.fs (parseDest Demo.env "/in/a.gif" "/out/" Opt.empty).2
    = resolve Demo.fs "/out/a2x.gif".
Proof.
  destruct (parseDest_names_the_output_of_a_job Demo.env Demo.works "/in/a.gif"
              "/out/" Opt.empty None (Demo.job Opt.empty)
              (upscaleGIF Demo.env Demo.works "/in/a.gif" "/out/" None
                 (Demo.job Opt.empty)).1
              "/out/a2x.gif" Demo.fs) as (H1 & H2 & _).
  - left. reflexivity.
  - split; [exact H1|]. split; [vm_compute; reflexivity|].
    apply H2. vm_compute. reflexivity.
Defined.












(** ** The image of a job that was stopped *)





